(** * WagerX escrow contracts: a shallow embedding and its verification

    The two Solidity contracts of the repository, [WagerContract] (the
    baseline) and [WagerContractGasOptimized], are embedded as functions in a
    small state-and-revert monad.  Unsigned integers are [N]; the bound of a
    [uint256] shows up where Solidity 0.8 checks it (checked arithmetic) and
    the narrower types of the optimized variant show up where the source
    truncates ([uint32(..)], [uint64(..)]) or where the ABI decoder rejects a
    value that does not fit ([uint128 amount]).

    A transaction runs a function body on a working copy of the contract
    (storage, balance, outgoing transfers, emitted events).  A [Revert]
    discards the working copy, which is how the EVM rolls a call back.
    [address.transfer] forwards 2300 gas only, too little for the recipient
    to call back into the contract, so a transfer is modelled as an atomic
    debit that fails when the balance is short or the recipient refuses. *)

From stdpp Require Import gmap strings list sorting.
From Stdlib Require Import NArith Lia.

Local Open Scope N_scope.

(** ** Values, errors and the transaction monad *)

Definition address := N.

Definition MAX_UINT256 : N := 2 ^ 256 - 1.

(** [require] strings of the baseline and custom errors of the optimized
    variant, the compiler-inserted panics, and the EVM-level failures. *)
Inductive Error :=
  | InsufficientPayment
  | NeedAtLeast2Participants
  | CharityPercentageTooHigh
  | WagerNotPending
  | NotAParticipant
  | WagerNotActive
  | InvalidWager
  | WinnerMustBeParticipant
  | CannotCancel
  | NotAuthorized
  | PanicOverflow          (* Panic(0x11): checked arithmetic *)
  | PanicIndexOutOfBounds  (* Panic(0x32): array index *)
  | TransferFailed         (* address.transfer reverted *)
  | NonPayable             (* value sent to a function that is not payable *)
  | BadCalldata            (* the ABI decoder rejected an argument *)
  | IllTyped.              (* the compiler refused the function: it has no code *)

Inductive Event :=
  | WagerCreated (wagerId : N) (creator : address) (amount : N)
  | WagerResolved (wagerId : N) (winner : address).

Inductive Result (A : Type) :=
  | Ok (a : A)
  | Revert (e : Error).
Arguments Ok {A} a.
Arguments Revert {A} e.

(** What a call sees of its environment. [can_receive a] tells whether a
    plain value transfer to [a] goes through. *)
Record Ctx := {
  msg_sender : address;
  msg_value : N;
  block_timestamp : N;
  can_receive : address → bool
}.

(** Working copy of a running transaction over storage type [S]. *)
Record Tx (S : Type) := {
  st : S;
  bal : N;
  out : list (address * N);
  evs : list Event
}.
Arguments st {S} t.
Arguments bal {S} t.
Arguments out {S} t.
Arguments evs {S} t.

Definition M (S A : Type) : Type := Tx S → Result (A * Tx S).

Global Instance M_ret {S} : MRet (M S) := λ A a t, Ok (a, t).
Global Instance M_bind {S} : MBind (M S) := λ A B f m t,
  match m t with
  | Ok (a, t') => f a t'
  | Revert e => Revert e
  end.

Definition require {S} (b : bool) (e : Error) : M S unit :=
  λ t, if b then Ok ((), t) else Revert e.

Definition revert {S A} (e : Error) : M S A := λ _, Revert e.

Definition load {S} : M S S := λ t, Ok (st t, t).

Definition store_ {S} (s : S) : M S unit :=
  λ t, Ok ((), {| st := s; bal := bal t; out := out t; evs := evs t |}).

Definition emit {S} (e : Event) : M S unit :=
  λ t, Ok ((), {| st := st t; bal := bal t; out := out t; evs := evs t ++ [e] |}).

(** Checked [uint256] arithmetic of Solidity 0.8. *)
Definition checked_add {S} (a b : N) : M S N :=
  λ t, if a + b <=? MAX_UINT256 then Ok (a + b, t) else Revert PanicOverflow.

Definition checked_mul {S} (a b : N) : M S N :=
  λ t, if a * b <=? MAX_UINT256 then Ok (a * b, t) else Revert PanicOverflow.

Definition checked_sub {S} (a b : N) : M S N :=
  λ t, if b <=? a then Ok (a - b, t) else Revert PanicOverflow.

(** [payable(to).transfer(amt)] *)
Definition transfer {S} (ctx : Ctx) (to : address) (amt : N) : M S unit :=
  λ t, if (amt <=? bal t) && can_receive ctx to
       then Ok ((), {| st := st t; bal := bal t - amt;
                       out := out t ++ [(to, amt)]; evs := evs t |})
       else Revert TransferFailed.

(** The loop shared by [acceptWager] and [resolveWager]: scan the array from
    index 0 and stop at the first match. *)
Fixpoint isParticipant (who : address) (ps : list address) : bool :=
  match ps with
  | [] => false
  | p :: rest => if p =? who then true else isParticipant who rest
  end.

(** The refund loop of [cancelWager]: one transfer per entry, in order. *)
Fixpoint refund {S} (ctx : Ctx) (ps : list address) (amt : N) : M S unit :=
  match ps with
  | [] => mret ()
  | p :: rest => transfer ctx p amt ;; refund ctx rest amt
  end.

(** ** Transactions *)

Inductive Call :=
  | CreateWager (participants : list address) (amount : N) (condition : string)
      (charityEnabled : bool) (charityPercentage : N) (charityAddress : address)
  | AcceptWager (wagerId : N)
  | ResolveWager (wagerId : N) (winner : address) (evidence : string)
  | CancelWager (wagerId : N).

(** The contract between transactions. *)
Record Chain (S : Type) := {
  store : S;
  balance : N
}.
Arguments store {S} c.
Arguments balance {S} c.

Inductive Receipt :=
  | Success (ret : option N) (transfers : list (address * N)) (events : list Event)
  | Reverted (e : Error).

(** Run a function body as one transaction: the attached value is credited
    first; on [Revert] nothing of the working copy survives. *)
Definition transact {S} (body : M S (option N)) (ctx : Ctx) (c : Chain S)
  : Chain S * Receipt :=
  match body {| st := store c; bal := balance c + msg_value ctx; out := []; evs := [] |} with
  | Ok (r, t) => ({| store := st t; balance := bal t |}, Success r (out t) (evs t))
  | Revert e => (c, Reverted e)
  end.

Definition succeeded (r : Receipt) : bool :=
  match r with Success _ _ _ => true | Reverted _ => false end.

Definition nonpayable {S} (ctx : Ctx) : M S unit :=
  require (msg_value ctx =? 0) NonPayable.

(** ** The baseline contract *)

Module WagerContract.

Record Wager := {
  id : N;
  participants : list address;
  amount : N;
  condition : string;
  status : N;  (* 0=pending, 1=active, 2=resolved, 3=cancelled *)
  winner : address;
  charityEnabled : bool;
  charityPercentage : N;
  charityAddress : address;
  charityDonated : N;
  createdAt : N;
  resolvedAt : N
}.

Record Storage := {
  wagers : gmap N Wager;
  nextWagerId : N;
  owner : address
}.

(** A mapping slot that was never written reads as the zero record. *)
Definition zero_wager : Wager :=
  {| id := 0; participants := []; amount := 0; condition := "";
     status := 0; winner := 0; charityEnabled := false;
     charityPercentage := 0; charityAddress := 0; charityDonated := 0;
     createdAt := 0; resolvedAt := 0 |}.

Definition wager_at (s : Storage) (wagerId : N) : Wager :=
  default zero_wager (wagers s !! wagerId).

Definition with_status (v : N) (w : Wager) : Wager :=
  {| id := id w; participants := participants w; amount := amount w;
     condition := condition w; status := v; winner := winner w;
     charityEnabled := charityEnabled w;
     charityPercentage := charityPercentage w;
     charityAddress := charityAddress w;
     charityDonated := charityDonated w; createdAt := createdAt w;
     resolvedAt := resolvedAt w |}.

Definition with_winner (v : address) (w : Wager) : Wager :=
  {| id := id w; participants := participants w; amount := amount w;
     condition := condition w; status := status w; winner := v;
     charityEnabled := charityEnabled w;
     charityPercentage := charityPercentage w;
     charityAddress := charityAddress w;
     charityDonated := charityDonated w; createdAt := createdAt w;
     resolvedAt := resolvedAt w |}.

Definition with_resolvedAt (v : N) (w : Wager) : Wager :=
  {| id := id w; participants := participants w; amount := amount w;
     condition := condition w; status := status w; winner := winner w;
     charityEnabled := charityEnabled w;
     charityPercentage := charityPercentage w;
     charityAddress := charityAddress w;
     charityDonated := charityDonated w; createdAt := createdAt w;
     resolvedAt := v |}.

Definition with_charityDonated (v : N) (w : Wager) : Wager :=
  {| id := id w; participants := participants w; amount := amount w;
     condition := condition w; status := status w; winner := winner w;
     charityEnabled := charityEnabled w;
     charityPercentage := charityPercentage w;
     charityAddress := charityAddress w;
     charityDonated := v; createdAt := createdAt w;
     resolvedAt := resolvedAt w |}.

(** Storage with slot [k] replaced by [w]. *)
Definition set_wager (s : Storage) (k : N) (w : Wager) : Storage :=
  {| wagers := <[k := w]> (wagers s); nextWagerId := nextWagerId s;
     owner := owner s |}.

(** A write through the storage pointer [Wager storage wager = wagers[k]]. *)
Definition update (k : N) (f : Wager → Wager) : M Storage unit :=
  s ← load; store_ (set_wager s k (f (wager_at s k))).

(** A read through the storage pointer. *)
Definition read (k : N) : M Storage Wager :=
  s ← load; mret (wager_at s k).

Definition constructor (deployer : address) : Storage :=
  {| wagers := ∅; nextWagerId := 1; owner := deployer |}.

(** [createWager], lines 31-61: three guards, then [nextWagerId++] and the
    write of the fresh record. *)
Definition createWager (ctx : Ctx) (participants : list address) (amount : N)
    (condition : string) (charityEnabled : bool) (charityPercentage : N)
    (charityAddress : address) : M Storage N :=
  require (amount <=? msg_value ctx) InsufficientPayment ;;
  require (2 <=? N.of_nat (length participants)) NeedAtLeast2Participants ;;
  require (charityPercentage <=? 100) CharityPercentageTooHigh ;;
  s ← load;
  let wagerId := nextWagerId s in
  next ← checked_add wagerId 1;
  store_ {| wagers :=
              <[wagerId := {| id := wagerId; participants := participants;
                             amount := amount; condition := condition;
                             status := 0; winner := 0;
                             charityEnabled := charityEnabled;
                             charityPercentage := charityPercentage;
                             charityAddress := charityAddress;
                             charityDonated := 0;
                             createdAt := block_timestamp ctx;
                             resolvedAt := 0 |}]> (wagers s);
            nextWagerId := next; owner := owner s |} ;;
  emit (WagerCreated wagerId (msg_sender ctx) amount) ;;
  mret wagerId.

(** [acceptWager], lines 63-79. *)
Definition acceptWager (ctx : Ctx) (wagerId : N) : M Storage unit :=
  wager ← read wagerId;
  require (status wager =? 0) WagerNotPending ;;
  require (amount wager <=? msg_value ctx) InsufficientPayment ;;
  require (isParticipant (msg_sender ctx) (participants wager)) NotAParticipant ;;
  update wagerId (with_status 1).

(** [resolveWager], lines 81-118: the status, winner and time are written
    before the transfers. *)
Definition resolveWager (ctx : Ctx) (wagerId : N) (winner : address)
    (evidence : string) : M Storage unit :=
  nonpayable ctx ;;
  wager ← read wagerId;
  require (status wager =? 1) WagerNotActive ;;
  require (0 <? N.of_nat (length (participants wager))) InvalidWager ;;
  require (isParticipant winner (participants wager)) WinnerMustBeParticipant ;;
  update wagerId (with_status 2) ;;
  update wagerId (with_winner winner) ;;
  update wagerId (with_resolvedAt (block_timestamp ctx)) ;;
  wager ← read wagerId;
  totalAmount ← checked_mul (amount wager) (N.of_nat (length (participants wager)));
  charityAmount ←
    (if charityEnabled wager && (0 <? charityPercentage wager)
        && negb (charityAddress wager =? 0)
     then
       product ← checked_mul totalAmount (charityPercentage wager);
       let charityAmount := product `div` 100 in
       transfer ctx (charityAddress wager) charityAmount ;;
       update wagerId (with_charityDonated charityAmount) ;;
       mret charityAmount
     else mret 0);
  winnerAmount ← checked_sub totalAmount charityAmount;
  transfer ctx winner winnerAmount ;;
  emit (WagerResolved wagerId winner).

(** [getWager], lines 120-122. *)
Definition getWager (s : Storage) (wagerId : N) : Wager := wager_at s wagerId.

(** [cancelWager], lines 124-135. [||] decides [msg.sender == owner] first and
    reads [participants[0]] only when that is false. *)
Definition cancelWager (ctx : Ctx) (wagerId : N) : M Storage unit :=
  nonpayable ctx ;;
  wager ← read wagerId;
  require ((status wager =? 0) || (status wager =? 1)) CannotCancel ;;
  s ← load;
  authorized ←
    (if msg_sender ctx =? owner s
     then mret true
     else match participants wager with
          | [] => revert PanicIndexOutOfBounds
          | p0 :: _ => mret (msg_sender ctx =? p0)
          end);
  require authorized NotAuthorized ;;
  update wagerId (with_status 3) ;;
  wager ← read wagerId;
  refund ctx (participants wager) (amount wager).

(** The external interface: one transaction per call. *)
Definition dispatch (ctx : Ctx) (c : Call) : M Storage (option N) :=
  match c with
  | CreateWager ps a cond ce cp ca =>
      wagerId ← createWager ctx ps a cond ce cp ca; mret (Some wagerId)
  | AcceptWager k => acceptWager ctx k ;; mret None
  | ResolveWager k w ev => resolveWager ctx k w ev ;; mret None
  | CancelWager k => cancelWager ctx k ;; mret None
  end.

Definition call (ctx : Ctx) (c : Call) (s : Chain Storage) : Chain Storage * Receipt :=
  transact (dispatch ctx c) ctx s.

(** Deployment by [deployer]; [funds] is whatever balance the address holds
    at that moment. *)
Definition deploy (deployer : address) (funds : N) : Chain Storage :=
  {| store := constructor deployer; balance := funds |}.

Fixpoint run (s : Chain Storage) (calls : list (Ctx * Call))
  : Chain Storage * list Receipt :=
  match calls with
  | [] => (s, [])
  | (ctx, c) :: rest =>
      let (s', r) := call ctx c s in
      let (s'', rs) := run s' rest in
      (s'', r :: rs)
  end.

Inductive reachable : Chain Storage → Prop :=
  | reach_deploy deployer funds : reachable (deploy deployer funds)
  | reach_call ctx c s : reachable s → reachable (call ctx c s).1.

End WagerContract.

(** ** The gas-optimized contract *)

Module WagerContractGasOptimized.

(** The packed struct. It has no [participants], [condition],
    [charityDonated] or [resolvedAt] member: those live in mappings of their
    own. *)
Record Wager := {
  amount : N;            (* uint128 *)
  createdAt : N;         (* uint64 *)
  id : N;                (* uint32 *)
  status : N;            (* 0=pending, 1=active, 2=resolved, 3=cancelled *)
  charityPercentage : N;
  charityEnabled : bool;
  winner : address;
  charityAddress : address
}.

Record Storage := {
  wagerParticipants : gmap N (list address);
  wagerConditions : gmap N string;
  wagers : gmap N Wager;
  charityDonated : gmap N N;
  resolvedAt : gmap N N;
  nextWagerId : N;
  owner : address
}.

Definition zero_wager : Wager :=
  {| amount := 0; createdAt := 0; id := 0; status := 0;
     charityPercentage := 0; charityEnabled := false; winner := 0;
     charityAddress := 0 |}.

Definition wager_at (s : Storage) (wagerId : N) : Wager :=
  default zero_wager (wagers s !! wagerId).

Definition participants_at (s : Storage) (wagerId : N) : list address :=
  default [] (wagerParticipants s !! wagerId).

Definition condition_at (s : Storage) (wagerId : N) : string :=
  default "" (wagerConditions s !! wagerId).

Definition charityDonated_at (s : Storage) (wagerId : N) : N :=
  default 0 (charityDonated s !! wagerId).

Definition resolvedAt_at (s : Storage) (wagerId : N) : N :=
  default 0 (resolvedAt s !! wagerId).

Definition with_status (v : N) (w : Wager) : Wager :=
  {| amount := amount w; createdAt := createdAt w; id := id w; status := v;
     charityPercentage := charityPercentage w;
     charityEnabled := charityEnabled w; winner := winner w;
     charityAddress := charityAddress w |}.

Definition with_winner (v : address) (w : Wager) : Wager :=
  {| amount := amount w; createdAt := createdAt w; id := id w;
     status := status w; charityPercentage := charityPercentage w;
     charityEnabled := charityEnabled w; winner := v;
     charityAddress := charityAddress w |}.

Definition read (k : N) : M Storage Wager :=
  s ← load; mret (wager_at s k).

Definition set_wager (s : Storage) (k : N) (w : Wager) : Storage :=
  {| wagerParticipants := wagerParticipants s;
     wagerConditions := wagerConditions s;
     wagers := <[k := w]> (wagers s);
     charityDonated := charityDonated s; resolvedAt := resolvedAt s;
     nextWagerId := nextWagerId s; owner := owner s |}.

Definition set_resolvedAt (s : Storage) (k : N) (v : N) : Storage :=
  {| wagerParticipants := wagerParticipants s;
     wagerConditions := wagerConditions s; wagers := wagers s;
     charityDonated := charityDonated s;
     resolvedAt := <[k := v]> (resolvedAt s);
     nextWagerId := nextWagerId s; owner := owner s |}.

Definition set_charityDonated (s : Storage) (k : N) (v : N) : Storage :=
  {| wagerParticipants := wagerParticipants s;
     wagerConditions := wagerConditions s; wagers := wagers s;
     charityDonated := <[k := v]> (charityDonated s);
     resolvedAt := resolvedAt s;
     nextWagerId := nextWagerId s; owner := owner s |}.

(** A write through the storage pointer [Wager storage wager = wagers[k]]. *)
Definition update (k : N) (f : Wager → Wager) : M Storage unit :=
  s ← load; store_ (set_wager s k (f (wager_at s k))).

Definition constructor (deployer : address) : Storage :=
  {| wagerParticipants := ∅; wagerConditions := ∅; wagers := ∅;
     charityDonated := ∅; resolvedAt := ∅; nextWagerId := 1;
     owner := deployer |}.

(** The values a struct literal gives to its members. *)
Inductive Value :=
  | VWord (n : N)                  (* an unsigned integer or an address *)
  | VBool (b : bool)
  | VAddresses (l : list address)
  | VString (s : string).

Definition as_word (v : Value) : N :=
  match v with VWord n => n | _ => 0 end.

Definition as_bool (v : Value) : bool :=
  match v with VBool b => b | _ => false end.

(** The members the struct declares, lines 163-172. *)
Definition Wager_members : list string :=
  ["amount"; "createdAt"; "id"; "status"; "charityPercentage";
   "charityEnabled"; "winner"; "charityAddress"].

Definition member (fields : list (string * Value)) (name : string) : Value :=
  match List.find (λ f, String.eqb f.1 name) fields with
  | Some f => f.2
  | None => VWord 0
  end.

(** A struct literal with named members, [Wager({name: value, ...})]. The
    compiler accepts it when it gives as many values as the struct has
    members and every name is a declared member; anything else is a type
    error. *)
Definition Wager_literal (fields : list (string * Value)) : option Wager :=
  if (length fields =? length Wager_members)%nat
     && forallb (λ f, existsb (String.eqb f.1) Wager_members) fields
  then Some {| amount := as_word (member fields "amount");
               createdAt := as_word (member fields "createdAt");
               id := as_word (member fields "id");
               status := as_word (member fields "status");
               charityPercentage := as_word (member fields "charityPercentage");
               charityEnabled := as_bool (member fields "charityEnabled");
               winner := as_word (member fields "winner");
               charityAddress := as_word (member fields "charityAddress") |}
  else None.

(** The literal of lines 205-217, as written: eleven names, in the order of
    the source. *)
Definition createWager_literal (ctx : Ctx) (wagerId : N)
    (participants : list address) (amount : N) (condition : string)
    (charityEnabled : bool) (charityPercentage : N) (charityAddress : address)
  : list (string * Value) :=
  [("id", VWord (wagerId `mod` 2 ^ 32));
   ("participants", VAddresses participants);
   ("amount", VWord amount);
   ("condition", VString condition);
   ("status", VWord 0);
   ("winner", VWord 0);
   ("charityEnabled", VBool charityEnabled);
   ("charityPercentage", VWord charityPercentage);
   ("charityAddress", VWord charityAddress);
   ("createdAt", VWord (block_timestamp ctx `mod` 2 ^ 64));
   ("resolvedAt", VWord 0)].

(** [createWager], lines 191-225, as written. The first guard is the ABI
    decoder's: an [amount] that does not fit a [uint128] never reaches the
    body. The record stored is the one the struct literal denotes. A
    function the compiler refuses has no code: a call to it is a call that
    fails, here with [IllTyped]. *)
Definition createWager (ctx : Ctx) (participants : list address) (amount : N)
    (condition : string) (charityEnabled : bool) (charityPercentage : N)
    (charityAddress : address) : M Storage N :=
  require (amount <? 2 ^ 128) BadCalldata ;;
  (if msg_value ctx <? amount then revert InsufficientPayment else mret ()) ;;
  (if N.of_nat (length participants) <? 2
   then revert NeedAtLeast2Participants else mret ()) ;;
  (if 100 <? charityPercentage then revert CharityPercentageTooHigh else mret ()) ;;
  s ← load;
  let wagerId := nextWagerId s in
  next ← checked_add wagerId 1;
  match Wager_literal
          (createWager_literal ctx wagerId participants amount condition
             charityEnabled charityPercentage charityAddress) with
  | None => revert IllTyped
  | Some wager =>
      store_ {| wagerParticipants := <[wagerId := participants]> (wagerParticipants s);
                wagerConditions := <[wagerId := condition]> (wagerConditions s);
                wagers := <[wagerId := wager]> (wagers s);
                charityDonated := charityDonated s; resolvedAt := resolvedAt s;
                nextWagerId := next; owner := owner s |} ;;
      emit (WagerCreated wagerId (msg_sender ctx) amount) ;;
      mret wagerId
  end.

(** [acceptWager], lines 227-246. *)
Definition acceptWager (ctx : Ctx) (wagerId : N) : M Storage unit :=
  wager ← read wagerId;
  (if negb (status wager =? 0) then revert WagerNotPending else mret ()) ;;
  (if msg_value ctx <? amount wager then revert InsufficientPayment else mret ()) ;;
  s ← load;
  let participants := participants_at s wagerId in
  (if negb (isParticipant (msg_sender ctx) participants)
   then revert NotAParticipant else mret ()) ;;
  update wagerId (with_status 1).

(** [resolveWager], lines 248-288. *)
Definition resolveWager (ctx : Ctx) (wagerId : N) (winner : address) : M Storage unit :=
  nonpayable ctx ;;
  wager ← read wagerId;
  (if negb (status wager =? 1) then revert WagerNotActive else mret ()) ;;
  s ← load;
  let participants := participants_at s wagerId in
  let length_ := N.of_nat (length participants) in
  (if length_ =? 0 then revert WagerNotActive else mret ()) ;;
  (if negb (isParticipant winner participants)
   then revert WinnerMustBeParticipant else mret ()) ;;
  update wagerId (with_status 2) ;;
  update wagerId (with_winner winner) ;;
  s ← load;
  store_ (set_resolvedAt s wagerId (block_timestamp ctx `mod` 2 ^ 64)) ;;
  wager ← read wagerId;
  totalAmount ← checked_mul (amount wager) length_;
  charityAmount ←
    (if charityEnabled wager && (0 <? charityPercentage wager)
        && negb (charityAddress wager =? 0)
     then
       product ← checked_mul totalAmount (charityPercentage wager);
       let charityAmount := product `div` 100 in
       transfer ctx (charityAddress wager) charityAmount ;;
       s ← load;
       store_ (set_charityDonated s wagerId charityAmount) ;;
       mret charityAmount
     else mret 0);
  winnerAmount ← checked_sub totalAmount charityAmount;
  transfer ctx winner winnerAmount ;;
  emit (WagerResolved wagerId winner).

(** [getWager], lines 290-298: the packed struct, the participants and the
    condition. *)
Definition getWager (s : Storage) (wagerId : N) : Wager * list address * string :=
  (wager_at s wagerId, participants_at s wagerId, condition_at s wagerId).

(** [cancelWager], lines 300-317. *)
Definition cancelWager (ctx : Ctx) (wagerId : N) : M Storage unit :=
  nonpayable ctx ;;
  wager ← read wagerId;
  (if 1 <? status wager then revert CannotCancel else mret ()) ;;
  s ← load;
  let participants := participants_at s wagerId in
  isAuthorized ←
    (if msg_sender ctx =? owner s
     then mret true
     else match participants with
          | [] => revert PanicIndexOutOfBounds
          | p0 :: _ => mret (msg_sender ctx =? p0)
          end);
  (if negb isAuthorized then revert NotAuthorized else mret ()) ;;
  update wagerId (with_status 3) ;;
  wager ← read wagerId;
  let refundAmount := amount wager in
  refund ctx participants refundAmount.

(** The optimized [resolveWager] takes no [evidence] argument. *)
Definition dispatch (ctx : Ctx) (c : Call) : M Storage (option N) :=
  match c with
  | CreateWager ps a cond ce cp ca =>
      wagerId ← createWager ctx ps a cond ce cp ca; mret (Some wagerId)
  | AcceptWager k => acceptWager ctx k ;; mret None
  | ResolveWager k w _ => resolveWager ctx k w ;; mret None
  | CancelWager k => cancelWager ctx k ;; mret None
  end.

Definition call (ctx : Ctx) (c : Call) (s : Chain Storage) : Chain Storage * Receipt :=
  transact (dispatch ctx c) ctx s.

Definition deploy (deployer : address) (funds : N) : Chain Storage :=
  {| store := constructor deployer; balance := funds |}.

Fixpoint run (s : Chain Storage) (calls : list (Ctx * Call))
  : Chain Storage * list Receipt :=
  match calls with
  | [] => (s, [])
  | (ctx, c) :: rest =>
      let (s', r) := call ctx c s in
      let (s'', rs) := run s' rest in
      (s'', r :: rs)
  end.

End WagerContractGasOptimized.

(** ** Vocabulary of the specification *)

Module B := WagerContract.
Module O := WagerContractGasOptimized.

Definition Pending : N := 0.
Definition Active : N := 1.
Definition Resolved : N := 2.
Definition Cancelled : N := 3.

(** A wager exists once [createWager] has handed out its id. *)
Definition created (s : B.Storage) (k : N) : Prop :=
  1 ≤ k ∧ k < B.nextWagerId s.

(** The payout of a resolution, in the words of the specification. *)
Definition totalPool (w : B.Wager) : N :=
  B.amount w * N.of_nat (length (B.participants w)).

Definition charityDue (w : B.Wager) : bool :=
  B.charityEnabled w && (0 <? B.charityPercentage w)
  && negb (B.charityAddress w =? 0).

Definition charityAmount (w : B.Wager) : N :=
  if charityDue w then (totalPool w * B.charityPercentage w) `div` 100 else 0.

Definition winnerAmount (w : B.Wager) : N := totalPool w - charityAmount w.

Definition payout (w : B.Wager) (winner : address) : list (address * N) :=
  (if charityDue w then [(B.charityAddress w, charityAmount w)] else [])
  ++ [(winner, winnerAmount w)].

(** The refunds of a cancellation: the flat stake to every entry, in order. *)
Definition refunds (ps : list address) (amt : N) : list (address * N) :=
  (λ p, (p, amt)) <$> ps.

(** The record a resolution leaves behind, up to [charityDonated]. *)
Definition resolved_by (ctx : Ctx) (winner : address) (w : B.Wager) : B.Wager :=
  B.with_resolvedAt (block_timestamp ctx) (B.with_winner winner (B.with_status 2 w)).

(** The edges of the status diagram, labelled by the call that takes them. *)
Inductive edge (k : N) : Call → N → N → Prop :=
  | edge_accept : edge k (AcceptWager k) Pending Active
  | edge_resolve winner evidence :
      edge k (ResolveWager k winner evidence) Active Resolved
  | edge_cancel_pending : edge k (CancelWager k) Pending Cancelled
  | edge_cancel_active : edge k (CancelWager k) Active Cancelled.

(** Invariant of the baseline storage. *)
Record wager_ok (w : B.Wager) : Prop := {
  ok_participants : (2 ≤ length (B.participants w))%nat;
  ok_percentage : B.charityPercentage w ≤ 100;
  ok_status : B.status w ≤ 3;
  ok_winner : B.status w = Resolved → B.winner w ∈ B.participants w;
  ok_donated : B.status w ≠ Resolved → B.charityDonated w = 0
}.

(** A slot no [createWager] has written yet: all zero, except that the owner
    may already have cancelled it. *)
Definition blank (w : B.Wager) : Prop :=
  w = B.zero_wager ∨ w = B.with_status 3 B.zero_wager.

Record invariant (s : B.Storage) : Prop := {
  inv_counter : 1 ≤ B.nextWagerId s;
  inv_created : ∀ k, created s k →
    wager_ok (B.wager_at s k) ∧ B.id (B.wager_at s k) = k;
  inv_blank : ∀ k, ¬ created s k → blank (B.wager_at s k)
}.

(** Ids handed out by the successful [createWager] calls of a run. *)
Fixpoint assigned_ids (rs : list Receipt) : list N :=
  match rs with
  | [] => []
  | Success (Some k) _ _ :: rest => k :: assigned_ids rest
  | _ :: rest => assigned_ids rest
  end.

(** What a caller can tell from a receipt when the kind of error is ignored
    (the baseline reverts with strings, the optimized variant with custom
    errors). *)
Definition outcome (r : Receipt)
  : option (option N * list (address * N) * list Event) :=
  match r with
  | Success ret transfers events => Some (ret, transfers, events)
  | Reverted _ => None
  end.

(** The baseline record cut down to the packed struct, and to what the
    optimized [getWager] returns. *)
Definition pack (w : B.Wager) : O.Wager :=
  {| O.amount := B.amount w; O.createdAt := B.createdAt w; O.id := B.id w;
     O.status := B.status w; O.charityPercentage := B.charityPercentage w;
     O.charityEnabled := B.charityEnabled w; O.winner := B.winner w;
     O.charityAddress := B.charityAddress w |}.

Definition packed (w : B.Wager) : O.Wager * list address * string :=
  (pack w, B.participants w, B.condition w).

(** What the two variants are compared on, call by call: whether the call
    was accepted, and the value transfers it made. *)
Definition verdict (r : Receipt) : option (list (address * N)) :=
  match r with
  | Success _ transfers _ => Some transfers
  | Reverted _ => None
  end.

(** The calls on a wager once it is there; a resolution at a block time
    that fits the [uint64] of the optimized variant. *)
Definition later_call (cc : Ctx * Call) : Prop :=
  match cc.2 with
  | CreateWager _ _ _ _ _ _ => False
  | ResolveWager _ _ _ => block_timestamp cc.1 < 2 ^ 64
  | _ => True
  end.

(** The two storages hold the same wagers. *)
Record same_wagers (b : B.Storage) (o : O.Storage) : Prop := {
  same_counter : O.nextWagerId o = B.nextWagerId b;
  same_owner : O.owner o = B.owner b;
  same_packed : ∀ k, O.getWager o k = packed (B.getWager b k);
  same_donated : ∀ k, O.charityDonated_at o k = B.charityDonated (B.getWager b k);
  same_resolvedAt : ∀ k, O.resolvedAt_at o k = B.resolvedAt (B.getWager b k)
}.

(** The two contracts in the same state: same wagers, same balance. *)
Definition same_chain (b : Chain B.Storage) (o : Chain O.Storage) : Prop :=
  same_wagers (store b) (store o) ∧ balance o = balance b.

Definition with_st {S} (t : Tx S) (s : S) : Tx S :=
  {| st := s; bal := bal t; out := out t; evs := evs t |}.

(** The record [createWager] writes, and the storage after it. *)
Definition new_wager (ctx : Ctx) (k : N) (ps : list address) (a : N)
    (cond : string) (ce : bool) (cp : N) (ca : address) : B.Wager :=
  {| B.id := k; B.participants := ps; B.amount := a; B.condition := cond;
     B.status := 0; B.winner := 0; B.charityEnabled := ce;
     B.charityPercentage := cp; B.charityAddress := ca;
     B.charityDonated := 0; B.createdAt := block_timestamp ctx;
     B.resolvedAt := 0 |}.

Definition add_wager (s : B.Storage) (w : B.Wager) : B.Storage :=
  {| B.wagers := <[B.nextWagerId s := w]> (B.wagers s);
     B.nextWagerId := B.nextWagerId s + 1; B.owner := B.owner s |}.

(** The record a resolution writes, with [charityDonated]. *)
Definition resolved_wager (ctx : Ctx) (winner : address) (w : B.Wager) : B.Wager :=
  if charityDue w
  then B.with_charityDonated (charityAmount w) (resolved_by ctx winner w)
  else resolved_by ctx winner w.

(** The storage of the optimized variant that holds the wagers of a
    baseline storage: the packed records, with participants, conditions,
    donations and resolution times in their mappings. *)
Definition packed_storage (b : B.Storage) : O.Storage :=
  {| O.wagerParticipants := B.participants <$> B.wagers b;
     O.wagerConditions := B.condition <$> B.wagers b;
     O.wagers := pack <$> B.wagers b;
     O.charityDonated := B.charityDonated <$> B.wagers b;
     O.resolvedAt := B.resolvedAt <$> B.wagers b;
     O.nextWagerId := B.nextWagerId b; O.owner := B.owner b |}.

Definition packed_chain (b : Chain B.Storage) : Chain O.Storage :=
  {| store := packed_storage (store b); balance := balance b |}.

(** The storage of the optimized variant after [resolveWager]. *)
Definition O_resolved (ctx : Ctx) (k : N) (winner : address) (s : O.Storage)
    (donated : option N) : O.Storage :=
  let s1 :=
    O.set_resolvedAt
      (O.set_wager s k (O.with_winner winner (O.with_status 2 (O.wager_at s k))))
      k (block_timestamp ctx `mod` 2 ^ 64) in
  match donated with
  | Some d => O.set_charityDonated s1 k d
  | None => s1
  end.

(** The ids [a], [a+1], ..., [a+n-1]. *)
Fixpoint count_from (a : N) (n : nat) : list N :=
  match n with
  | 0%nat => []
  | S n' => a :: count_from (a + 1) n'
  end.

(** ** Scenarios *)

Definition alice : address := 10.
Definition bob : address := 11.
Definition carol : address := 12.
Definition dave : address := 13.
Definition admin : address := 99.

Definition tx (who : address) (value time : N) : Ctx :=
  {| msg_sender := who; msg_value := value; block_timestamp := time;
     can_receive := λ _, true |}.

(** Alice and Bob stake 100 each, 10% goes to Carol's charity. *)
Definition charity_wager : list (Ctx * Call) :=
  [(tx alice 100 5, CreateWager [alice; bob] 100 "rain" true 10 carol);
   (tx bob 100 6, AcceptWager 1)].

Definition pending_state : Chain B.Storage :=
  (B.run (B.deploy admin 0) [(tx alice 100 5, CreateWager [alice; bob] 100 "rain" true 10 carol)]).1.

Definition active_state : Chain B.Storage :=
  (B.run (B.deploy admin 0) charity_wager).1.

Definition resolved_state : Chain B.Storage :=
  (B.run (B.deploy admin 0)
     (charity_wager ++ [(tx alice 0 7, ResolveWager 1 alice "forecast")])).1.

(** A three-way wager of 50 of which only Alice has staked, next to a
    second wager that brings the balance to 150. *)
Definition three_way : list (Ctx * Call) :=
  [(tx alice 50 5, CreateWager [alice; bob; dave] 50 "snow" false 0 0);
   (tx bob 100 6, CreateWager [bob; carol] 100 "hail" false 0 0)].

Definition three_way_state : Chain B.Storage :=
  (B.run (B.deploy admin 0) three_way).1.

(** The same wagers, held by the optimized variant. *)
Definition three_way_state_packed : Chain O.Storage :=
  packed_chain three_way_state.

(** ** Callers of the contract

    The off-chain code that calls the baseline contract through ethers.js.
    A JS [bigint] is a [Z], a [uint256] read from the chain an [N]; an
    address string is the address it denotes; [Number(x)] of a [uint8] is
    exact.  Network access, gas estimation and the rendering of amounts as
    decimal strings ([toFixed], [formatEther]) are left out: what is
    modelled is the integer and string logic around them. *)

(** [msg.sender] replaced, the rest of the environment kept. *)
Definition with_sender (who : address) (ctx : Ctx) : Ctx :=
  {| msg_sender := who; msg_value := msg_value ctx;
     block_timestamp := block_timestamp ctx; can_receive := can_receive ctx |}.

(** The reason strings of the baseline's [require] statements
    (part_000, lines 39-41, 65-66, 76, 87-88, 98, 126-127); the other
    failures carry no reason string. *)
Definition reason (e : Error) : option string :=
  match e with
  | InsufficientPayment => Some "Insufficient payment"
  | NeedAtLeast2Participants => Some "Need at least 2 participants"
  | CharityPercentageTooHigh => Some "Charity percentage too high"
  | WagerNotPending => Some "Wager not pending"
  | NotAParticipant => Some "Not a participant"
  | WagerNotActive => Some "Wager not active"
  | InvalidWager => Some "Invalid wager"
  | WinnerMustBeParticipant => Some "Winner must be a participant"
  | CannotCancel => Some "Cannot cancel"
  | NotAuthorized => Some "Not authorized"
  | _ => None
  end.

Module ContractService.

(** [CreateWagerParams], contract.ts lines 26-33; [amount] is the amount
    after [parseBNB], in wei; an optional field left out is [None]. *)
Record CreateWagerParams := {
  participants : list address;
  amount : N;
  condition : string;
  charityEnabled : option bool;
  charityPercentage : option N;
  charityAddress : option address
}.

Inductive ValidationError :=
  | TooFewParticipants      (* 'Need at least 2 participants' *)
  | PercentageAbove100.     (* 'Charity percentage cannot exceed 100%' *)

(** [createWager], lines 133-139: the checks made before anything is sent.
    [x && x > 100] is false for a percentage that is left out or 0. *)
Definition validate (params : CreateWagerParams) : option ValidationError :=
  if N.of_nat (length (participants params)) <? 2 then Some TooFewParticipants
  else if match charityPercentage params with
          | Some p => negb (p =? 0) && (100 <? p)
          | None => false
          end
       then Some PercentageAbove100
       else None.

(** [createWager], lines 203-212: the call that is sent, with [x || d] for
    the optional fields, and the value attached to it. *)
Definition createWager_call (params : CreateWagerParams) : Call :=
  CreateWager (participants params) (amount params) (condition params)
    (default false (charityEnabled params))
    (default 0 (charityPercentage params))
    (default 0 (charityAddress params)).

Definition createWager_value (params : CreateWagerParams) : N := amount params.

(** [getTotalWagers], lines 420-425. *)
Definition getTotalWagers : N := 0.

(** [createWager], lines 217-246: the id is the first argument of the first
    [WagerCreated] log, and [getTotalWagers()] when there is none or it
    is 0. *)
Definition wagerIdFromLogs (logs : list Event) : N :=
  let wagerId :=
    match List.find (λ log, match log with
                            | WagerCreated _ _ _ => true
                            | _ => false
                            end) logs with
    | Some (WagerCreated wagerId _ _) => wagerId
    | _ => 0
    end in
  if wagerId =? 0 then getTotalWagers else wagerId.

(** [acceptWager], lines 285-291: the value attached is the amount that
    [getWager] reports. *)
Definition acceptWager_ctx (s : Chain B.Storage) (wagerId : N) (ctx : Ctx) : Ctx :=
  {| msg_sender := msg_sender ctx;
     msg_value := B.amount (B.getWager (store s) wagerId);
     block_timestamp := block_timestamp ctx; can_receive := can_receive ctx |}.

End ContractService.

Module CharityVerificationService.

Inductive VerificationError :=
  | InvalidPercentage (percentage : N)
  | AddressNotSet
  | DonationMismatch (expectedDonationWei actualDonationWei : Z).

(** [CharityVerification] with the wei amounts the source renders into its
    string fields; [errors] is the list that is [undefined] when empty. *)
Record CharityVerification := {
  isValid : bool;
  expectedDonationWei : Z;
  actualDonationWei : Z;
  percentage : N;
  charityAddress : address;
  totalWinnings : Z;
  winnerAmountWei : Z;
  errors : list VerificationError
}.

Definition tolerance : Z := 10 ^ 15.

(** [verifyCharityDonation], lines 95-163 of the second document of
    lib/utils/walletConflictFix.ts. [bigint] division truncates toward
    zero. *)
Definition verifyCharityDonation (wager : B.Wager) (totalWinnings : Z)
  : CharityVerification :=
  if negb (B.charityEnabled wager) then
    {| isValid := true; expectedDonationWei := 0; actualDonationWei := 0;
       percentage := 0; charityAddress := 0; totalWinnings := totalWinnings;
       winnerAmountWei := totalWinnings; errors := [] |}
  else
    let errors1 :=
      if (B.charityPercentage wager <? 0) || (50 <? B.charityPercentage wager)
      then [InvalidPercentage (B.charityPercentage wager)] else [] in
    let errors2 :=
      if B.charityAddress wager =? 0 then [AddressNotSet] else [] in
    let expectedDonationWei :=
      ((totalWinnings * Z.of_N (B.charityPercentage wager)) `quot` 100)%Z in
    let actualDonationWei := Z.of_N (B.charityDonated wager) in
    let donationDiff :=
      (if expectedDonationWei >? actualDonationWei
       then expectedDonationWei - actualDonationWei
       else actualDonationWei - expectedDonationWei)%Z in
    let errors3 :=
      if (donationDiff >? tolerance)%Z
      then [DonationMismatch expectedDonationWei actualDonationWei] else [] in
    let errors := errors1 ++ errors2 ++ errors3 in
    {| isValid := match errors with [] => true | _ => false end;
       expectedDonationWei := expectedDonationWei;
       actualDonationWei := actualDonationWei;
       percentage := B.charityPercentage wager;
       charityAddress := B.charityAddress wager;
       totalWinnings := totalWinnings;
       winnerAmountWei := (totalWinnings - actualDonationWei)%Z;
       errors := errors |}.

(** [verifyFromContract], lines 168-189, with the contract read in place of
    the network call. *)
Definition verifyFromContract (s : B.Storage) (wagerId : N) : CharityVerification :=
  let wager := B.getWager s wagerId in
  let totalWinnings :=
    (Z.of_N (B.amount wager) * Z.of_nat (length (B.participants wager)))%Z in
  verifyCharityDonation wager totalWinnings.

End CharityVerificationService.

Module Routes.

(** sync route, lines 22-29: [statusMap[status] || 'pending']. *)
Definition statusMap (status : N) : option string :=
  match status with
  | 0 => Some "pending"
  | 1 => Some "active"
  | 2 => Some "resolved"
  | 3 => Some "cancelled"
  | _ => None
  end.

Definition sync_status (wagerData : B.Wager) : string :=
  default "pending" (statusMap (B.status wagerData)).

(** accept route, line 40. *)
Definition accept_status (wagerData : B.Wager) : string :=
  if B.status wagerData =? 1 then "active" else "pending".

(** What the resolve route answers. *)
Inductive ResolveAnswer :=
  | FieldsRequired        (* 400 'Winner address and transaction hash are required' *)
  | MustBeParticipant     (* 400 'Winner must be a participant' *)
  | Stored (status : string) (winner : address).

(** A field of the request body is falsy when it is left out or empty. *)
Definition falsy_string (x : option string) : bool :=
  match x with
  | Some s => if String.eqb s "" then true else false
  | None => true
  end.

(** resolve route, part_006 lines 13-48. [winnerAddress] is [None] when the
    request leaves it out or empty. The first check is made before the
    contract is read; then the winner is looked for among the participants
    of the wager read from the contract (addresses compared without regard
    to case), and the record is stored with status 'resolved'. Neither the
    status read from the contract nor the transaction hash is looked at
    any further. *)
Definition resolve_record (s : B.Storage) (wagerId : N)
    (winnerAddress : option address) (txHash : option string) : ResolveAnswer :=
  match winnerAddress with
  | None => FieldsRequired
  | Some winnerAddress =>
      if falsy_string txHash then FieldsRequired
      else
        let wagerData := B.getWager s wagerId in
        if existsb (λ addr, addr =? winnerAddress) (B.participants wagerData)
        then Stored "resolved" winnerAddress
        else MustBeParticipant
  end.

End Routes.

Module ErrorHandler.

(** [String.prototype.includes]. *)
Fixpoint includes (s sub : string) : bool :=
  if String.prefix sub s then true
  else match s with
       | EmptyString => false
       | String _ rest => includes rest sub
       end.

Record AppError := {
  code : string;
  message : string;
  userMessage : string
}.

(** [parseContractError], errorHandler.ts lines 17-76, on the message and
    code it reads off the error object. *)
Definition parseContractError (errorMessage errorCode : string) : AppError :=
  if includes errorMessage "insufficient funds"
     || includes errorMessage "Insufficient payment" then
    {| code := "INSUFFICIENT_FUNDS"; message := errorMessage;
       userMessage := "You don't have enough BNB to complete this transaction. Please add more BNB to your wallet." |}
  else if includes errorMessage "user rejected"
          || includes errorMessage "User denied" then
    {| code := "USER_REJECTED"; message := errorMessage;
       userMessage := "Transaction was cancelled. Please try again when ready." |}
  else if includes errorMessage "Not a participant" then
    {| code := "NOT_PARTICIPANT"; message := errorMessage;
       userMessage := "You are not a participant in this wager." |}
  else if includes errorMessage "Wager not pending"
          || includes errorMessage "Wager not active" then
    {| code := "INVALID_STATUS"; message := errorMessage;
       userMessage := "This wager is not in the correct status for this action." |}
  else if includes errorMessage "network" || includes errorMessage "Network" then
    {| code := "NETWORK_ERROR"; message := errorMessage;
       userMessage := "Network error. Please check your connection and try again." |}
  else if includes errorMessage "gas" || includes errorMessage "Gas" then
    {| code := "GAS_ERROR"; message := errorMessage;
       userMessage := "Transaction failed due to gas issues. Please try again." |}
  else
    {| code := errorCode; message := errorMessage;
       userMessage := "An unexpected error occurred. Please try again or contact support." |}.

End ErrorHandler.

(** Short names for the callers. *)
Module CS := ContractService.
Module CV := CharityVerificationService.
Module EH := ErrorHandler.

(** ** Value sent

    The value a list of transfers sends out of the contract. *)
Definition total (l : list N) : N := foldr N.add 0 l.

Definition sent (transfers : list (address * N)) : N := total (snd <$> transfers).

(** Parameters with the optional charity fields left out. *)
Definition plain_params : CS.CreateWagerParams :=
  {| CS.participants := [alice; bob]; CS.amount := 100; CS.condition := "rain";
     CS.charityEnabled := None; CS.charityPercentage := None;
     CS.charityAddress := None |}.

(** ** The transaction monad *)

Section monad.
Context {S : Type}.
Implicit Types t : Tx S.

Lemma bind_Ok {A C} (m : M S A) (f : A → M S C) t r :
  (m ≫= f) t = Ok r ↔ ∃ a t', m t = Ok (a, t') ∧ f a t' = Ok r.
Proof.
  unfold mbind, M_bind. destruct (m t) as [[a t']|e]; split.
  - eauto.
  - by intros (? & ? & [= <- <-] & ?).
  - done.
  - by intros (? & ? & ? & ?).
Qed.

Lemma ret_Ok {A} (a : A) t r : (mret a : M S A) t = Ok r ↔ r = (a, t).
Proof. unfold mret, M_ret. split; [by intros [= <-] | by intros ->]. Qed.

Lemma require_Ok b e t r : require b e t = Ok r ↔ b = true ∧ r = ((), t).
Proof.
  unfold require. destruct b; split; try done.
  - by intros [= <-].
  - by intros [_ ->].
  - by intros [? _].
Qed.

Lemma load_Ok t r : load t = Ok r ↔ r = (st t, t).
Proof. unfold load. split; [by intros [= <-] | by intros ->]. Qed.

Lemma store_Ok s t r : store_ s t = Ok r ↔ r = ((), with_st t s).
Proof. unfold store_, with_st. split; [by intros [= <-] | by intros ->]. Qed.

Lemma emit_Ok e t r :
  emit e t = Ok r ↔
  r = ((), {| st := st t; bal := bal t; out := out t; evs := evs t ++ [e] |}).
Proof. unfold emit. split; [by intros [= <-] | by intros ->]. Qed.

Lemma checked_add_Ok a b t r :
  checked_add a b t = Ok r ↔ a + b ≤ MAX_UINT256 ∧ r = (a + b, t).
Proof.
  unfold checked_add. destruct (N.leb_spec (a + b) MAX_UINT256); split; try done.
  - by intros [= <-].
  - by intros [_ ->].
  - intros [? _]. lia.
Qed.

Lemma checked_mul_Ok a b t r :
  checked_mul a b t = Ok r ↔ a * b ≤ MAX_UINT256 ∧ r = (a * b, t).
Proof.
  unfold checked_mul. destruct (N.leb_spec (a * b) MAX_UINT256); split; try done.
  - by intros [= <-].
  - by intros [_ ->].
  - intros [? _]. lia.
Qed.

Lemma checked_sub_Ok a b t r :
  checked_sub a b t = Ok r ↔ b ≤ a ∧ r = (a - b, t).
Proof.
  unfold checked_sub. destruct (N.leb_spec b a); split; try done.
  - by intros [= <-].
  - by intros [_ ->].
  - intros [? _]. lia.
Qed.

Lemma transfer_Ok ctx to amt t r :
  transfer ctx to amt t = Ok r ↔
  amt ≤ bal t ∧ can_receive ctx to = true ∧
  r = ((), {| st := st t; bal := bal t - amt; out := out t ++ [(to, amt)];
              evs := evs t |}).
Proof.
  unfold transfer.
  destruct (N.leb_spec amt (bal t)), (can_receive ctx to); simpl; split;
    try done; try (by intros [= <-]); try (by intros (_ & _ & ->));
    try (by intros (_ & ? & _)); intros (? & _ & _); lia.
Qed.

(** The refund loop pays everyone or fails as a whole. *)
Lemma refund_Ok ctx ps amt t r :
  refund ctx ps amt t = Ok r ↔
  amt * N.of_nat (length ps) ≤ bal t ∧
  Forall (λ p, can_receive ctx p = true) ps ∧
  r = ((), {| st := st t; bal := bal t - amt * N.of_nat (length ps);
              out := out t ++ ((λ p, (p, amt)) <$> ps); evs := evs t |}).
Proof.
  revert t. induction ps as [|p ps IH]; intros t; simpl.
  - rewrite ret_Ok, N.mul_0_r, N.sub_0_r, app_nil_r. destruct t; simpl.
    split; [intros ->; split_and!; [lia|constructor|done] | by intros (_ & _ & ->)].
  - rewrite bind_Ok. split.
    + intros (a & t' & Ht & Hr). apply transfer_Ok in Ht as (Hb & Hc & [= -> ->]).
      apply IH in Hr as (Hb' & Hall & ->). simpl in *.
      split_and!; [lia | by constructor |].
      do 2 f_equal; [lia | by rewrite <- app_assoc].
    + intros (Hb & Hall & ->). inversion_clear Hall as [|?? Hc Hall'].
      eexists _, _. split; [apply transfer_Ok; split_and!; [lia|done|done] |].
      apply IH. simpl. split_and!; [lia | done |].
      do 2 f_equal; [lia | by rewrite <- app_assoc].
Qed.

End monad.

(** ** Reading the monadic code *)

Arguments MAX_UINT256 : simpl never.
Arguments B.set_wager : simpl never.
Arguments B.wager_at : simpl never.

Lemma wager_at_set_eq s k w : B.wager_at (B.set_wager s k w) k = w.
Proof. unfold B.wager_at, B.set_wager; simpl. by rewrite lookup_insert_eq. Qed.

Lemma wager_at_set_ne s k j w :
  k ≠ j → B.wager_at (B.set_wager s k w) j = B.wager_at s j.
Proof. intros. unfold B.wager_at, B.set_wager; simpl. by rewrite lookup_insert_ne. Qed.

Lemma set_wager_twice s k w w' :
  B.set_wager (B.set_wager s k w) k w' = B.set_wager s k w'.
Proof. unfold B.set_wager; simpl. by rewrite insert_insert_eq. Qed.

Lemma wager_at_add_eq s w : B.wager_at (add_wager s w) (B.nextWagerId s) = w.
Proof. unfold B.wager_at, add_wager; simpl. by rewrite lookup_insert_eq. Qed.

Lemma wager_at_add_ne s w j :
  j ≠ B.nextWagerId s → B.wager_at (add_wager s w) j = B.wager_at s j.
Proof. intros. unfold B.wager_at, add_wager; simpl. by rewrite lookup_insert_ne. Qed.

Lemma isParticipant_elem who ps : isParticipant who ps = true ↔ who ∈ ps.
Proof.
  induction ps as [|p ps IH]; simpl.
  - split; [done | by intros ?%elem_of_nil].
  - rewrite elem_of_cons. destruct (N.eqb_spec p who) as [->|Hne].
    + split; [by left | done].
    + rewrite IH. split; [by right | by intros [->|?]].
Qed.

Lemma isParticipant_nonempty who ps :
  isParticipant who ps = true → (0 <? N.of_nat (length ps)) = true.
Proof. destruct ps; [done | intros _; apply N.ltb_lt; simpl; lia]. Qed.

Arguments O.set_wager : simpl never.
Arguments O.set_resolvedAt : simpl never.
Arguments O.set_charityDonated : simpl never.
Arguments O.wager_at : simpl never.
Arguments O.participants_at : simpl never.

Lemma O_wager_at_set_eq s k w : O.wager_at (O.set_wager s k w) k = w.
Proof. unfold O.wager_at, O.set_wager; simpl. by rewrite lookup_insert_eq. Qed.

Lemma O_wager_at_set_ne s k j w :
  k ≠ j → O.wager_at (O.set_wager s k w) j = O.wager_at s j.
Proof. intros. unfold O.wager_at, O.set_wager; simpl. by rewrite lookup_insert_ne. Qed.

Lemma O_set_wager_twice s k w w' :
  O.set_wager (O.set_wager s k w) k w' = O.set_wager s k w'.
Proof. unfold O.set_wager; simpl. by rewrite insert_insert_eq. Qed.

Lemma O_wager_at_set_resolvedAt s k v j :
  O.wager_at (O.set_resolvedAt s k v) j = O.wager_at s j.
Proof. done. Qed.

Lemma O_wager_at_set_charityDonated s k v j :
  O.wager_at (O.set_charityDonated s k v) j = O.wager_at s j.
Proof. done. Qed.

Lemma O_participants_at_set_wager s k w j :
  O.participants_at (O.set_wager s k w) j = O.participants_at s j.
Proof. done. Qed.

Lemma O_participants_at_set_resolvedAt s k v j :
  O.participants_at (O.set_resolvedAt s k v) j = O.participants_at s j.
Proof. done. Qed.

Lemma O_participants_at_set_charityDonated s k v j :
  O.participants_at (O.set_charityDonated s k v) j = O.participants_at s j.
Proof. done. Qed.

Ltac norm_in H :=
  cbn [st bal out evs with_st fst snd] in H;
  rewrite ?wager_at_set_eq, ?set_wager_twice, ?O_wager_at_set_resolvedAt,
    ?O_wager_at_set_charityDonated, ?O_wager_at_set_eq, ?O_set_wager_twice,
    ?O_participants_at_set_wager, ?O_participants_at_set_resolvedAt,
    ?O_participants_at_set_charityDonated in H;
  cbn [B.id B.participants B.amount B.condition B.status B.winner
       B.charityEnabled B.charityPercentage B.charityAddress B.charityDonated
       B.createdAt B.resolvedAt B.with_status B.with_winner B.with_resolvedAt
       B.with_charityDonated
       O.id O.amount O.status O.winner O.charityEnabled O.charityPercentage
       O.charityAddress O.createdAt O.with_status O.with_winner] in H.

Ltac norm_goal :=
  cbn [st bal out evs with_st fst snd];
  rewrite ?wager_at_set_eq, ?set_wager_twice, ?O_wager_at_set_resolvedAt,
    ?O_wager_at_set_charityDonated, ?O_wager_at_set_eq, ?O_set_wager_twice,
    ?O_participants_at_set_wager, ?O_participants_at_set_resolvedAt,
    ?O_participants_at_set_charityDonated;
  cbn [B.id B.participants B.amount B.condition B.status B.winner
       B.charityEnabled B.charityPercentage B.charityAddress B.charityDonated
       B.createdAt B.resolvedAt B.with_status B.with_winner B.with_resolvedAt
       B.with_charityDonated
       O.id O.amount O.status O.winner O.charityEnabled O.charityPercentage
       O.charityAddress O.createdAt O.with_status O.with_winner].

(** From [body t = Ok r] to what the body checked and computed. *)
Ltac inv_ok H :=
  lazymatch type of H with
  | (_ ≫= _) _ = Ok _ =>
      let H1 := fresh "Hm" in
      apply bind_Ok in H; destruct H as (? & ? & H1 & H); inv_ok H1;
      norm_in H; inv_ok H
  | mret _ _ = Ok _ => apply ret_Ok in H; simplify_eq
  | require _ _ _ = Ok _ =>
      let E := fresh in apply require_Ok in H; destruct H as [H E]; simplify_eq
  | nonpayable _ _ = Ok _ =>
      let E := fresh in apply require_Ok in H; destruct H as [H E]; simplify_eq
  | revert _ _ = Ok _ => discriminate H
  | load _ = Ok _ => apply load_Ok in H; simplify_eq
  | store_ _ _ = Ok _ => apply store_Ok in H; simplify_eq
  | emit _ _ = Ok _ => apply emit_Ok in H; simplify_eq
  | checked_add _ _ _ = Ok _ =>
      let E := fresh in apply checked_add_Ok in H; destruct H as [H E]; simplify_eq
  | checked_mul _ _ _ = Ok _ =>
      let E := fresh in apply checked_mul_Ok in H; destruct H as [H E]; simplify_eq
  | checked_sub _ _ _ = Ok _ =>
      let E := fresh in apply checked_sub_Ok in H; destruct H as [H E]; simplify_eq
  | transfer _ _ _ _ = Ok _ =>
      let E := fresh in let H' := fresh "Hrecv" in
      apply transfer_Ok in H; destruct H as (H & H' & E); simplify_eq
  | refund _ _ _ _ = Ok _ =>
      let E := fresh in let H' := fresh "Hrecv" in
      apply refund_Ok in H; destruct H as (H & H' & E); simplify_eq
  | B.read _ _ = Ok _ => unfold B.read in H; inv_ok H
  | B.update _ _ _ = Ok _ => unfold B.update in H; inv_ok H
  | O.read _ _ = Ok _ => unfold O.read in H; inv_ok H
  | O.update _ _ _ = Ok _ => unfold O.update in H; inv_ok H
  | (if ?b then _ else _) _ = Ok _ =>
      let E := fresh "Hc" in destruct b eqn:E; inv_ok H
  | (match ?l with [] => _ | _ :: _ => _ end) _ = Ok _ =>
      let E := fresh "Hl" in destruct l eqn:E; inv_ok H
  | _ => idtac
  end.

(** From the side conditions to [body t = Ok _]. *)
Ltac ok_atom :=
  norm_goal;
  lazymatch goal with
  | |- (_ ≫= _) _ = Ok _ =>
      apply bind_Ok; eexists _, _; split; [ok_atom | ok_atom]
  | |- mret _ _ = Ok _ => apply ret_Ok; reflexivity
  | |- require _ _ _ = Ok _ => apply require_Ok; split; [|reflexivity]
  | |- nonpayable _ _ = Ok _ => apply require_Ok; split; [|reflexivity]
  | |- load _ = Ok _ => apply load_Ok; reflexivity
  | |- store_ _ _ = Ok _ => apply store_Ok; reflexivity
  | |- emit _ _ = Ok _ => apply emit_Ok; reflexivity
  | |- checked_add _ _ _ = Ok _ => apply checked_add_Ok; split; [|reflexivity]
  | |- checked_mul _ _ _ = Ok _ => apply checked_mul_Ok; split; [|reflexivity]
  | |- checked_sub _ _ _ = Ok _ => apply checked_sub_Ok; split; [|reflexivity]
  | |- transfer _ _ _ _ = Ok _ => apply transfer_Ok; split_and!; [| |reflexivity]
  | |- refund _ _ _ _ = Ok _ => apply refund_Ok; split_and!; [| |reflexivity]
  | |- B.read _ _ = Ok _ => unfold B.read; ok_atom
  | |- B.update _ _ _ = Ok _ => unfold B.update; ok_atom
  | |- O.read _ _ = Ok _ => unfold O.read; ok_atom
  | |- O.update _ _ _ = Ok _ => unfold O.update; ok_atom
  | |- (if ?c then _ else _) _ = Ok _ =>
      (match goal with H : c = _ |- _ => rewrite H end); ok_atom
  | |- (match ?l with [] => _ | _ :: _ => _ end) _ = Ok _ =>
      (match goal with H : l = _ |- _ => rewrite H end); ok_atom
  end.

Ltac ok_run :=
  lazymatch goal with
  | |- ?m = Ok ?r =>
      cut (∃ r', m = Ok r' ∧ r' = r); [by intros (? & ? & ->)|];
      eexists; split; [ok_atom|]
  end.

(** ** The four operations of the baseline, as conditions and effects *)

Lemma createWager_Ok ctx ps a cond ce cp ca t r :
  B.createWager ctx ps a cond ce cp ca t = Ok r ↔
  a ≤ msg_value ctx ∧ (2 ≤ length ps)%nat ∧ cp ≤ 100 ∧
  B.nextWagerId (st t) + 1 ≤ MAX_UINT256 ∧
  r = (B.nextWagerId (st t),
       {| st := add_wager (st t)
                  (new_wager ctx (B.nextWagerId (st t)) ps a cond ce cp ca);
          bal := bal t; out := out t;
          evs := evs t ++ [WagerCreated (B.nextWagerId (st t)) (msg_sender ctx) a] |}).
Proof.
  split.
  - unfold B.createWager. intros H. inv_ok H.
    apply N.leb_le in Hm, Hm0, Hm1. split_and!; [done | lia | done | done | done].
  - intros (Ha & Hl & Hp & Hn & ->). unfold B.createWager.
    ok_run; [by apply N.leb_le | apply N.leb_le; lia | by apply N.leb_le | done | done].
Qed.

Lemma acceptWager_Ok ctx k t r :
  B.acceptWager ctx k t = Ok r ↔
  let w := B.wager_at (st t) k in
  B.status w = 0 ∧ B.amount w ≤ msg_value ctx ∧
  isParticipant (msg_sender ctx) (B.participants w) = true ∧
  r = ((), with_st t (B.set_wager (st t) k (B.with_status 1 w))).
Proof.
  simpl. split.
  - unfold B.acceptWager. intros H. inv_ok H.
    split_and!; [by apply N.eqb_eq | by apply N.leb_le | done | done].
  - intros (Hs & Ha & Hp & ->). unfold B.acceptWager.
    ok_run; [by apply N.eqb_eq | by apply N.leb_le | done | done].
Qed.

Lemma resolveWager_Ok ctx k win ev t r :
  B.resolveWager ctx k win ev t = Ok r ↔
  let w := B.wager_at (st t) k in
  msg_value ctx = 0 ∧ B.status w = 1 ∧
  isParticipant win (B.participants w) = true ∧
  totalPool w ≤ MAX_UINT256 ∧
  (charityDue w = true →
     totalPool w * B.charityPercentage w ≤ MAX_UINT256 ∧
     can_receive ctx (B.charityAddress w) = true) ∧
  charityAmount w ≤ totalPool w ∧ totalPool w ≤ bal t ∧
  can_receive ctx win = true ∧
  r = ((), {| st := B.set_wager (st t) k (resolved_wager ctx win w);
              bal := bal t - totalPool w;
              out := out t ++ payout w win;
              evs := evs t ++ [WagerResolved k win] |}).
Proof.
  simpl. split.
  - unfold B.resolveWager. intros H. inv_ok H.
    all: cbn [st bal out evs with_st] in *;
      rewrite ?wager_at_set_eq, ?set_wager_twice in *.
    all: unfold resolved_wager, payout, winnerAmount, charityAmount,
      charityDue, totalPool, resolved_by.
    all: rewrite Hc; apply N.eqb_eq in Hm, Hm0.
    + split_and!; try done; [lia|].
      do 2 f_equal; [lia | by rewrite <- app_assoc].
    + rewrite N.sub_0_r in *. split_and!; try done; lia.
  - unfold resolved_wager, payout, winnerAmount, charityAmount,
      charityDue, totalPool, resolved_by.
    intros (Hv & Hs & Hp & Ht & Hd & Hle & Hb & Hr & ->).
    apply N.eqb_eq in Hv, Hs. pose proof (isParticipant_nonempty _ _ Hp).
    unfold B.resolveWager. destruct (_ && _ && _) eqn:Hc.
    + destruct Hd as [? ?]; [done|].
      ok_run; norm_goal; try done; try lia.
      do 2 f_equal; [lia | by rewrite <- app_assoc].
    + ok_run; norm_goal; try done; try lia.
      by rewrite N.sub_0_r.
Qed.

Lemma cancelWager_Ok ctx k t r :
  B.cancelWager ctx k t = Ok r ↔
  let w := B.wager_at (st t) k in
  msg_value ctx = 0 ∧ (B.status w = 0 ∨ B.status w = 1) ∧
  (msg_sender ctx = B.owner (st t) ∨ B.participants w !! 0%nat = Some (msg_sender ctx)) ∧
  B.amount w * N.of_nat (length (B.participants w)) ≤ bal t ∧
  Forall (λ p, can_receive ctx p = true) (B.participants w) ∧
  r = ((), {| st := B.set_wager (st t) k (B.with_status 3 w);
              bal := bal t - B.amount w * N.of_nat (length (B.participants w));
              out := out t ++ refunds (B.participants w) (B.amount w);
              evs := evs t |}).
Proof.
  simpl. unfold refunds. split.
  - unfold B.cancelWager. intros H. inv_ok H.
    all: cbn [st bal out evs with_st] in *;
      rewrite ?wager_at_set_eq, ?set_wager_twice in *.
    all: apply N.eqb_eq in Hm; apply orb_true_iff in Hm0;
      rewrite !N.eqb_eq in Hm0.
    + apply N.eqb_eq in Hc. split_and!; try done. by left.
    + rewrite <- ?Hl in *. split_and!; try done.
      right. rewrite Hl. simpl. f_equal. symmetry.
      match goal with E : (_ =? _) = true |- _ => by apply N.eqb_eq in E end.
  - intros (Hv & Hs & Ha & Hb & Hr & ->). apply N.eqb_eq in Hv.
    assert ((B.status (B.wager_at (st t) k) =? 0)
            || (B.status (B.wager_at (st t) k) =? 1) = true) as Hs'.
    { apply orb_true_iff. rewrite !N.eqb_eq. done. }
    unfold B.cancelWager.
    destruct (msg_sender ctx =? B.owner (st t)) eqn:Ho.
    + ok_run; try done.
    + destruct Ha as [Heq | Hp0]; [apply N.eqb_eq in Heq; congruence|].
      destruct (B.participants (B.wager_at (st t) k)) as [|p0 ps] eqn:Hl; [done|].
      simplify_eq/=.
      ok_run; norm_goal; rewrite ?Hl; try done.
      by apply N.eqb_eq.
Qed.

Lemma refund_Revert {S} ctx ps amt (t : Tx S) e :
  refund ctx ps amt t = Revert e → e = TransferFailed.
Proof.
  revert t. induction ps as [|p ps IH]; intros t; simpl; [done|].
  unfold mbind, M_bind. destruct (transfer ctx p amt t) as [[[] t']|e'] eqn:E.
  - apply IH.
  - unfold transfer in E. destruct (_ && _); congruence.
Qed.

(** The only way to the out-of-bounds panic of [cancelWager] is an empty
    participants array. *)
Lemma cancelWager_panic ctx k t :
  B.cancelWager ctx k t = Revert PanicIndexOutOfBounds →
  B.participants (B.wager_at (st t) k) = [].
Proof.
  unfold B.cancelWager, B.read, B.update, nonpayable, require, load, store_,
    revert, mbind, M_bind, mret, M_ret.
  cbn [st bal out evs].
  destruct (msg_value ctx =? 0); [|done].
  destruct (_ || _); [|done].
  destruct (msg_sender ctx =? B.owner (st t)).
  - intros H%refund_Revert. done.
  - destruct (B.participants (B.wager_at (st t) k)) as [|p0 ps] eqn:E; [done|].
    destruct (msg_sender ctx =? p0); [|done].
    intros H%refund_Revert. done.
Qed.

(** ** Transactions on the baseline *)

Lemma call_Success ctx c s s' ret tr ev :
  B.call ctx c s = (s', Success ret tr ev) ↔
  B.dispatch ctx c {| st := store s; bal := balance s + msg_value ctx;
                      out := []; evs := [] |}
  = Ok (ret, {| st := store s'; bal := balance s'; out := tr; evs := ev |}).
Proof.
  unfold B.call, transact.
  destruct (B.dispatch _ _ _) as [[r [s1 b1 o1 e1]]|e]; simpl; split.
  - by intros [= <- <- <- <-].
  - intros [= -> -> -> -> ->]. by destruct s'.
  - done.
  - done.
Qed.

(** A call either reverts and leaves the chain as it was, or succeeds. *)
Lemma call_cases ctx c s :
  (∃ e, B.call ctx c s = (s, Reverted e)) ∨
  (∃ s' ret tr ev, B.call ctx c s = (s', Success ret tr ev)).
Proof.
  unfold B.call, transact. destruct (B.dispatch _ _ _) as [[r t]|e]; eauto 6.
Qed.

Lemma call_Reverted ctx c s s' e : B.call ctx c s = (s', Reverted e) → s' = s.
Proof.
  destruct (call_cases ctx c s) as [(e' & H)|(s1 & ret & tr & ev & H)];
    rewrite H; congruence.
Qed.

Lemma call_create ctx ps a cond ce cp ca s s' ret tr ev :
  B.call ctx (CreateWager ps a cond ce cp ca) s = (s', Success ret tr ev) ↔
  a ≤ msg_value ctx ∧ (2 ≤ length ps)%nat ∧ cp ≤ 100 ∧
  B.nextWagerId (store s) + 1 ≤ MAX_UINT256 ∧
  s' = {| store := add_wager (store s)
                     (new_wager ctx (B.nextWagerId (store s)) ps a cond ce cp ca);
          balance := balance s + msg_value ctx |} ∧
  ret = Some (B.nextWagerId (store s)) ∧ tr = [] ∧
  ev = [WagerCreated (B.nextWagerId (store s)) (msg_sender ctx) a].
Proof.
  rewrite call_Success. simpl. rewrite bind_Ok. split.
  - intros (k' & t' & (? & ? & ? & ? & E)%createWager_Ok & E'%ret_Ok).
    destruct s'; simpl in *. by simplify_eq.
  - intros (? & ? & ? & ? & -> & -> & -> & ->).
    eexists _, _. split; [by apply createWager_Ok | done].
Qed.

Lemma call_accept ctx k s s' ret tr ev :
  B.call ctx (AcceptWager k) s = (s', Success ret tr ev) ↔
  let w := B.wager_at (store s) k in
  B.status w = 0 ∧ B.amount w ≤ msg_value ctx ∧
  isParticipant (msg_sender ctx) (B.participants w) = true ∧
  s' = {| store := B.set_wager (store s) k (B.with_status 1 w);
          balance := balance s + msg_value ctx |} ∧
  ret = None ∧ tr = [] ∧ ev = [].
Proof.
  rewrite call_Success. simpl. rewrite bind_Ok. split.
  - intros ([] & t' & H & E'%ret_Ok).
    apply (proj1 (acceptWager_Ok _ _ _ _)) in H. simpl in H. destruct H as (? & ? & ? & E).
    destruct s'; unfold with_st in *; simpl in *. simplify_eq. by split_and!.
  - intros (? & ? & ? & -> & -> & -> & ->).
    eexists _, _. split; [by apply (proj2 (acceptWager_Ok _ _ _ _)) | done].
Qed.

Lemma call_resolve ctx k win evd s s' ret tr ev :
  B.call ctx (ResolveWager k win evd) s = (s', Success ret tr ev) ↔
  let w := B.wager_at (store s) k in
  msg_value ctx = 0 ∧ B.status w = 1 ∧
  isParticipant win (B.participants w) = true ∧
  totalPool w ≤ MAX_UINT256 ∧
  (charityDue w = true →
     totalPool w * B.charityPercentage w ≤ MAX_UINT256 ∧
     can_receive ctx (B.charityAddress w) = true) ∧
  charityAmount w ≤ totalPool w ∧ totalPool w ≤ balance s ∧
  can_receive ctx win = true ∧
  s' = {| store := B.set_wager (store s) k (resolved_wager ctx win w);
          balance := balance s - totalPool w |} ∧
  ret = None ∧ tr = payout w win ∧ ev = [WagerResolved k win].
Proof.
  rewrite call_Success. simpl. rewrite bind_Ok. split.
  - intros ([] & t' & H & E'%ret_Ok).
    apply (proj1 (resolveWager_Ok _ _ _ _ _ _)) in H. simpl in H. destruct H as (Hv & ? & ? & ? & ? & ? & ? & ? & E).
    rewrite Hv, N.add_0_r in *.
    destruct s'; simpl in *. simplify_eq. by split_and!.
  - intros (Hv & ? & ? & ? & ? & ? & ? & ? & -> & -> & -> & ->).
    eexists _, _. split; [|done]. apply (proj2 (resolveWager_Ok _ _ _ _ _ _)). simpl.
    rewrite Hv, N.add_0_r. by split_and!.
Qed.

Lemma call_cancel ctx k s s' ret tr ev :
  B.call ctx (CancelWager k) s = (s', Success ret tr ev) ↔
  let w := B.wager_at (store s) k in
  msg_value ctx = 0 ∧ (B.status w = 0 ∨ B.status w = 1) ∧
  (msg_sender ctx = B.owner (store s) ∨
   B.participants w !! 0%nat = Some (msg_sender ctx)) ∧
  B.amount w * N.of_nat (length (B.participants w)) ≤ balance s ∧
  Forall (λ p, can_receive ctx p = true) (B.participants w) ∧
  s' = {| store := B.set_wager (store s) k (B.with_status 3 w);
          balance := balance s - B.amount w * N.of_nat (length (B.participants w)) |} ∧
  ret = None ∧ tr = refunds (B.participants w) (B.amount w) ∧ ev = [].
Proof.
  rewrite call_Success. simpl. rewrite bind_Ok. split.
  - intros ([] & t' & H & E'%ret_Ok).
    apply (proj1 (cancelWager_Ok _ _ _ _)) in H. simpl in H. destruct H as (Hv & ? & ? & ? & ? & E).
    rewrite Hv, N.add_0_r in *.
    destruct s'; simpl in *. simplify_eq. by split_and!.
  - intros (Hv & ? & ? & ? & ? & -> & -> & -> & ->).
    eexists _, _. split; [|done]. apply (proj2 (cancelWager_Ok _ _ _ _)). simpl.
    rewrite Hv, N.add_0_r. by split_and!.
Qed.

Lemma reachable_run s calls : B.reachable s → B.reachable (B.run s calls).1.
Proof.
  revert s. induction calls as [|[ctx c] calls IH]; intros s Hs; [done|].
  simpl. pose proof (B.reach_call ctx c s Hs) as Hs'.
  destruct (B.call ctx c s) as [s' r]. specialize (IH s' Hs').
  by destruct (B.run s' calls).
Qed.

Lemma run_cons s ctx c calls :
  (B.run s ((ctx, c) :: calls)).1 = (B.run (B.call ctx c s).1 calls).1.
Proof.
  simpl. destruct (B.call ctx c s) as [s' r]. simpl.
  by destruct (B.run s' calls).
Qed.

Lemma run_receipts s ctx c calls :
  (B.run s ((ctx, c) :: calls)).2
  = (B.call ctx c s).2 :: (B.run (B.call ctx c s).1 calls).2.
Proof.
  simpl. destruct (B.call ctx c s) as [s' r]. simpl.
  by destruct (B.run s' calls).
Qed.

Lemma succeeded_call ctx c s :
  succeeded (B.call ctx c s).2 = true ↔
  ∃ s' ret tr ev, B.call ctx c s = (s', Success ret tr ev).
Proof.
  destruct (call_cases ctx c s) as [(e & H)|(s' & ret & tr & ev & H)];
    rewrite H; simpl; split; try done.
  - by intros (? & ? & ? & ? & ?).
  - eauto 6.
Qed.

Lemma failed_call ctx c s :
  succeeded (B.call ctx c s).2 = false → (B.call ctx c s).1 = s.
Proof.
  destruct (call_cases ctx c s) as [(e & H)|(s' & ret & tr & ev & H)];
    by rewrite H.
Qed.

Lemma call_Reverted_body ctx c s e :
  (B.call ctx c s).2 = Reverted e →
  B.dispatch ctx c {| st := store s; bal := balance s + msg_value ctx;
                      out := []; evs := [] |} = Revert e.
Proof.
  unfold B.call, transact. destruct (B.dispatch _ _ _) as [[r t]|e']; simpl;
    congruence.
Qed.

(** ** The storage invariant *)

Lemma blank_participants w : blank w → B.participants w = [].
Proof. by intros [-> | ->]. Qed.

Lemma blank_status w : blank w → B.status w = 0 ∨ B.status w = 3.
Proof. intros [-> | ->]; [by left | by right]. Qed.

Lemma participant_created s k who :
  invariant s → isParticipant who (B.participants (B.wager_at s k)) = true →
  created s k.
Proof.
  intros Hinv Hp. destruct (decide (created s k)) as [|Hn]; [done|].
  apply (inv_blank _ Hinv), blank_participants in Hn. by rewrite Hn in Hp.
Qed.

Lemma invariant_constructor deployer : invariant (B.constructor deployer).
Proof.
  split; simpl.
  - lia.
  - intros k [? ?]. simpl in *. lia.
  - intros k _. by left.
Qed.

Lemma invariant_set_wager s k w :
  invariant s →
  (created s k → wager_ok w ∧ B.id w = k) →
  (¬ created s k → blank w) →
  invariant (B.set_wager s k w).
Proof.
  intros [Hc Hcr Hbl] Hw Hb. split.
  - done.
  - intros j Hj. destruct (decide (k = j)) as [<-|Hne].
    + rewrite wager_at_set_eq. by apply Hw.
    + rewrite wager_at_set_ne by done. by apply Hcr.
  - intros j Hj. destruct (decide (k = j)) as [<-|Hne].
    + rewrite wager_at_set_eq. by apply Hb.
    + rewrite wager_at_set_ne by done. by apply Hbl.
Qed.

Lemma invariant_add_wager s ctx ps a cond ce cp ca :
  invariant s → (2 ≤ length ps)%nat → cp ≤ 100 →
  invariant (add_wager s (new_wager ctx (B.nextWagerId s) ps a cond ce cp ca)).
Proof.
  intros [Hc Hcr Hbl] Hl Hp. split.
  - simpl. lia.
  - intros j [Hj1 Hj2]. simpl in Hj2.
    destruct (decide (j = B.nextWagerId s)) as [->|Hne].
    + rewrite wager_at_add_eq. split; [|done]. by split.
    + rewrite wager_at_add_ne by done. apply Hcr. split; [done | lia].
  - intros j Hj. assert (j ≠ B.nextWagerId s) as Hne.
    { intros ->. apply Hj. split; simpl; lia. }
    rewrite wager_at_add_ne by done. apply Hbl. intros [? ?]. apply Hj.
    split; simpl; lia.
Qed.

Lemma invariant_call ctx c s :
  invariant (store s) → invariant (store (B.call ctx c s).1).
Proof.
  intros Hinv.
  destruct (call_cases ctx c s) as [(e & H)|(s' & ret & tr & ev & H)];
    rewrite H; [done|]. simpl.
  destruct c as [ps a cond ce cp ca | k | k win evd | k].
  - apply call_create in H as (? & ? & ? & ? & -> & _). simpl.
    by apply invariant_add_wager.
  - apply call_accept in H. simpl in H. destruct H as (Hs & _ & Hp & -> & _).
    simpl. pose proof (participant_created _ _ _ Hinv Hp) as Hk.
    apply invariant_set_wager; [done | | done].
    intros _. destruct (inv_created _ Hinv k Hk) as [[? ? ? ? Hd] ?].
    split; [|done]. split; simpl; try done; try lia.
    intros _. apply Hd. rewrite Hs. done.
  - apply call_resolve in H. simpl in H.
    destruct H as (_ & Hs & Hp & _ & _ & _ & _ & _ & -> & _).
    simpl. pose proof (participant_created _ _ _ Hinv Hp) as Hk.
    apply invariant_set_wager; [done | | done].
    intros _. destruct (inv_created _ Hinv k Hk) as [[? ? ? ? Hd] ?].
    apply isParticipant_elem in Hp.
    unfold resolved_wager. destruct (charityDue _);
      (split; [|done]); split; simpl; try done; lia.
  - apply call_cancel in H. simpl in H.
    destruct H as (_ & Hs & _ & _ & _ & -> & _). simpl.
    apply invariant_set_wager; [done | |].
    + intros Hk. destruct (inv_created _ Hinv k Hk) as [[? ? ? ? Hd] ?].
      split; [|done]. split; simpl; try done; try lia.
      intros _. apply Hd. unfold Resolved. lia.
    + intros Hk. apply (inv_blank _ Hinv) in Hk as [E | E].
      * rewrite E. by right.
      * rewrite E in Hs. simpl in Hs. lia.
Qed.

Lemma reachable_invariant s : B.reachable s → invariant (store s).
Proof.
  induction 1 as [deployer funds | ctx c s _ IH].
  - apply invariant_constructor.
  - by apply invariant_call.
Qed.

(** ** Resolution pays out the whole pool *)

Lemma charityAmount_le w :
  B.charityPercentage w ≤ 100 → charityAmount w ≤ totalPool w.
Proof.
  intros Hp. unfold charityAmount. destruct (charityDue w); [|lia].
  apply N.Div0.div_le_upper_bound. nia.
Qed.

Lemma charityDue_spec w :
  charityDue w = true ↔
  B.charityEnabled w = true ∧ 0 < B.charityPercentage w ∧ B.charityAddress w ≠ 0.
Proof.
  unfold charityDue. rewrite !andb_true_iff, negb_true_iff, N.ltb_lt, N.eqb_neq.
  tauto.
Qed.

(** C1. On a reachable state, [resolveWager] on an Active wager whose winner
    is a participant goes through whenever the arithmetic fits a [uint256],
    the balance covers the pool and the recipients accept value; and every
    successful [resolveWager] found the wager Active with a percentage in
    [0,100], sent [floor(totalPool * percentage / 100)] to the charity
    address exactly when charity is enabled, the percentage is positive and
    the address is set (recording it in [charityDonated], which is 0
    otherwise), sent the rest to the winner, and so paid out
    [amount * participants.length] to the last unit. *)
Theorem resolveWager_pays_whole_pool s ctx k winner evidence :
  B.reachable s →
  let w := B.getWager (store s) k in
  (B.status w = Active → winner ∈ B.participants w → msg_value ctx = 0 →
   totalPool w ≤ MAX_UINT256 →
   (charityDue w = true →
      totalPool w * B.charityPercentage w ≤ MAX_UINT256 ∧
      can_receive ctx (B.charityAddress w) = true) →
   totalPool w ≤ balance s → can_receive ctx winner = true →
   succeeded (B.call ctx (ResolveWager k winner evidence) s).2 = true) ∧
  (∀ s' ret transfers events,
     B.call ctx (ResolveWager k winner evidence) s
       = (s', Success ret transfers events) →
     let w' := B.getWager (store s') k in
     B.status w = Active ∧ B.charityPercentage w ≤ 100 ∧
     totalPool w = B.amount w * N.of_nat (length (B.participants w)) ∧
     (charityDue w = true ↔
        B.charityEnabled w = true ∧ 0 < B.charityPercentage w ∧
        B.charityAddress w ≠ 0) ∧
     (charityDue w = true →
        charityAmount w = (totalPool w * B.charityPercentage w) `div` 100 ∧
        transfers = [(B.charityAddress w, charityAmount w);
                     (winner, totalPool w - charityAmount w)] ∧
        B.charityDonated w' = charityAmount w) ∧
     (charityDue w = false →
        charityAmount w = 0 ∧ transfers = [(winner, totalPool w)] ∧
        B.charityDonated w' = 0) ∧
     winnerAmount w + charityAmount w
       = B.amount w * N.of_nat (length (B.participants w)) ∧
     balance s' + (winnerAmount w + charityAmount w) = balance s).
Proof.
  intros Hreach. pose proof (reachable_invariant _ Hreach) as Hinv.
  unfold B.getWager. simpl. split.
  - intros Hs Hw Hv Ht Hd Hb Hr.
    apply isParticipant_elem in Hw.
    pose proof (participant_created _ _ _ Hinv Hw) as Hk.
    destruct (inv_created _ Hinv k Hk) as [[? Hp ? ? ?] ?].
    destruct (call_cases ctx (ResolveWager k winner evidence) s)
      as [(e & Hcall)|(s' & ret & tr & ev & Hcall)]; rewrite Hcall; [|done].
    exfalso.
    assert (∃ s' ret tr ev,
      B.call ctx (ResolveWager k winner evidence) s = (s', Success ret tr ev))
      as (? & ? & ? & ? & Hcall'); [|congruence].
    eexists _, _, _, _. apply call_resolve. simpl.
    split_and!; try done. by apply charityAmount_le.
  - intros s' ret transfers events H.
    apply call_resolve in H. simpl in H.
    destruct H as (_ & Hs & Hw & _ & _ & Hle & Hb & _ & -> & _ & -> & _).
    pose proof (participant_created _ _ _ Hinv Hw) as Hk.
    destruct (inv_created _ Hinv k Hk) as [[? Hp ? ? Hd] ?].
    simpl. rewrite wager_at_set_eq. unfold winnerAmount.
    split_and!; try done.
    + apply charityDue_spec.
    + intros E. unfold payout, resolved_wager, winnerAmount, charityAmount.
      by rewrite E.
    + intros E. unfold payout, resolved_wager, winnerAmount, charityAmount.
      rewrite E. simpl. rewrite N.sub_0_r. split_and!; try done.
      apply Hd. rewrite Hs. done.
    + unfold totalPool in *. lia.
    + lia.
Qed.

Lemma resolveWager_pays_whole_pool_witness :
  let r := B.call (tx alice 0 7) (ResolveWager 1 alice "forecast") active_state in
  let w := B.getWager (store active_state) 1 in
  B.reachable active_state ∧
  r.2 = Success None [(carol, 20); (alice, 180)] [WagerResolved 1 alice] ∧
  winnerAmount w + charityAmount w = 200 ∧
  balance r.1 + 200 = balance active_state.
Proof.
  cbv zeta.
  assert (B.reachable active_state) as Hr.
  { apply reachable_run, B.reach_deploy. }
  destruct (resolveWager_pays_whole_pool active_state (tx alice 0 7) 1 alice
              "forecast" Hr) as [_ Hpay].
  specialize (Hpay
    (B.call (tx alice 0 7) (ResolveWager 1 alice "forecast") active_state).1
    None [(carol, 20); (alice, 180)] [WagerResolved 1 alice]).
  cbv zeta in Hpay.
  destruct Hpay as (_ & _ & _ & _ & _ & _ & Hsum & Hbal).
  { vm_compute. reflexivity. }
  split; [exact Hr|]. split; [vm_compute; reflexivity|].
  split; [vm_compute in Hsum |- *; exact Hsum | exact Hbal].
Defined.

(** ** The status diagram *)

Lemma created_call ctx c s k :
  created (store s) k → created (store (B.call ctx c s).1) k.
Proof.
  intros [Hk1 Hk2].
  destruct (call_cases ctx c s) as [(e & H)|(s' & ret & tr & ev & H)];
    rewrite H; [done|]. simpl.
  destruct c as [ps a cond ce cp ca | j | j win evd | j].
  - apply call_create in H as (_ & _ & _ & _ & -> & _). split; simpl; lia.
  - apply call_accept in H. simpl in H. by destruct H as (_ & _ & _ & -> & _).
  - apply call_resolve in H. simpl in H.
    by destruct H as (_ & _ & _ & _ & _ & _ & _ & _ & -> & _).
  - apply call_cancel in H. simpl in H.
    by destruct H as (_ & _ & _ & _ & _ & -> & _).
Qed.

(** One call moves the status of an existing wager along an edge of the
    diagram, or leaves it alone. *)
Lemma status_step ctx c s k :
  created (store s) k →
  B.status (B.wager_at (store (B.call ctx c s).1) k)
    = B.status (B.wager_at (store s) k) ∨
  edge k c (B.status (B.wager_at (store s) k))
           (B.status (B.wager_at (store (B.call ctx c s).1) k)).
Proof.
  intros [Hk1 Hk2].
  destruct (call_cases ctx c s) as [(e & H)|(s' & ret & tr & ev & H)];
    rewrite H; [by left|]. simpl.
  destruct c as [ps a cond ce cp ca | j | j win evd | j].
  - apply call_create in H as (_ & _ & _ & _ & -> & _). simpl.
    left. rewrite wager_at_add_ne by lia. done.
  - apply call_accept in H. simpl in H. destruct H as (Hs & _ & _ & -> & _).
    simpl. destruct (decide (j = k)) as [->|Hne].
    + right. rewrite wager_at_set_eq, Hs. constructor.
    + left. by rewrite wager_at_set_ne.
  - apply call_resolve in H. simpl in H.
    destruct H as (_ & Hs & _ & _ & _ & _ & _ & _ & -> & _).
    simpl. destruct (decide (j = k)) as [->|Hne].
    + right. rewrite wager_at_set_eq, Hs. unfold resolved_wager.
      destruct (charityDue _); constructor.
    + left. by rewrite wager_at_set_ne.
  - apply call_cancel in H. simpl in H.
    destruct H as (_ & Hs & _ & _ & _ & -> & _).
    simpl. destruct (decide (j = k)) as [->|Hne].
    + right. rewrite wager_at_set_eq. destruct Hs as [-> | ->]; constructor.
    + left. by rewrite wager_at_set_ne.
Qed.

Lemma status_path s k calls :
  created (store s) k →
  rtc (λ a b, ∃ c, edge k c a b)
      (B.status (B.wager_at (store s) k))
      (B.status (B.wager_at (store (B.run s calls).1) k)).
Proof.
  revert s. induction calls as [|[ctx c] calls IH]; intros s Hk; [done|].
  rewrite run_cons.
  destruct (status_step ctx c s k Hk) as [E | E].
  - rewrite <- E. apply IH. by apply created_call.
  - eapply rtc_l; [by exists c|]. apply IH. by apply created_call.
Qed.

Lemma terminal_no_edge k c a b :
  a = Resolved ∨ a = Cancelled → ¬ edge k c a b.
Proof. intros [-> | ->]; inversion 1. Qed.

Lemma terminal_stays s k calls :
  created (store s) k →
  B.status (B.wager_at (store s) k) = Resolved ∨
  B.status (B.wager_at (store s) k) = Cancelled →
  B.status (B.wager_at (store (B.run s calls).1) k)
    = B.status (B.wager_at (store s) k).
Proof.
  revert s. induction calls as [|[ctx c] calls IH]; intros s Hk Ht; [done|].
  rewrite run_cons.
  destruct (status_step ctx c s k Hk) as [E | E].
  - rewrite <- E. apply IH; [by apply created_call | by rewrite E].
  - by apply terminal_no_edge in E.
Qed.

(** C2. For a wager that exists, every call leaves the status alone or
    takes one edge of the diagram (Pending to Active by [acceptWager],
    Active to Resolved by [resolveWager], Pending or Active to Cancelled by
    [cancelWager]); along any sequence of calls the status follows a path of
    such edges; once Resolved or Cancelled it never changes again; and after
    a successful [resolveWager] every later [resolveWager] on that id
    fails. *)
Theorem status_follows_diagram s k :
  B.reachable s → created (store s) k →
  let status_of (c : Chain B.Storage) := B.status (B.getWager (store c) k) in
  (status_of s = Pending ∨ status_of s = Active ∨
   status_of s = Resolved ∨ status_of s = Cancelled) ∧
  (∀ ctx c,
     status_of (B.call ctx c s).1 = status_of s ∨
     edge k c (status_of s) (status_of (B.call ctx c s).1)) ∧
  (∀ calls,
     rtc (λ a b, ∃ c, edge k c a b) (status_of s) (status_of (B.run s calls).1)) ∧
  (∀ calls,
     status_of s = Resolved ∨ status_of s = Cancelled →
     status_of (B.run s calls).1 = status_of s) ∧
  (∀ ctx winner evidence calls ctx' winner' evidence',
     succeeded (B.call ctx (ResolveWager k winner evidence) s).2 = true →
     succeeded
       (B.call ctx' (ResolveWager k winner' evidence')
          (B.run (B.call ctx (ResolveWager k winner evidence) s).1 calls).1).2
     = false).
Proof.
  intros Hreach Hk. unfold B.getWager. simpl. split_and!.
  - destruct (inv_created _ (reachable_invariant _ Hreach) k Hk) as [[_ _ Hs _ _] _].
    unfold Pending, Active, Resolved, Cancelled. lia.
  - intros ctx c. by apply status_step.
  - intros calls. by apply status_path.
  - intros calls. by apply terminal_stays.
  - intros ctx winner evidence calls ctx' winner' evidence' Hok.
    destruct (call_cases ctx (ResolveWager k winner evidence) s)
      as [(e & H)|(s1 & ret & tr & ev & H)]; rewrite H in Hok |- *; [done|].
    simpl. clear Hok.
    assert (created (store s1) k) as Hk1.
    { pose proof (created_call ctx (ResolveWager k winner evidence) s k Hk) as Hc.
      by rewrite H in Hc. }
    assert (B.status (B.wager_at (store s1) k) = Resolved) as Hres.
    { apply call_resolve in H. simpl in H.
      destruct H as (_ & _ & _ & _ & _ & _ & _ & _ & -> & _). simpl.
      rewrite wager_at_set_eq. unfold resolved_wager.
      by destruct (charityDue _). }
    pose proof (terminal_stays s1 k calls Hk1 (or_introl Hres)) as Hlater.
    rewrite Hres in Hlater.
    destruct (call_cases ctx' (ResolveWager k winner' evidence') (B.run s1 calls).1)
      as [(e & H')|(s2 & ret' & tr' & ev' & H')]; rewrite H'; [done|].
    apply call_resolve in H'. simpl in H'. destruct H' as (_ & Hs & _).
    rewrite Hlater in Hs. done.
Qed.

Lemma status_follows_diagram_witness :
  let status_of (c : Chain B.Storage) := B.status (B.getWager (store c) 1) in
  created (store pending_state) 1 ∧
  status_of pending_state = Pending ∧
  edge 1 (AcceptWager 1) Pending
    (status_of (B.call (tx bob 100 6) (AcceptWager 1) pending_state).1).
Proof.
  cbv zeta.
  assert (B.reachable pending_state) as Hr.
  { apply reachable_run, B.reach_deploy. }
  assert (created (store pending_state) 1) as Hk.
  { split; vm_compute; congruence. }
  destruct (status_follows_diagram pending_state 1 Hr Hk)
    as (_ & Hstep & _).
  split; [exact Hk|]. split; [vm_compute; reflexivity|].
  destruct (Hstep (tx bob 100 6) (AcceptWager 1)) as [Hsame | Hedge].
  - vm_compute in Hsame. discriminate Hsame.
  - exact Hedge.
Defined.

(** The diagram is about wagers that exist. The owner's side of the
    authorization test in [cancelWager] is decided before [participants[0]]
    is read, so the owner can cancel a slot that no [createWager] has written
    yet; the id is handed out later all the same, to a fresh Pending
    wager. *)
Lemma owner_can_cancel_an_unwritten_slot :
  let s := (B.call (tx admin 0 1) (CancelWager 1) (B.deploy admin 0)).1 in
  let s' := (B.call (tx alice 50 5)
               (CreateWager [alice; bob] 50 "rain" false 0 0) s).1 in
  ¬ created (store s) 1 ∧
  B.status (B.getWager (store s) 1) = Cancelled ∧
  created (store s') 1 ∧
  B.status (B.getWager (store s') 1) = Pending.
Proof.
  cbv zeta. split_and!.
  - intros [_ Hlt]. vm_compute in Hlt. discriminate Hlt.
  - vm_compute. reflexivity.
  - split; vm_compute; congruence.
  - vm_compute. reflexivity.
Qed.

(** ** Acceptance *)

(** C4. On a reachable state [acceptWager] succeeds exactly when the wager
    exists, is Pending, the caller is one of its participants and the
    attached payment covers the stake; any other call, in particular one on
    an id that [createWager] never handed out, is rejected and leaves the
    contract as it was. *)
Theorem acceptWager_succeeds_exactly s ctx k :
  B.reachable s →
  let w := B.getWager (store s) k in
  let r := B.call ctx (AcceptWager k) s in
  (succeeded r.2 = true ↔
     created (store s) k ∧ B.status w = Pending ∧
     msg_sender ctx ∈ B.participants w ∧ B.amount w ≤ msg_value ctx) ∧
  (succeeded r.2 = false → r.1 = s) ∧
  (¬ created (store s) k → succeeded r.2 = false ∧ r.1 = s).
Proof.
  intros Hreach. pose proof (reachable_invariant _ Hreach) as Hinv.
  unfold B.getWager. cbv zeta.
  assert (succeeded (B.call ctx (AcceptWager k) s).2 = true ↔
          created (store s) k ∧ B.status (B.wager_at (store s) k) = Pending ∧
          msg_sender ctx ∈ B.participants (B.wager_at (store s) k) ∧
          B.amount (B.wager_at (store s) k) ≤ msg_value ctx) as Hiff.
  { rewrite succeeded_call. split.
    - intros (s' & ret & tr & ev & H). apply call_accept in H. simpl in H.
      destruct H as (Hs & Ha & Hp & _).
      split_and!; [by eapply participant_created | done | | done].
      by apply isParticipant_elem.
    - intros (_ & Hs & Hp & Ha). eexists _, _, _, _. apply call_accept. simpl.
      split_and!; [done | done | by apply isParticipant_elem | done..]. }
  split_and!; [done | apply failed_call |].
  intros Hk.
  assert (succeeded (B.call ctx (AcceptWager k) s).2 = false) as Hf.
  { destruct (succeeded _); [|done]. by destruct (proj1 Hiff eq_refl) as [? _]. }
  split; [done | by apply failed_call].
Qed.

Lemma acceptWager_succeeds_exactly_witness :
  let r := B.call (tx bob 100 6) (AcceptWager 1) pending_state in
  let r' := B.call (tx bob 100 6) (AcceptWager 7) pending_state in
  succeeded r.2 = true ∧ succeeded r'.2 = false ∧ r'.1 = pending_state.
Proof.
  cbv zeta.
  assert (B.reachable pending_state) as Hr.
  { apply reachable_run, B.reach_deploy. }
  destruct (acceptWager_succeeds_exactly pending_state (tx bob 100 6) 1 Hr)
    as (Hiff & _ & _).
  destruct (acceptWager_succeeds_exactly pending_state (tx bob 100 6) 7 Hr)
    as (_ & _ & Hnew).
  split.
  - apply Hiff. vm_compute. split_and!; try reflexivity; try discriminate.
    apply list_elem_of_further, list_elem_of_here.
  - apply Hnew. intros [_ Hlt]. vm_compute in Hlt. discriminate Hlt.
Defined.

(** C10. A successful [acceptWager] takes the wager from Pending to Active
    and changes nothing else: the other eleven fields of the record, every
    other record, the id counter and the owner are as before, and no value
    leaves the contract. *)
Theorem acceptWager_changes_only_status s ctx k s' ret transfers events :
  B.call ctx (AcceptWager k) s = (s', Success ret transfers events) →
  let w := B.getWager (store s) k in
  let w' := B.getWager (store s') k in
  B.status w = Pending ∧ B.status w' = Active ∧
  B.id w' = B.id w ∧ B.participants w' = B.participants w ∧
  B.amount w' = B.amount w ∧ B.condition w' = B.condition w ∧
  B.winner w' = B.winner w ∧ B.charityEnabled w' = B.charityEnabled w ∧
  B.charityPercentage w' = B.charityPercentage w ∧
  B.charityAddress w' = B.charityAddress w ∧
  B.charityDonated w' = B.charityDonated w ∧
  B.createdAt w' = B.createdAt w ∧ B.resolvedAt w' = B.resolvedAt w ∧
  (∀ j, j ≠ k → B.getWager (store s') j = B.getWager (store s) j) ∧
  B.nextWagerId (store s') = B.nextWagerId (store s) ∧
  B.owner (store s') = B.owner (store s) ∧
  transfers = [] ∧ balance s' = balance s + msg_value ctx.
Proof.
  intros H. apply call_accept in H. simpl in H.
  destruct H as (Hs & _ & _ & -> & _ & -> & _).
  unfold B.getWager. simpl. rewrite wager_at_set_eq. simpl.
  split_and!; try done.
  intros j Hj. by rewrite wager_at_set_ne.
Qed.

Lemma acceptWager_changes_only_status_witness :
  let r := B.call (tx bob 100 6) (AcceptWager 1) pending_state in
  B.status (B.getWager (store r.1) 1) = Active ∧
  B.participants (B.getWager (store r.1) 1)
    = B.participants (B.getWager (store pending_state) 1) ∧
  B.nextWagerId (store r.1) = B.nextWagerId (store pending_state).
Proof.
  cbv zeta.
  destruct (acceptWager_changes_only_status pending_state (tx bob 100 6) 1
              (B.call (tx bob 100 6) (AcceptWager 1) pending_state).1
              None [] [])
    as (_ & Hactive & _ & Hps & _ & _ & _ & _ & _ & _ & _ & _ & _ & _ & Hn & _).
  { vm_compute. reflexivity. }
  split; [exact Hactive|]. split; [exact Hps | exact Hn].
Defined.

(** ** Rollback *)

(** C5. A call that fails leaves the contract, and with it every record
    [getWager] can read, exactly as it was.  In particular [resolveWager]
    fails as a whole when the winner or the charity refuses the value or the
    balance is short of the pool, and [cancelWager] fails as a whole when any
    participant refuses the refund or the balance is short of the refunds:
    the status flip made before the transfers does not survive. *)
Theorem failed_call_rolls_back s ctx :
  (∀ c,
     succeeded (B.call ctx c s).2 = false →
     (B.call ctx c s).1 = s ∧
     ∀ j, B.getWager (store (B.call ctx c s).1) j = B.getWager (store s) j) ∧
  (∀ k winner evidence,
     let w := B.getWager (store s) k in
     can_receive ctx winner = false ∨
     (charityDue w = true ∧ can_receive ctx (B.charityAddress w) = false) ∨
     balance s < totalPool w →
     succeeded (B.call ctx (ResolveWager k winner evidence) s).2 = false) ∧
  (∀ k,
     let w := B.getWager (store s) k in
     (∃ p, p ∈ B.participants w ∧ can_receive ctx p = false) ∨
     balance s < B.amount w * N.of_nat (length (B.participants w)) →
     succeeded (B.call ctx (CancelWager k) s).2 = false).
Proof.
  unfold B.getWager. cbv zeta. split_and!.
  - intros c Hf. rewrite (failed_call _ _ _ Hf). done.
  - intros k winner evidence Hbad.
    destruct (succeeded _) eqn:E; [|done].
    apply succeeded_call in E as (s' & ret & tr & ev & H).
    apply call_resolve in H. simpl in H.
    destruct H as (_ & _ & _ & _ & Hd & _ & Hb & Hr & _).
    destruct Hbad as [Hw | [[Hdue Hc] | Hlt]].
    + congruence.
    + destruct (Hd Hdue) as [_ Hc']. congruence.
    + lia.
  - intros k Hbad.
    destruct (succeeded _) eqn:E; [|done].
    apply succeeded_call in E as (s' & ret & tr & ev & H).
    apply call_cancel in H. simpl in H.
    destruct H as (_ & _ & _ & Hb & Hall & _).
    destruct Hbad as [(p & Hp & Hc) | Hlt]; [|lia].
    rewrite Forall_forall in Hall. specialize (Hall p Hp). congruence.
Qed.

Lemma failed_call_rolls_back_witness :
  let picky := {| msg_sender := alice; msg_value := 0; block_timestamp := 7;
                  can_receive := λ a, negb (a =? alice) |} in
  let r := B.call picky (ResolveWager 1 alice "forecast") active_state in
  r.2 = Reverted TransferFailed ∧ r.1 = active_state ∧
  B.status (B.getWager (store r.1) 1) = Active.
Proof.
  cbv zeta.
  set (picky := {| msg_sender := alice; msg_value := 0; block_timestamp := 7;
                   can_receive := λ a, negb (a =? alice) |}).
  destruct (failed_call_rolls_back active_state picky) as (Hsame & Hres & _).
  assert (succeeded
            (B.call picky (ResolveWager 1 alice "forecast") active_state).2
          = false) as Hf.
  { apply Hres. left. reflexivity. }
  destruct (Hsame _ Hf) as [Hs Hget].
  split; [vm_compute; reflexivity|]. split; [exact Hs|].
  rewrite Hget. vm_compute. reflexivity.
Defined.

(** ** The id counter *)

Lemma assigned_ids_cons r rs :
  assigned_ids (r :: rs) = assigned_ids [r] ++ assigned_ids rs.
Proof. by destruct r as [[k|] ? ?|]. Qed.

(** A call hands out the current counter value and increments it, or hands
    out nothing and leaves the counter alone. *)
Lemma call_counter ctx c s :
  (assigned_ids [(B.call ctx c s).2] = [] ∧
   B.nextWagerId (store (B.call ctx c s).1) = B.nextWagerId (store s)) ∨
  (assigned_ids [(B.call ctx c s).2] = [B.nextWagerId (store s)] ∧
   B.nextWagerId (store (B.call ctx c s).1) = B.nextWagerId (store s) + 1).
Proof.
  destruct (call_cases ctx c s) as [(e & H)|(s' & ret & tr & ev & H)];
    rewrite H; [by left|]. simpl.
  destruct c as [ps a cond ce cp ca | j | j win evd | j].
  - apply call_create in H as (_ & _ & _ & _ & -> & -> & _). by right.
  - apply call_accept in H. simpl in H.
    destruct H as (_ & _ & _ & -> & -> & _). by left.
  - apply call_resolve in H. simpl in H.
    destruct H as (_ & _ & _ & _ & _ & _ & _ & _ & -> & -> & _). by left.
  - apply call_cancel in H. simpl in H.
    destruct H as (_ & _ & _ & _ & _ & -> & -> & _). by left.
Qed.

Lemma run_ids s calls :
  let ids := assigned_ids (B.run s calls).2 in
  ids = count_from (B.nextWagerId (store s)) (length ids) ∧
  B.nextWagerId (store (B.run s calls).1)
    = B.nextWagerId (store s) + N.of_nat (length ids).
Proof.
  revert s. induction calls as [|[ctx c] calls IH]; intros s.
  - simpl. split; [done | lia].
  - cbv zeta in *. rewrite run_receipts, run_cons, assigned_ids_cons.
    destruct (IH (B.call ctx c s).1) as [IH1 IH2].
    destruct (call_counter ctx c s) as [[-> E] | [-> E]]; rewrite E in *.
    + done.
    + simpl. rewrite <- IH1. split; [done | lia].
Qed.

Lemma count_from_bound a n x : x ∈ count_from a n → a ≤ x.
Proof.
  revert a. induction n as [|n IH]; intros a; simpl.
  - by intros ?%elem_of_nil.
  - intros [-> | Hx%IH]%elem_of_cons; lia.
Qed.

Lemma count_from_sorted a n : StronglySorted N.lt (count_from a n).
Proof.
  revert a. induction n as [|n IH]; intros a; simpl; constructor; [done|].
  apply Forall_forall. intros x Hx%count_from_bound. lia.
Qed.

(** C7. The counter starts at 1, and the ids returned by the successful
    [createWager] calls of any run from deployment are 1, 2, 3, ... in the
    order of the calls: each is strictly greater than every id handed out
    before it, none is handed out twice, and the first is 1. *)
Theorem wager_ids_count_up deployer funds calls :
  let ids := assigned_ids (B.run (B.deploy deployer funds) calls).2 in
  B.nextWagerId (B.constructor deployer) = 1 ∧
  ids = count_from 1 (length ids) ∧
  StronglySorted N.lt ids ∧
  NoDup ids ∧
  head ids = (if ids is [] then None else Some 1) ∧
  B.nextWagerId (store (B.run (B.deploy deployer funds) calls).1)
    = 1 + N.of_nat (length ids).
Proof.
  cbv zeta. destruct (run_ids (B.deploy deployer funds) calls) as [Hids Hn].
  simpl in Hids, Hn.
  set (ids := assigned_ids _) in *.
  assert (StronglySorted N.lt ids) as Hsorted.
  { rewrite Hids. apply count_from_sorted. }
  split_and!; try done.
  - clear Hids Hn. induction Hsorted as [|x l _ IH Hx]; constructor; [|done].
    intros Hin. rewrite Forall_forall in Hx. specialize (Hx x Hin). lia.
  - rewrite Hids. by destruct (length ids).
Qed.

(** ** The winner and the participants *)

(** C8. On a reachable state the winner of a Resolved wager is one of its
    participants; [resolveWager] rejects a winner that is not, and no other
    call changes the winner of an existing wager. *)
Theorem resolved_winner_is_participant s k :
  B.reachable s →
  let w := B.getWager (store s) k in
  (B.status w = Resolved → B.winner w ∈ B.participants w) ∧
  (∀ ctx winner evidence,
     winner ∉ B.participants w →
     succeeded (B.call ctx (ResolveWager k winner evidence) s).2 = false) ∧
  (∀ ctx c,
     created (store s) k →
     B.winner (B.getWager (store (B.call ctx c s).1) k) = B.winner w ∨
     ∃ winner evidence,
       c = ResolveWager k winner evidence ∧ winner ∈ B.participants w ∧
       B.winner (B.getWager (store (B.call ctx c s).1) k) = winner).
Proof.
  intros Hreach. pose proof (reachable_invariant _ Hreach) as Hinv.
  unfold B.getWager. cbv zeta. split_and!.
  - intros Hs. destruct (decide (created (store s) k)) as [Hk|Hk].
    + destruct (inv_created _ Hinv k Hk) as [[_ _ _ Hw _] _]. by apply Hw.
    + apply (inv_blank _ Hinv), blank_status in Hk. unfold Resolved in Hs. lia.
  - intros ctx winner evidence Hw. destruct (succeeded _) eqn:E; [|done].
    apply succeeded_call in E as (s' & ret & tr & ev & H).
    apply call_resolve in H. simpl in H. destruct H as (_ & _ & Hp & _).
    by apply isParticipant_elem in Hp.
  - intros ctx c [Hk1 Hk2].
    destruct (call_cases ctx c s) as [(e & H)|(s' & ret & tr & ev & H)];
      rewrite H; [by left|]. simpl.
    destruct c as [ps a cond ce cp ca | j | j win evd | j].
    + apply call_create in H as (_ & _ & _ & _ & -> & _). simpl.
      left. by rewrite wager_at_add_ne by lia.
    + apply call_accept in H. simpl in H. destruct H as (_ & _ & _ & -> & _).
      simpl. left. destruct (decide (j = k)) as [->|Hne].
      * by rewrite wager_at_set_eq.
      * by rewrite wager_at_set_ne.
    + apply call_resolve in H. simpl in H.
      destruct H as (_ & _ & Hp & _ & _ & _ & _ & _ & -> & _).
      simpl. destruct (decide (j = k)) as [->|Hne].
      * right. exists win, evd. rewrite wager_at_set_eq.
        split_and!; [done | by apply isParticipant_elem |].
        unfold resolved_wager. by destruct (charityDue _).
      * left. by rewrite wager_at_set_ne.
    + apply call_cancel in H. simpl in H.
      destruct H as (_ & _ & _ & _ & _ & -> & _).
      simpl. left. destruct (decide (j = k)) as [->|Hne].
      * by rewrite wager_at_set_eq.
      * by rewrite wager_at_set_ne.
Qed.

Lemma resolved_winner_is_participant_witness :
  B.status (B.getWager (store resolved_state) 1) = Resolved ∧
  B.winner (B.getWager (store resolved_state) 1)
    ∈ B.participants (B.getWager (store resolved_state) 1).
Proof.
  assert (B.reachable resolved_state) as Hr.
  { apply reachable_run, B.reach_deploy. }
  destruct (resolved_winner_is_participant resolved_state 1 Hr) as (Hw & _).
  assert (B.status (B.getWager (store resolved_state) 1) = Resolved) as Hs.
  { vm_compute. reflexivity. }
  split; [exact Hs | exact (Hw Hs)].
Defined.

(** C9. On a reachable state every wager that exists has at least two
    participants; no call and no sequence of calls changes the participants
    of an existing wager; so [participants[0]] is there when [cancelWager]
    reads it and the call never ends in the out-of-bounds panic. *)
Theorem participants_fixed_and_indexable s k :
  B.reachable s → created (store s) k →
  let ps (c : Chain B.Storage) := B.participants (B.getWager (store c) k) in
  (2 ≤ length (ps s))%nat ∧
  (∀ ctx c, ps (B.call ctx c s).1 = ps s) ∧
  (∀ calls, ps (B.run s calls).1 = ps s) ∧
  is_Some (ps s !! 0%nat) ∧
  (∀ ctx, (B.call ctx (CancelWager k) s).2 ≠ Reverted PanicIndexOutOfBounds).
Proof.
  intros Hreach Hk. pose proof (reachable_invariant _ Hreach) as Hinv.
  unfold B.getWager. cbv zeta.
  destruct (inv_created _ Hinv k Hk) as [[Hlen _ _ _ _] _].
  assert (∀ ctx c s0, created (store s0) k →
            B.participants (B.wager_at (store (B.call ctx c s0).1) k)
            = B.participants (B.wager_at (store s0) k)) as Hstep.
  { intros ctx c s0 [Hk1 Hk2].
    destruct (call_cases ctx c s0) as [(e & H)|(s' & ret & tr & ev & H)];
      rewrite H; [done|]. simpl.
    destruct c as [ps a cond ce cp ca | j | j win evd | j].
    - apply call_create in H as (_ & _ & _ & _ & -> & _). simpl.
      by rewrite wager_at_add_ne by lia.
    - apply call_accept in H. simpl in H. destruct H as (_ & _ & _ & -> & _).
      simpl. destruct (decide (j = k)) as [->|Hne].
      + by rewrite wager_at_set_eq.
      + by rewrite wager_at_set_ne.
    - apply call_resolve in H. simpl in H.
      destruct H as (_ & _ & _ & _ & _ & _ & _ & _ & -> & _).
      simpl. destruct (decide (j = k)) as [->|Hne].
      + rewrite wager_at_set_eq. unfold resolved_wager.
        by destruct (charityDue _).
      + by rewrite wager_at_set_ne.
    - apply call_cancel in H. simpl in H.
      destruct H as (_ & _ & _ & _ & _ & -> & _).
      simpl. destruct (decide (j = k)) as [->|Hne].
      + by rewrite wager_at_set_eq.
      + by rewrite wager_at_set_ne. }
  split_and!.
  - done.
  - intros ctx c. by apply Hstep.
  - intros calls. clear Hreach Hinv Hlen. revert s Hk.
    induction calls as [|[ctx c] calls IH]; intros s Hk; [done|].
    rewrite run_cons, IH by (by apply created_call). by apply Hstep.
  - destruct (B.participants (B.wager_at (store s) k)); simpl in *; [lia|].
    by eexists.
  - intros ctx Hpanic. apply call_Reverted_body in Hpanic. simpl in Hpanic.
    unfold mbind, M_bind in Hpanic.
    destruct (B.cancelWager _ _ _) as [[[] t']|e] eqn:E; [done|].
    injection Hpanic as ->. apply cancelWager_panic in E. simpl in E.
    rewrite E in Hlen. simpl in Hlen. lia.
Qed.

Lemma participants_fixed_and_indexable_witness :
  created (store pending_state) 1 ∧
  B.participants (B.getWager (store pending_state) 1) = [alice; bob] ∧
  B.participants
    (B.getWager (store (B.call (tx alice 0 9) (CancelWager 1) pending_state).1) 1)
  = [alice; bob] ∧
  (B.call (tx dave 0 9) (CancelWager 1) pending_state).2
  ≠ Reverted PanicIndexOutOfBounds.
Proof.
  assert (B.reachable pending_state) as Hr.
  { apply reachable_run, B.reach_deploy. }
  assert (created (store pending_state) 1) as Hk.
  { split; vm_compute; congruence. }
  destruct (participants_fixed_and_indexable pending_state 1 Hr Hk)
    as (_ & Hstep & _ & _ & Hpanic).
  assert (B.participants (B.getWager (store pending_state) 1) = [alice; bob])
    as Hps.
  { vm_compute. reflexivity. }
  split; [exact Hk|]. split; [exact Hps|]. split.
  - rewrite <- Hps. exact (Hstep (tx alice 0 9) (CancelWager 1)).
  - exact (Hpanic (tx dave 0 9)).
Defined.

(** ** The four operations of the optimized variant *)

(** The struct literal of [createWager] is refused: it gives eleven values
    to a struct of eight members. *)
Lemma O_createWager_literal_refused ctx k ps a cond ce cp ca :
  O.Wager_literal (O.createWager_literal ctx k ps a cond ce cp ca) = None.
Proof. reflexivity. Qed.

Lemma O_createWager_fails ctx ps a cond ce cp ca t r :
  O.createWager ctx ps a cond ce cp ca t ≠ Ok r.
Proof.
  unfold O.createWager. intros H. by inv_ok H.
Qed.

Lemma O_acceptWager_Ok ctx k t r :
  O.acceptWager ctx k t = Ok r ↔
  let w := O.wager_at (st t) k in
  O.status w = 0 ∧ O.amount w ≤ msg_value ctx ∧
  isParticipant (msg_sender ctx) (O.participants_at (st t) k) = true ∧
  r = ((), with_st t (O.set_wager (st t) k (O.with_status 1 w))).
Proof.
  simpl. split.
  - unfold O.acceptWager. intros H. inv_ok H.
    apply negb_false_iff in Hc, Hc1. apply N.eqb_eq in Hc. apply N.ltb_ge in Hc0.
    by split_and!.
  - intros (Hs & Ha & Hp & ->). unfold O.acceptWager.
    assert (negb (O.status (O.wager_at (st t) k) =? 0) = false).
    { apply negb_false_iff. by apply N.eqb_eq. }
    assert ((msg_value ctx <? O.amount (O.wager_at (st t) k)) = false)
      by (apply N.ltb_ge; lia).
    assert (negb (isParticipant (msg_sender ctx) (O.participants_at (st t) k)) = false)
      by (by rewrite Hp).
    ok_run. done.
Qed.

Lemma O_resolveWager_Ok ctx k win t r :
  O.resolveWager ctx k win t = Ok r ↔
  let w := O.wager_at (st t) k in
  let ps := O.participants_at (st t) k in
  let total := O.amount w * N.of_nat (length ps) in
  let due := O.charityEnabled w && (0 <? O.charityPercentage w)
             && negb (O.charityAddress w =? 0) in
  let charity := if due then (total * O.charityPercentage w) `div` 100 else 0 in
  msg_value ctx = 0 ∧ O.status w = 1 ∧ isParticipant win ps = true ∧
  total ≤ MAX_UINT256 ∧
  (due = true →
     total * O.charityPercentage w ≤ MAX_UINT256 ∧
     can_receive ctx (O.charityAddress w) = true) ∧
  charity ≤ total ∧ total ≤ bal t ∧ can_receive ctx win = true ∧
  r = ((), {| st := O_resolved ctx k win (st t)
                      (if due then Some charity else None);
              bal := bal t - total;
              out := out t ++ (if due then [(O.charityAddress w, charity)] else [])
                           ++ [(win, total - charity)];
              evs := evs t ++ [WagerResolved k win] |}).
Proof.
  cbv zeta. unfold O_resolved. split.
  - unfold O.resolveWager. intros H. inv_ok H.
    all: cbn [st bal out evs with_st] in *.
    all: apply N.eqb_eq in Hm; apply negb_false_iff in Hc, Hc1;
      apply N.eqb_eq in Hc.
    + split_and!; try done; [lia|].
      do 2 f_equal; [lia | by rewrite <- app_assoc].
    + rewrite N.sub_0_r in *. split_and!; try done; lia.
  - intros (Hv & Hs & Hp & Ht & Hd & Hle & Hb & Hr & ->).
    apply N.eqb_eq in Hv. pose proof (isParticipant_nonempty _ _ Hp) as Hne.
    assert (negb (O.status (O.wager_at (st t) k) =? 1) = false).
    { apply negb_false_iff. by apply N.eqb_eq. }
    assert ((N.of_nat (length (O.participants_at (st t) k)) =? 0) = false).
    { apply N.eqb_neq. apply N.ltb_lt in Hne. lia. }
    assert (negb (isParticipant win (O.participants_at (st t) k)) = false)
      by (by rewrite Hp).
    unfold O.resolveWager. destruct (_ && _ && _) eqn:Hc.
    + destruct Hd as [? ?]; [done|].
      ok_run; norm_goal; try done; try lia.
      do 2 f_equal; [lia | by rewrite <- app_assoc].
    + ok_run; norm_goal; try done; try lia.
      by rewrite N.sub_0_r.
Qed.

Lemma O_cancelWager_Ok ctx k t r :
  O.cancelWager ctx k t = Ok r ↔
  let w := O.wager_at (st t) k in
  let ps := O.participants_at (st t) k in
  msg_value ctx = 0 ∧ (O.status w = 0 ∨ O.status w = 1) ∧
  (msg_sender ctx = O.owner (st t) ∨ ps !! 0%nat = Some (msg_sender ctx)) ∧
  O.amount w * N.of_nat (length ps) ≤ bal t ∧
  Forall (λ p, can_receive ctx p = true) ps ∧
  r = ((), {| st := O.set_wager (st t) k (O.with_status 3 w);
              bal := bal t - O.amount w * N.of_nat (length ps);
              out := out t ++ refunds ps (O.amount w);
              evs := evs t |}).
Proof.
  cbv zeta. unfold refunds. split.
  - unfold O.cancelWager. intros H. inv_ok H.
    all: cbn [st bal out evs with_st] in *.
    all: apply N.eqb_eq in Hm; apply N.ltb_ge in Hc.
    + apply N.eqb_eq in Hc0. split_and!; try done; [lia | by left].
    + rewrite <- ?Hl in *. split_and!; try done; [lia|].
      right. rewrite Hl. simpl. f_equal. symmetry.
      apply negb_false_iff in Hc1. by apply N.eqb_eq in Hc1.
  - intros (Hv & Hs & Ha & Hb & Hr & ->). apply N.eqb_eq in Hv.
    assert ((1 <? O.status (O.wager_at (st t) k)) = false)
      by (apply N.ltb_ge; lia).
    unfold O.cancelWager.
    destruct (msg_sender ctx =? O.owner (st t)) eqn:Ho.
    + assert (negb true = false) by done.
      ok_run; norm_goal; try done.
    + destruct Ha as [Heq | Hp0]; [apply N.eqb_eq in Heq; congruence|].
      destruct (O.participants_at (st t) k) as [|p0 ps] eqn:Hl; [done|].
      simplify_eq/=.
      assert (negb (msg_sender ctx =? msg_sender ctx) = false).
      { apply negb_false_iff. by apply N.eqb_eq. }
      ok_run; norm_goal; rewrite ?Hl; try done.
Qed.

(** ** Transactions on the optimized variant *)

Lemma O_call_Success ctx c s s' ret tr ev :
  O.call ctx c s = (s', Success ret tr ev) ↔
  O.dispatch ctx c {| st := store s; bal := balance s + msg_value ctx;
                      out := []; evs := [] |}
  = Ok (ret, {| st := store s'; bal := balance s'; out := tr; evs := ev |}).
Proof.
  unfold O.call, transact.
  destruct (O.dispatch _ _ _) as [[r [s1 b1 o1 e1]]|e]; simpl; split.
  - by intros [= <- <- <- <-].
  - intros [= -> -> -> -> ->]. by destruct s'.
  - done.
  - done.
Qed.

Lemma O_call_cases ctx c s :
  (∃ e, O.call ctx c s = (s, Reverted e)) ∨
  (∃ s' ret tr ev, O.call ctx c s = (s', Success ret tr ev)).
Proof.
  unfold O.call, transact. destruct (O.dispatch _ _ _) as [[r t]|e]; eauto 6.
Qed.

Lemma O_call_create ctx ps a cond ce cp ca s s' ret tr ev :
  O.call ctx (CreateWager ps a cond ce cp ca) s ≠ (s', Success ret tr ev).
Proof.
  rewrite O_call_Success. simpl. rewrite bind_Ok.
  intros (k' & t' & H & _). by apply O_createWager_fails in H.
Qed.

Lemma O_call_accept ctx k s s' ret tr ev :
  O.call ctx (AcceptWager k) s = (s', Success ret tr ev) ↔
  let w := O.wager_at (store s) k in
  O.status w = 0 ∧ O.amount w ≤ msg_value ctx ∧
  isParticipant (msg_sender ctx) (O.participants_at (store s) k) = true ∧
  s' = {| store := O.set_wager (store s) k (O.with_status 1 w);
          balance := balance s + msg_value ctx |} ∧
  ret = None ∧ tr = [] ∧ ev = [].
Proof.
  rewrite O_call_Success. simpl. rewrite bind_Ok. split.
  - intros ([] & t' & H & E'%ret_Ok).
    apply (proj1 (O_acceptWager_Ok _ _ _ _)) in H. simpl in H.
    destruct H as (? & ? & ? & E).
    destruct s'; unfold with_st in *; simpl in *. simplify_eq. by split_and!.
  - intros (? & ? & ? & -> & -> & -> & ->).
    eexists _, _. split; [by apply (proj2 (O_acceptWager_Ok _ _ _ _)) | done].
Qed.

Lemma O_call_resolve ctx k win evd s s' ret tr ev :
  O.call ctx (ResolveWager k win evd) s = (s', Success ret tr ev) ↔
  let w := O.wager_at (store s) k in
  let ps := O.participants_at (store s) k in
  let total := O.amount w * N.of_nat (length ps) in
  let due := O.charityEnabled w && (0 <? O.charityPercentage w)
             && negb (O.charityAddress w =? 0) in
  let charity := if due then (total * O.charityPercentage w) `div` 100 else 0 in
  msg_value ctx = 0 ∧ O.status w = 1 ∧ isParticipant win ps = true ∧
  total ≤ MAX_UINT256 ∧
  (due = true →
     total * O.charityPercentage w ≤ MAX_UINT256 ∧
     can_receive ctx (O.charityAddress w) = true) ∧
  charity ≤ total ∧ total ≤ balance s ∧ can_receive ctx win = true ∧
  s' = {| store := O_resolved ctx k win (store s)
                     (if due then Some charity else None);
          balance := balance s - total |} ∧
  ret = None ∧
  tr = (if due then [(O.charityAddress w, charity)] else [])
       ++ [(win, total - charity)] ∧
  ev = [WagerResolved k win].
Proof.
  rewrite O_call_Success. simpl. rewrite bind_Ok. split.
  - intros ([] & t' & H & E'%ret_Ok).
    apply (proj1 (O_resolveWager_Ok _ _ _ _ _)) in H. cbv zeta in H. simpl in H.
    destruct H as (Hv & ? & ? & ? & ? & ? & ? & ? & E).
    rewrite Hv, N.add_0_r in *.
    destruct s'; simpl in *. simplify_eq. by split_and!.
  - intros (Hv & ? & ? & ? & ? & ? & ? & ? & -> & -> & -> & ->).
    eexists _, _. split; [|done]. apply (proj2 (O_resolveWager_Ok _ _ _ _ _)).
    cbv zeta. simpl. rewrite Hv, N.add_0_r. by split_and!.
Qed.

Lemma O_call_cancel ctx k s s' ret tr ev :
  O.call ctx (CancelWager k) s = (s', Success ret tr ev) ↔
  let w := O.wager_at (store s) k in
  let ps := O.participants_at (store s) k in
  msg_value ctx = 0 ∧ (O.status w = 0 ∨ O.status w = 1) ∧
  (msg_sender ctx = O.owner (store s) ∨ ps !! 0%nat = Some (msg_sender ctx)) ∧
  O.amount w * N.of_nat (length ps) ≤ balance s ∧
  Forall (λ p, can_receive ctx p = true) ps ∧
  s' = {| store := O.set_wager (store s) k (O.with_status 3 w);
          balance := balance s - O.amount w * N.of_nat (length ps) |} ∧
  ret = None ∧ tr = refunds ps (O.amount w) ∧ ev = [].
Proof.
  rewrite O_call_Success. simpl. rewrite bind_Ok. split.
  - intros ([] & t' & H & E'%ret_Ok).
    apply (proj1 (O_cancelWager_Ok _ _ _ _)) in H. simpl in H.
    destruct H as (Hv & ? & ? & ? & ? & E).
    rewrite Hv, N.add_0_r in *.
    destruct s'; simpl in *. simplify_eq. by split_and!.
  - intros (Hv & ? & ? & ? & ? & -> & -> & -> & ->).
    eexists _, _. split; [|done]. apply (proj2 (O_cancelWager_Ok _ _ _ _)).
    simpl. rewrite Hv, N.add_0_r. by split_and!.
Qed.

(** ** The optimized variant simulates the baseline *)

Lemma same_wager_at b o k : same_wagers b o → O.wager_at o k = pack (B.wager_at b k).
Proof.
  intros H. pose proof (same_packed _ _ H k) as E.
  unfold O.getWager, packed, B.getWager in E. congruence.
Qed.

Lemma same_participants_at b o k :
  same_wagers b o → O.participants_at o k = B.participants (B.wager_at b k).
Proof.
  intros H. pose proof (same_packed _ _ H k) as E.
  unfold O.getWager, packed, B.getWager in E. congruence.
Qed.

Lemma same_condition_at b o k :
  same_wagers b o → O.condition_at o k = B.condition (B.wager_at b k).
Proof.
  intros H. pose proof (same_packed _ _ H k) as E.
  unfold O.getWager, packed, B.getWager in E. congruence.
Qed.

Lemma same_wagers_set_wager b o k w :
  same_wagers b o →
  B.participants w = B.participants (B.wager_at b k) →
  B.condition w = B.condition (B.wager_at b k) →
  B.charityDonated w = B.charityDonated (B.wager_at b k) →
  B.resolvedAt w = B.resolvedAt (B.wager_at b k) →
  same_wagers (B.set_wager b k w) (O.set_wager o k (pack w)).
Proof.
  intros H Hp Hc Hd Hr. split.
  - apply (same_counter _ _ H).
  - apply (same_owner _ _ H).
  - intros j. unfold O.getWager, packed, B.getWager.
    change (O.participants_at (O.set_wager o k (pack w)) j)
      with (O.participants_at o j).
    change (O.condition_at (O.set_wager o k (pack w)) j)
      with (O.condition_at o j).
    rewrite (same_participants_at _ _ _ H), (same_condition_at _ _ _ H).
    destruct (decide (k = j)) as [<-|Hne].
    + rewrite wager_at_set_eq, O_wager_at_set_eq. congruence.
    + rewrite wager_at_set_ne, O_wager_at_set_ne by done.
      by rewrite (same_wager_at _ _ _ H).
  - intros j. unfold B.getWager.
    change (O.charityDonated_at (O.set_wager o k (pack w)) j)
      with (O.charityDonated_at o j).
    rewrite (same_donated _ _ H). unfold B.getWager.
    destruct (decide (k = j)) as [<-|Hne].
    + by rewrite wager_at_set_eq.
    + by rewrite wager_at_set_ne.
  - intros j. unfold B.getWager.
    change (O.resolvedAt_at (O.set_wager o k (pack w)) j)
      with (O.resolvedAt_at o j).
    rewrite (same_resolvedAt _ _ H). unfold B.getWager.
    destruct (decide (k = j)) as [<-|Hne].
    + by rewrite wager_at_set_eq.
    + by rewrite wager_at_set_ne.
Qed.

Lemma same_wagers_resolved ctx b o k win :
  same_wagers b o → block_timestamp ctx < 2 ^ 64 →
  same_wagers
    (B.set_wager b k (resolved_wager ctx win (B.wager_at b k)))
    (O_resolved ctx k win o
       (if charityDue (B.wager_at b k)
        then Some (charityAmount (B.wager_at b k)) else None)).
Proof.
  intros H Hts. unfold O_resolved, resolved_wager.
  rewrite (N.mod_small _ _ Hts), (same_wager_at _ _ _ H).
  set (w := B.wager_at b k).
  split.
  - destruct (charityDue w); apply (same_counter _ _ H).
  - destruct (charityDue w); apply (same_owner _ _ H).
  - intros j. unfold O.getWager, packed, B.getWager.
    assert (∀ d, O.getWager (match d with
              | Some d' => O.set_charityDonated
                   (O.set_resolvedAt (O.set_wager o k
                      (O.with_winner win (O.with_status 2 (pack w)))) k
                      (block_timestamp ctx)) k d'
              | None => O.set_resolvedAt (O.set_wager o k
                      (O.with_winner win (O.with_status 2 (pack w)))) k
                      (block_timestamp ctx) end) j
            = (O.wager_at (O.set_wager o k
                 (O.with_winner win (O.with_status 2 (pack w)))) j,
               O.participants_at o j, O.condition_at o j)) as E.
    { by intros [d|]. }
    unfold O.getWager in E. rewrite E. clear E.
    rewrite (same_participants_at _ _ _ H), (same_condition_at _ _ _ H).
    destruct (decide (k = j)) as [<-|Hne].
    + rewrite wager_at_set_eq, O_wager_at_set_eq.
      by destruct (charityDue w).
    + rewrite wager_at_set_ne, O_wager_at_set_ne by done.
      by rewrite (same_wager_at _ _ _ H).
  - intros j. unfold B.getWager.
    pose proof (same_donated _ _ H j) as Hd. unfold B.getWager in Hd.
    destruct (decide (k = j)) as [<-|Hne].
    + rewrite wager_at_set_eq. destruct (charityDue w); simpl.
      * unfold O.charityDonated_at, O.set_charityDonated. simpl.
        by rewrite lookup_insert_eq.
      * done.
    + rewrite wager_at_set_ne by done. destruct (charityDue w); [|done].
      unfold O.charityDonated_at, O.set_charityDonated. simpl.
      by rewrite lookup_insert_ne.
  - intros j. unfold B.getWager.
    pose proof (same_resolvedAt _ _ H j) as Hd. unfold B.getWager in Hd.
    assert (∀ d, O.resolvedAt_at (match d with
              | Some d' => O.set_charityDonated
                   (O.set_resolvedAt (O.set_wager o k
                      (O.with_winner win (O.with_status 2 (pack w)))) k
                      (block_timestamp ctx)) k d'
              | None => O.set_resolvedAt (O.set_wager o k
                      (O.with_winner win (O.with_status 2 (pack w)))) k
                      (block_timestamp ctx) end) j
            = default 0 (<[k := block_timestamp ctx]> (O.resolvedAt o) !! j)) as E.
    { by intros [d|]. }
    rewrite E. clear E.
    destruct (decide (k = j)) as [<-|Hne].
    + rewrite wager_at_set_eq, lookup_insert_eq. by destruct (charityDue w).
    + by rewrite wager_at_set_ne, lookup_insert_ne.
Qed.

Lemma sim_accept ctx k b o :
  same_chain b o →
  same_chain (B.call ctx (AcceptWager k) b).1 (O.call ctx (AcceptWager k) o).1 ∧
  outcome (B.call ctx (AcceptWager k) b).2
  = outcome (O.call ctx (AcceptWager k) o).2.
Proof.
  intros [Hsame Hbal].
  destruct (call_cases ctx (AcceptWager k) b)
    as [(e & HB)|(b' & ret & tr & ev & HB)].
  - destruct (O_call_cases ctx (AcceptWager k) o)
      as [(e' & HO)|(o' & ret & tr & ev & HO)].
    + rewrite HB, HO. by split.
    + exfalso. apply O_call_accept in HO. cbv zeta in HO.
      rewrite (same_wager_at _ _ _ Hsame), (same_participants_at _ _ _ Hsame) in HO.
      simpl in HO. destruct HO as (? & ? & ? & _).
      assert (∃ b', B.call ctx (AcceptWager k) b = (b', Success None [] []))
        as [b' HB'].
      { eexists. apply call_accept. simpl. by split_and!. }
      congruence.
  - apply call_accept in HB as HB'. simpl in HB'.
    destruct HB' as (? & ? & ? & -> & -> & -> & ->).
    assert (O.call ctx (AcceptWager k) o
            = ({| store := O.set_wager (store o) k
                             (pack (B.with_status 1 (B.wager_at (store b) k)));
                  balance := balance o + msg_value ctx |},
               Success None [] [])) as HO.
    { apply O_call_accept. cbv zeta.
      rewrite (same_wager_at _ _ _ Hsame), (same_participants_at _ _ _ Hsame).
      simpl. by split_and!. }
    rewrite HB, HO. simpl. split; [|done]. split; simpl.
    + by apply same_wagers_set_wager.
    + by rewrite Hbal.
Qed.

Lemma sim_cancel ctx k b o :
  same_chain b o →
  same_chain (B.call ctx (CancelWager k) b).1 (O.call ctx (CancelWager k) o).1 ∧
  outcome (B.call ctx (CancelWager k) b).2
  = outcome (O.call ctx (CancelWager k) o).2.
Proof.
  intros [Hsame Hbal]. pose proof (same_owner _ _ Hsame) as Ho.
  destruct (call_cases ctx (CancelWager k) b)
    as [(e & HB)|(b' & ret & tr & ev & HB)].
  - destruct (O_call_cases ctx (CancelWager k) o)
      as [(e' & HO)|(o' & ret & tr & ev & HO)].
    + rewrite HB, HO. by split.
    + exfalso. apply O_call_cancel in HO. cbv zeta in HO.
      rewrite (same_wager_at _ _ _ Hsame), (same_participants_at _ _ _ Hsame),
        Ho, Hbal in HO.
      simpl in HO. destruct HO as (? & ? & ? & ? & ? & _).
      assert (∃ b' tr, B.call ctx (CancelWager k) b = (b', Success None tr []))
        as (b' & tr' & HB').
      { eexists _, _. apply call_cancel. simpl. by split_and!. }
      congruence.
  - apply call_cancel in HB as HB'. simpl in HB'.
    destruct HB' as (? & ? & ? & ? & ? & -> & -> & -> & ->).
    assert (O.call ctx (CancelWager k) o
            = ({| store := O.set_wager (store o) k
                             (pack (B.with_status 3 (B.wager_at (store b) k)));
                  balance := balance o
                    - B.amount (B.wager_at (store b) k)
                      * N.of_nat (length (B.participants (B.wager_at (store b) k))) |},
               Success None
                 (refunds (B.participants (B.wager_at (store b) k))
                          (B.amount (B.wager_at (store b) k))) [])) as HO.
    { apply O_call_cancel. cbv zeta.
      rewrite (same_wager_at _ _ _ Hsame), (same_participants_at _ _ _ Hsame),
        Ho, Hbal.
      simpl. by split_and!. }
    rewrite HB, HO. simpl. split; [|done]. split; simpl.
    + by apply same_wagers_set_wager.
    + by rewrite Hbal.
Qed.

Lemma sim_resolve ctx k win evd b o :
  same_chain b o → block_timestamp ctx < 2 ^ 64 →
  same_chain (B.call ctx (ResolveWager k win evd) b).1
             (O.call ctx (ResolveWager k win evd) o).1 ∧
  outcome (B.call ctx (ResolveWager k win evd) b).2
  = outcome (O.call ctx (ResolveWager k win evd) o).2.
Proof.
  intros [Hsame Hbal] Hts.
  destruct (call_cases ctx (ResolveWager k win evd) b)
    as [(e & HB)|(b' & ret & tr & ev & HB)].
  - destruct (O_call_cases ctx (ResolveWager k win evd) o)
      as [(e' & HO)|(o' & ret & tr & ev & HO)].
    + rewrite HB, HO. by split.
    + exfalso. apply O_call_resolve in HO. cbv zeta in HO.
      rewrite (same_wager_at _ _ _ Hsame), (same_participants_at _ _ _ Hsame),
        Hbal in HO.
      simpl in HO. destruct HO as (? & ? & ? & ? & ? & ? & ? & ? & _).
      assert (∃ b' tr ev, B.call ctx (ResolveWager k win evd) b
                          = (b', Success None tr ev))
        as (b' & tr' & ev' & HB').
      { eexists _, _, _. apply call_resolve. simpl. by split_and!. }
      congruence.
  - apply call_resolve in HB as HB'. simpl in HB'.
    destruct HB' as (? & ? & ? & ? & ? & ? & ? & ? & -> & -> & -> & ->).
    assert (O.call ctx (ResolveWager k win evd) o
            = ({| store := O_resolved ctx k win (store o)
                     (if charityDue (B.wager_at (store b) k)
                      then Some (charityAmount (B.wager_at (store b) k))
                      else None);
                  balance := balance o - totalPool (B.wager_at (store b) k) |},
               Success None (payout (B.wager_at (store b) k) win)
                 [WagerResolved k win])) as HO.
    { apply O_call_resolve. cbv zeta.
      rewrite (same_wager_at _ _ _ Hsame), (same_participants_at _ _ _ Hsame),
        Hbal.
      simpl. by split_and!. }
    rewrite HB, HO. simpl. split; [|done]. split; simpl.
    + by apply same_wagers_resolved.
    + by rewrite Hbal.
Qed.

Lemma O_run_cons s ctx c calls :
  (O.run s ((ctx, c) :: calls)).1 = (O.run (O.call ctx c s).1 calls).1.
Proof.
  simpl. destruct (O.call ctx c s) as [s' r]. simpl.
  by destruct (O.run s' calls).
Qed.

Lemma O_run_receipts s ctx c calls :
  (O.run s ((ctx, c) :: calls)).2
  = (O.call ctx c s).2 :: (O.run (O.call ctx c s).1 calls).2.
Proof.
  simpl. destruct (O.call ctx c s) as [s' r]. simpl.
  by destruct (O.run s' calls).
Qed.

Lemma sim_call ctx c b o :
  same_chain b o → later_call (ctx, c) →
  same_chain (B.call ctx c b).1 (O.call ctx c o).1 ∧
  outcome (B.call ctx c b).2 = outcome (O.call ctx c o).2.
Proof.
  intros Hsame Hlater.
  destruct c as [ps a cond ce cp ca | k | k win evd | k].
  - done.
  - by apply sim_accept.
  - by apply sim_resolve.
  - by apply sim_cancel.
Qed.

Lemma verdict_outcome r r' : outcome r = outcome r' → verdict r = verdict r'.
Proof. destruct r, r'; simpl; congruence. Qed.

Lemma sim_run calls b o :
  same_chain b o → Forall later_call calls →
  same_chain (B.run b calls).1 (O.run o calls).1 ∧
  verdict <$> (O.run o calls).2 = verdict <$> (B.run b calls).2.
Proof.
  revert b o. induction calls as [|[ctx c] calls IH]; intros b o Hsame Hlater.
  - by split.
  - inversion_clear Hlater as [|?? Hlater1 Hlater2].
    rewrite run_cons, O_run_cons, run_receipts, O_run_receipts.
    destruct (sim_call ctx c b o Hsame Hlater1) as [Hsame' Hout].
    destruct (IH (B.call ctx c b).1 (O.call ctx c o).1 Hsame' Hlater2)
      as [Hfinal Houts].
    split; [done|]. rewrite !fmap_cons. f_equal; [|done].
    symmetry. by apply verdict_outcome.
Qed.

(** The packed storage of a baseline storage holds the same wagers. *)
Lemma same_wagers_packed b : same_wagers b (packed_storage b).
Proof.
  split; [done | done | | |]; intros k.
  - unfold O.getWager, O.wager_at, O.participants_at, O.condition_at, packed,
      B.getWager, B.wager_at, packed_storage. simpl.
    rewrite !lookup_fmap. by destruct (B.wagers b !! k).
  - unfold O.charityDonated_at, B.getWager, B.wager_at, packed_storage. simpl.
    rewrite lookup_fmap. by destruct (B.wagers b !! k).
  - unfold O.resolvedAt_at, B.getWager, B.wager_at, packed_storage. simpl.
    rewrite lookup_fmap. by destruct (B.wagers b !! k).
Qed.

Lemma same_chain_packed b : same_chain b (packed_chain b).
Proof. split; [apply same_wagers_packed | done]. Qed.

(** C6, as the code has it by design. From states in which the two variants
    hold the same wagers, for every sequence of [acceptWager],
    [resolveWager] and [cancelWager] calls with the same arguments (the
    block time of a resolution fitting a [uint64]), the two variants accept
    and reject the same calls, make the same value transfers and hold the
    same balance; the optimized [getWager] returns the id, amount, status,
    winner, charity flag, percentage and address and creation time of the
    baseline record together with its participants and condition;
    [charityDonated] and [resolvedAt] are not part of what the optimized
    [getWager] returns but are read from the mappings of those names, which
    hold the values of the baseline fields. [createWager] is left out. *)
Theorem optimized_agrees_with_baseline b o calls :
  same_chain b o → Forall later_call calls →
  let rb := B.run b calls in
  let ro := O.run o calls in
  verdict <$> ro.2 = verdict <$> rb.2 ∧
  balance ro.1 = balance rb.1 ∧
  ∀ k,
    O.getWager (store ro.1) k = packed (B.getWager (store rb.1) k) ∧
    O.charityDonated_at (store ro.1) k
      = B.charityDonated (B.getWager (store rb.1) k) ∧
    O.resolvedAt_at (store ro.1) k = B.resolvedAt (B.getWager (store rb.1) k).
Proof.
  intros Hsame Hlater. cbv zeta.
  destruct (sim_run calls b o Hsame Hlater) as [[Hfinal Hbal] Hout].
  split_and!; [done | done |]. intros k. split_and!.
  - apply (same_packed _ _ Hfinal).
  - apply (same_donated _ _ Hfinal).
  - apply (same_resolvedAt _ _ Hfinal).
Qed.

Lemma optimized_agrees_with_baseline_witness :
  let calls := [(tx alice 0 7, ResolveWager 1 alice "forecast")] in
  let rb := B.run active_state calls in
  let ro := O.run (packed_chain active_state) calls in
  verdict <$> ro.2 = [Some [(carol, 20); (alice, 180)]] ∧
  verdict <$> rb.2 = [Some [(carol, 20); (alice, 180)]] ∧
  O.getWager (store ro.1) 1 = packed (B.getWager (store rb.1) 1) ∧
  O.resolvedAt_at (store ro.1) 1 = 7.
Proof.
  cbv zeta.
  destruct (optimized_agrees_with_baseline active_state
              (packed_chain active_state)
              [(tx alice 0 7, ResolveWager 1 alice "forecast")])
    as (Hout & _ & Hget).
  - apply same_chain_packed.
  - repeat constructor.
  - assert (verdict <$> (B.run active_state
                           [(tx alice 0 7, ResolveWager 1 alice "forecast")]).2
            = [Some [(carol, 20); (alice, 180)]]) as Hb.
    { vm_compute. reflexivity. }
    destruct (Hget 1) as (Hpacked & _ & Htime).
    split; [by rewrite Hout|]. split; [exact Hb|]. split; [exact Hpacked|].
    rewrite Htime. vm_compute. reflexivity.
Defined.

(** C6, as stated, fails: the optimized [getWager] does not determine the
    logical record. Two baseline states that differ only in the time of a
    resolution are held by optimized states with the same [getWager], so no
    way of assembling the result of the optimized [getWager] yields the
    baseline record in both. *)
Lemma optimized_getWager_loses_fields :
  ¬ ∃ assemble : O.Wager * list address * string → B.Wager,
      ∀ b o k, same_wagers b o →
        assemble (O.getWager o k) = B.getWager b k.
Proof.
  intros [assemble H].
  set (at_ t := store (B.run active_state
                         [(tx alice 0 t, ResolveWager 1 alice "forecast")]).1).
  pose proof (H (at_ 7) (packed_storage (at_ 7)) 1 (same_wagers_packed _)) as H7.
  pose proof (H (at_ 8) (packed_storage (at_ 8)) 1 (same_wagers_packed _)) as H8.
  vm_compute in H7, H8. rewrite H7 in H8. discriminate H8.
Qed.

(** Why a resolution is compared at a block time that fits the packed type:
    a block time of 2^64 is stored whole by the baseline and cut to 0 by
    [uint64(block.timestamp)]. *)
Lemma optimized_truncates_a_wide_time :
  let c := ResolveWager 1 alice "forecast" in
  B.resolvedAt
    (B.getWager (store (B.call (tx alice 0 (2 ^ 64)) c active_state).1) 1)
  = 2 ^ 64 ∧
  O.resolvedAt_at
    (store (O.call (tx alice 0 (2 ^ 64)) c (packed_chain active_state)).1) 1
  = 0.
Proof. cbv zeta. split; vm_compute; reflexivity. Qed.

(** ** Cancellation *)

Lemma O_succeeded_call ctx c s :
  succeeded (O.call ctx c s).2 = true ↔
  ∃ s' ret tr ev, O.call ctx c s = (s', Success ret tr ev).
Proof.
  destruct (O_call_cases ctx c s) as [(e & H)|(s' & ret & tr & ev & H)];
    rewrite H; simpl; split; try done.
  - by intros (? & ? & ? & ? & ?).
  - eauto 6.
Qed.

(** C3. In both variants, on a wager that is Pending or Active,
    [cancelWager] goes through for the owner or [participants[0]] when no
    value is attached, the balance covers the refunds and every participant
    accepts value; a successful [cancelWager] was called by the owner or by
    [participants[0]], leaves the wager Cancelled and transfers exactly
    [amount] to each entry of [participants], in order, whether or not that
    participant ever staked; a caller who is neither is rejected. *)
Theorem cancelWager_refunds_every_participant ctx k :
  (∀ s : Chain B.Storage,
     let w := B.getWager (store s) k in
     B.status w = Pending ∨ B.status w = Active →
     (msg_sender ctx = B.owner (store s) ∨
      B.participants w !! 0%nat = Some (msg_sender ctx) →
      msg_value ctx = 0 →
      B.amount w * N.of_nat (length (B.participants w)) ≤ balance s →
      Forall (λ p, can_receive ctx p = true) (B.participants w) →
      succeeded (B.call ctx (CancelWager k) s).2 = true) ∧
     (∀ s' ret transfers events,
        B.call ctx (CancelWager k) s = (s', Success ret transfers events) →
        (msg_sender ctx = B.owner (store s) ∨
         B.participants w !! 0%nat = Some (msg_sender ctx)) ∧
        B.status (B.getWager (store s') k) = Cancelled ∧
        transfers = (λ p, (p, B.amount w)) <$> B.participants w) ∧
     (msg_sender ctx ≠ B.owner (store s) →
      B.participants w !! 0%nat ≠ Some (msg_sender ctx) →
      succeeded (B.call ctx (CancelWager k) s).2 = false)) ∧
  (∀ s : Chain O.Storage,
     let '(w, ps, _) := O.getWager (store s) k in
     O.status w = Pending ∨ O.status w = Active →
     (msg_sender ctx = O.owner (store s) ∨ ps !! 0%nat = Some (msg_sender ctx) →
      msg_value ctx = 0 →
      O.amount w * N.of_nat (length ps) ≤ balance s →
      Forall (λ p, can_receive ctx p = true) ps →
      succeeded (O.call ctx (CancelWager k) s).2 = true) ∧
     (∀ s' ret transfers events,
        O.call ctx (CancelWager k) s = (s', Success ret transfers events) →
        (msg_sender ctx = O.owner (store s) ∨
         ps !! 0%nat = Some (msg_sender ctx)) ∧
        O.status (O.getWager (store s') k).1.1 = Cancelled ∧
        transfers = (λ p, (p, O.amount w)) <$> ps) ∧
     (msg_sender ctx ≠ O.owner (store s) →
      ps !! 0%nat ≠ Some (msg_sender ctx) →
      succeeded (O.call ctx (CancelWager k) s).2 = false)).
Proof.
  split.
  - intros s. unfold B.getWager. cbv zeta. intros Hs. split_and!.
    + intros Ha Hv Hb Hr. apply succeeded_call. eexists _, _, _, _.
      apply call_cancel. simpl. by split_and!.
    + intros s' ret transfers events H. apply call_cancel in H. simpl in H.
      destruct H as (_ & _ & Ha & _ & _ & -> & _ & -> & _). simpl.
      by rewrite wager_at_set_eq.
    + intros Ho Hp. destruct (succeeded _) eqn:E; [|done].
      apply succeeded_call in E as (s' & ret & tr & ev & H).
      apply call_cancel in H. simpl in H.
      by destruct H as (_ & _ & [? | ?] & _).
  - intros s. unfold O.getWager. intros Hs. split_and!.
    + intros Ha Hv Hb Hr. apply O_succeeded_call. eexists _, _, _, _.
      apply O_call_cancel. simpl. by split_and!.
    + intros s' ret transfers events H. apply O_call_cancel in H. simpl in H.
      destruct H as (_ & _ & Ha & _ & _ & -> & _ & -> & _). simpl.
      by rewrite O_wager_at_set_eq.
    + intros Ho Hp. destruct (succeeded _) eqn:E; [|done].
      apply O_succeeded_call in E as (s' & ret & tr & ev & H).
      apply O_call_cancel in H. simpl in H.
      by destruct H as (_ & _ & [? | ?] & _).
Qed.

Lemma cancelWager_refunds_every_participant_witness :
  (B.call (tx alice 0 9) (CancelWager 1) three_way_state).2
    = Success None [(alice, 50); (bob, 50); (dave, 50)] [] ∧
  B.status
    (B.getWager (store (B.call (tx alice 0 9) (CancelWager 1) three_way_state).1) 1)
    = Cancelled ∧
  succeeded (B.call (tx dave 0 9) (CancelWager 1) three_way_state).2 = false ∧
  succeeded (O.call (tx dave 0 9) (CancelWager 1) three_way_state_packed).2 = false.
Proof.
  destruct (cancelWager_refunds_every_participant (tx alice 0 9) 1) as [HB _].
  destruct (cancelWager_refunds_every_participant (tx dave 0 9) 1) as [HB' HO'].
  specialize (HB three_way_state). specialize (HB' three_way_state).
  specialize (HO' three_way_state_packed).
  cbv zeta in HB, HB'. unfold O.getWager in HO'. cbv beta iota zeta in HO'.
  destruct HB as (_ & Hpay & _); [left; vm_compute; reflexivity|].
  destruct HB' as (_ & _ & Hrej); [left; vm_compute; reflexivity|].
  destruct HO' as (_ & _ & HrejO); [left; vm_compute; reflexivity|].
  destruct (Hpay (B.call (tx alice 0 9) (CancelWager 1) three_way_state).1
              None [(alice, 50); (bob, 50); (dave, 50)] [])
    as (_ & Hcancelled & _).
  { vm_compute. reflexivity. }
  split; [vm_compute; reflexivity|]. split; [exact Hcancelled|]. split.
  - apply Hrej; vm_compute; discriminate.
  - apply HrejO; vm_compute; discriminate.
Defined.

(** * Further properties of the contracts and their callers *)

(** ** Creation *)

Lemma call_receipt ctx c s :
  (B.call ctx c s).2
  = match B.dispatch ctx c {| st := store s; bal := balance s + msg_value ctx;
                              out := []; evs := [] |} with
    | Ok (r, t) => Success r (out t) (evs t)
    | Revert e => Reverted e
    end.
Proof.
  unfold B.call, transact. by destruct (B.dispatch _ _ _) as [[r t]|e].
Qed.

Ltac run_call :=
  rewrite call_receipt;
  unfold B.dispatch, B.createWager, B.acceptWager, B.resolveWager,
    B.cancelWager, B.read, B.update, nonpayable, require, revert, load,
    store_, emit, checked_add, checked_mul, checked_sub, mbind, M_bind,
    mret, M_ret;
  cbn [st bal out evs].

(** X1. [createWager] succeeds exactly when the payment covers the amount,
    there are at least two participants, the percentage is at most 100 and
    the counter can still be incremented; a failing call reports the first
    guard that fails (the percentage being a [uint8]); a successful call returns the counter value, writes
    exactly the record of its arguments (Pending, no winner, nothing
    donated, created now), leaves every other record and the owner alone,
    sends nothing out and keeps the whole attached value, also what exceeds
    the amount. *)
Theorem createWager_guards_and_effect ctx ps a cond ce cp ca s :
  let c := CreateWager ps a cond ce cp ca in
  let k := B.nextWagerId (store s) in
  (succeeded (B.call ctx c s).2 = true ↔
     a ≤ msg_value ctx ∧ (2 ≤ length ps)%nat ∧ cp ≤ 100 ∧ k < MAX_UINT256) ∧
  (msg_value ctx < a → (B.call ctx c s).2 = Reverted InsufficientPayment) ∧
  (a ≤ msg_value ctx → (length ps < 2)%nat →
   (B.call ctx c s).2 = Reverted NeedAtLeast2Participants) ∧
  (a ≤ msg_value ctx → (2 ≤ length ps)%nat → 100 < cp → cp < 2 ^ 8 →
   (B.call ctx c s).2 = Reverted CharityPercentageTooHigh) ∧
  (succeeded (B.call ctx c s).2 = true →
   let s' := (B.call ctx c s).1 in
   (B.call ctx c s).2 = Success (Some k) [] [WagerCreated k (msg_sender ctx) a] ∧
   B.getWager (store s') k
   = {| B.id := k; B.participants := ps; B.amount := a; B.condition := cond;
        B.status := Pending; B.winner := 0; B.charityEnabled := ce;
        B.charityPercentage := cp; B.charityAddress := ca;
        B.charityDonated := 0; B.createdAt := block_timestamp ctx;
        B.resolvedAt := 0 |} ∧
   (∀ j, j ≠ k → B.getWager (store s') j = B.getWager (store s) j) ∧
   B.nextWagerId (store s') = k + 1 ∧
   B.owner (store s') = B.owner (store s) ∧
   balance s' = balance s + msg_value ctx).
Proof.
  cbv zeta. split_and!.
  - rewrite succeeded_call. split.
    + intros (s' & ret & tr & ev & H).
      apply call_create in H as (? & ? & ? & ? & _).
      split_and!; try done. unfold MAX_UINT256 in *. lia.
    + intros (? & ? & ? & ?). eexists _, _, _, _. apply call_create.
      split_and!; try done. unfold MAX_UINT256 in *. lia.
  - intros Hlt. run_call.
    destruct (N.leb_spec a (msg_value ctx)); [lia | done].
  - intros Ha Hl. run_call.
    destruct (N.leb_spec a (msg_value ctx)); [|lia].
    destruct (N.leb_spec 2 (N.of_nat (length ps))); [lia | done].
  - intros Ha Hl Hp _. run_call.
    destruct (N.leb_spec a (msg_value ctx)); [|lia].
    destruct (N.leb_spec 2 (N.of_nat (length ps))); [|lia].
    destruct (N.leb_spec cp 100); [lia | done].
  - intros Hok. apply succeeded_call in Hok as (s' & ret & tr & ev & H).
    rewrite H. simpl.
    apply call_create in H as (_ & _ & _ & _ & -> & -> & -> & ->). simpl.
    unfold B.getWager. rewrite wager_at_add_eq. split_and!; try done.
    intros j Hj. by rewrite wager_at_add_ne.
Qed.

(** ** Ids that were never handed out *)

(** X2. On a reachable state the id field of [getWager] tells whether a
    wager exists: it is the id itself for a wager [createWager] made and 0
    for every other id, whose participants list is empty. *)
Theorem getWager_tells_existence s k :
  B.reachable s →
  let w := B.getWager (store s) k in
  (created (store s) k → B.id w = k ∧ B.participants w ≠ []) ∧
  (¬ created (store s) k →
   B.id w = 0 ∧ B.participants w = [] ∧ B.amount w = 0 ∧
   (B.status w = Pending ∨ B.status w = Cancelled)) ∧
  (created (store s) k ↔ B.id w ≠ 0).
Proof.
  intros Hreach. pose proof (reachable_invariant _ Hreach) as Hinv.
  unfold B.getWager. cbv zeta.
  assert (created (store s) k →
          B.id (B.wager_at (store s) k) = k ∧
          B.participants (B.wager_at (store s) k) ≠ []) as Hyes.
  { intros Hk. destruct (inv_created _ Hinv k Hk) as [[Hl _ _ _ _] Hid].
    split; [done|]. intros E. rewrite E in Hl. simpl in Hl. lia. }
  assert (¬ created (store s) k →
          B.id (B.wager_at (store s) k) = 0 ∧
          B.participants (B.wager_at (store s) k) = [] ∧
          B.amount (B.wager_at (store s) k) = 0 ∧
          (B.status (B.wager_at (store s) k) = Pending ∨
           B.status (B.wager_at (store s) k) = Cancelled)) as Hno.
  { intros Hk. destruct (inv_blank _ Hinv k Hk) as [-> | ->]; simpl;
      split_and!; try done; [by left | by right]. }
  split_and!; [done | done |]. split.
  - intros Hk. destruct (Hyes Hk) as [-> _]. destruct Hk. lia.
  - intros Hid. destruct (decide (created (store s) k)) as [|Hk]; [done|].
    by destruct (Hno Hk) as [? _].
Qed.

Lemma getWager_tells_existence_witness :
  created (store pending_state) 1 ∧
  B.id (B.getWager (store pending_state) 1) = 1 ∧
  B.participants (B.getWager (store pending_state) 1) ≠ [].
Proof.
  assert (B.reachable pending_state) as Hr.
  { apply reachable_run, B.reach_deploy. }
  assert (created (store pending_state) 1) as Hk.
  { split; vm_compute; congruence. }
  destruct (getWager_tells_existence pending_state 1 Hr) as (Hyes & _ & _).
  split; [exact Hk | exact (Hyes Hk)].
Defined.

(** X3. What the four operations do on an id that was never handed out, on a
    reachable state: [acceptWager] reverts with "Not a participant" (the
    empty slot reads as Pending with amount 0), [resolveWager] with "Wager
    not active", [cancelWager] from anyone but the owner with the
    out-of-bounds panic, while the owner's [cancelWager] succeeds, pays
    nobody and leaves the slot Cancelled; on a slot the owner has cancelled
    that way, accept reverts with "Wager not pending" and cancel with
    "Cannot cancel". *)
Theorem calls_on_an_unwritten_id s k :
  B.reachable s → ¬ created (store s) k →
  let w := B.getWager (store s) k in
  (∀ ctx, (B.call ctx (AcceptWager k) s).2
          = Reverted (if B.status w =? 0 then NotAParticipant else WagerNotPending)) ∧
  (∀ ctx winner evidence, msg_value ctx = 0 →
     (B.call ctx (ResolveWager k winner evidence) s).2 = Reverted WagerNotActive) ∧
  (∀ ctx, msg_value ctx = 0 → msg_sender ctx ≠ B.owner (store s) →
     (B.call ctx (CancelWager k) s).2
     = Reverted (if B.status w =? 0 then PanicIndexOutOfBounds else CannotCancel)) ∧
  (∀ ctx, msg_value ctx = 0 → msg_sender ctx = B.owner (store s) →
     B.status w = Pending →
     (B.call ctx (CancelWager k) s).2 = Success None [] [] ∧
     B.getWager (store (B.call ctx (CancelWager k) s).1) k
     = B.with_status Cancelled B.zero_wager ∧
     balance (B.call ctx (CancelWager k) s).1 = balance s).
Proof.
  intros Hreach Hk. pose proof (reachable_invariant _ Hreach) as Hinv.
  unfold B.getWager. cbv zeta.
  pose proof (inv_blank _ Hinv k Hk) as Hblank. split_and!.
  - intros ctx. run_call. destruct Hblank as [-> | ->]; cbn; [|done].
    by destruct (msg_value ctx).
  - intros ctx winner evidence Hv. run_call. rewrite Hv.
    change (0 =? 0) with true. cbn [st bal out evs].
    by destruct Hblank as [-> | ->].
  - intros ctx Hv Ho. run_call. rewrite Hv.
    change (0 =? 0) with true. cbn [st bal out evs].
    apply N.eqb_neq in Ho. destruct Hblank as [-> | ->]; cbn; [|done].
    by rewrite Ho.
  - intros ctx Hv Ho Hs.
    assert (B.wager_at (store s) k = B.zero_wager) as E.
    { destruct Hblank as [E | E]; [done|]. by rewrite E in Hs. }
    assert (B.call ctx (CancelWager k) s
            = ({| store := B.set_wager (store s) k (B.with_status 3 B.zero_wager);
                  balance := balance s |}, Success None [] [])) as Hcall.
    { apply call_cancel. simpl. rewrite E. simpl.
      split_and!; try done; [by left | by left | lia | f_equal; lia]. }
    rewrite Hcall. simpl. by rewrite wager_at_set_eq.
Qed.

Lemma calls_on_an_unwritten_id_witness :
  ¬ created (store (B.deploy admin 0)) 1 ∧
  (B.call (tx bob 0 1) (AcceptWager 1) (B.deploy admin 0)).2
  = Reverted NotAParticipant ∧
  (B.call (tx bob 0 1) (CancelWager 1) (B.deploy admin 0)).2
  = Reverted PanicIndexOutOfBounds.
Proof.
  assert (B.reachable (B.deploy admin 0)) as Hr by apply B.reach_deploy.
  assert (¬ created (store (B.deploy admin 0)) 1) as Hk.
  { intros [_ Hlt]. vm_compute in Hlt. discriminate Hlt. }
  destruct (calls_on_an_unwritten_id (B.deploy admin 0) 1 Hr Hk)
    as (Hacc & _ & Hcan & _).
  split; [exact Hk|]. split.
  - exact (Hacc (tx bob 0 1)).
  - apply (Hcan (tx bob 0 1)); [reflexivity|]. vm_compute. discriminate.
Defined.

(** ** One acceptance per wager *)

Lemma edge_leaves_pending k c a b : edge k c a b → b ≠ Pending.
Proof. by inversion 1. Qed.

Lemma path_never_returns_to_pending k a b :
  rtc (λ a b, ∃ c, edge k c a b) a b → a ≠ Pending → b ≠ Pending.
Proof.
  induction 1 as [|a b c [cl Hedge] _ IH]; [done|].
  intros _. apply IH. by eapply edge_leaves_pending.
Qed.

(** X4. A wager takes in at most one acceptance: once an existing wager has
    left Pending, [acceptWager] on it fails after any further sequence of
    calls; in particular, after one participant has accepted, no other
    participant can ever stake. *)
Theorem acceptWager_at_most_once s k :
  B.reachable s →
  (created (store s) k → B.status (B.getWager (store s) k) ≠ Pending →
   ∀ calls ctx,
     succeeded (B.call ctx (AcceptWager k) (B.run s calls).1).2 = false) ∧
  (∀ ctx0 calls ctx,
     succeeded (B.call ctx0 (AcceptWager k) s).2 = true →
     succeeded
       (B.call ctx (AcceptWager k)
          (B.run (B.call ctx0 (AcceptWager k) s).1 calls).1).2 = false).
Proof.
  intros Hreach.
  assert (∀ s0, B.reachable s0 → created (store s0) k →
            B.status (B.wager_at (store s0) k) ≠ Pending →
            ∀ calls ctx,
              succeeded (B.call ctx (AcceptWager k) (B.run s0 calls).1).2 = false)
    as Hgen.
  { intros s0 Hr0 Hk Hs calls ctx.
    pose proof (path_never_returns_to_pending _ _ _ (status_path s0 k calls Hk) Hs)
      as Hlater.
    destruct (succeeded _) eqn:E; [|done].
    apply succeeded_call in E as (s' & ret & tr & ev & H).
    apply call_accept in H. simpl in H. by destruct H as (? & _). }
  split.
  - by apply Hgen.
  - intros ctx0 calls ctx Hok.
    apply succeeded_call in Hok as (s1 & ret & tr & ev & H). rewrite H. simpl.
    pose proof (B.reach_call ctx0 (AcceptWager k) s Hreach) as Hr1.
    rewrite H in Hr1. simpl in Hr1.
    apply call_accept in H. simpl in H. destruct H as (_ & _ & Hp & -> & _).
    apply Hgen; [done | |].
    + split; apply (participant_created _ _ _ (reachable_invariant _ Hreach) Hp).
    + simpl. rewrite wager_at_set_eq. done.
Qed.

Lemma acceptWager_at_most_once_witness :
  succeeded (B.call (tx bob 100 6) (AcceptWager 1) pending_state).2 = true ∧
  succeeded
    (B.call (tx alice 100 7) (AcceptWager 1)
       (B.run (B.call (tx bob 100 6) (AcceptWager 1) pending_state).1 []).1).2
  = false.
Proof.
  assert (B.reachable pending_state) as Hr.
  { apply reachable_run, B.reach_deploy. }
  assert (succeeded (B.call (tx bob 100 6) (AcceptWager 1) pending_state).2 = true)
    as Hok.
  { vm_compute. reflexivity. }
  destruct (acceptWager_at_most_once pending_state 1 Hr) as (_ & Honce).
  split; [exact Hok|].
  exact (Honce (tx bob 100 6) [] (tx alice 100 7) Hok).
Defined.

(** ** The terms of a wager *)

Lemma terms_step ctx c s k :
  created (store s) k →
  let w := B.wager_at (store s) k in
  let w' := B.wager_at (store (B.call ctx c s).1) k in
  B.id w' = B.id w ∧ B.participants w' = B.participants w ∧
  B.amount w' = B.amount w ∧ B.condition w' = B.condition w ∧
  B.charityEnabled w' = B.charityEnabled w ∧
  B.charityPercentage w' = B.charityPercentage w ∧
  B.charityAddress w' = B.charityAddress w ∧
  B.createdAt w' = B.createdAt w.
Proof.
  intros [Hk1 Hk2]. cbv zeta.
  destruct (call_cases ctx c s) as [(e & H)|(s' & ret & tr & ev & H)];
    rewrite H; [done|]. simpl.
  destruct c as [ps a cond ce cp ca | j | j win evd | j].
  - apply call_create in H as (_ & _ & _ & _ & -> & _). simpl.
    by rewrite wager_at_add_ne by lia.
  - apply call_accept in H. simpl in H. destruct H as (_ & _ & _ & -> & _).
    simpl. destruct (decide (j = k)) as [->|Hne].
    + by rewrite wager_at_set_eq.
    + by rewrite wager_at_set_ne.
  - apply call_resolve in H. simpl in H.
    destruct H as (_ & _ & _ & _ & _ & _ & _ & _ & -> & _).
    simpl. destruct (decide (j = k)) as [->|Hne].
    + rewrite wager_at_set_eq. unfold resolved_wager.
      by destruct (charityDue _).
    + by rewrite wager_at_set_ne.
  - apply call_cancel in H. simpl in H.
    destruct H as (_ & _ & _ & _ & _ & -> & _).
    simpl. destruct (decide (j = k)) as [->|Hne].
    + by rewrite wager_at_set_eq.
    + by rewrite wager_at_set_ne.
Qed.

(** X5. The terms of an existing wager never change: whatever calls follow,
    its id, participants, amount, condition, charity flag, percentage and
    address and its creation time stay as [createWager] wrote them. *)
Theorem wager_terms_are_fixed s k calls :
  created (store s) k →
  let w := B.getWager (store s) k in
  let w' := B.getWager (store (B.run s calls).1) k in
  B.id w' = B.id w ∧ B.participants w' = B.participants w ∧
  B.amount w' = B.amount w ∧ B.condition w' = B.condition w ∧
  B.charityEnabled w' = B.charityEnabled w ∧
  B.charityPercentage w' = B.charityPercentage w ∧
  B.charityAddress w' = B.charityAddress w ∧
  B.createdAt w' = B.createdAt w.
Proof.
  unfold B.getWager. cbv zeta. revert s.
  induction calls as [|[ctx c] calls IH]; intros s Hk; [done|].
  rewrite run_cons.
  destruct (IH (B.call ctx c s).1 (created_call ctx c s k Hk))
    as (-> & -> & -> & -> & -> & -> & -> & ->).
  by apply terms_step.
Qed.

Lemma wager_terms_are_fixed_witness :
  created (store pending_state) 1 ∧
  B.amount
    (B.getWager
       (store (B.run pending_state [(tx bob 100 6, AcceptWager 1)]).1) 1)
  = B.amount (B.getWager (store pending_state) 1).
Proof.
  assert (created (store pending_state) 1) as Hk.
  { split; vm_compute; congruence. }
  destruct (wager_terms_are_fixed pending_state 1
              [(tx bob 100 6, AcceptWager 1)] Hk) as (_ & _ & Ha & _).
  split; [exact Hk | exact Ha].
Defined.

(** ** Who may resolve, and who is paid *)

(** X6. [resolveWager] asks nothing of its caller: in both variants the
    result of the call is the same whoever sends it. *)
Theorem resolveWager_ignores_the_caller who ctx k winner evidence :
  (∀ s, B.call (with_sender who ctx) (ResolveWager k winner evidence) s
        = B.call ctx (ResolveWager k winner evidence) s) ∧
  (∀ s, O.call (with_sender who ctx) (ResolveWager k winner evidence) s
        = O.call ctx (ResolveWager k winner evidence) s).
Proof. split; intros s; reflexivity. Qed.

(** X7. Value leaves the contract only towards the wager named in the call:
    every transfer of a successful call goes to a participant of that wager
    or to its charity address. [createWager] and [acceptWager] send nothing,
    and neither the owner nor the caller is paid as such. *)
Theorem transfers_go_to_participants_or_charity ctx c s s' ret transfers events :
  B.call ctx c s = (s', Success ret transfers events) →
  match c with
  | CreateWager _ _ _ _ _ _ | AcceptWager _ => transfers = []
  | ResolveWager k winner _ =>
      let w := B.getWager (store s) k in
      ∀ to v, (to, v) ∈ transfers →
        (to = winner ∧ winner ∈ B.participants w) ∨
        (to = B.charityAddress w ∧ B.charityEnabled w = true ∧ to ≠ 0)
  | CancelWager k =>
      let w := B.getWager (store s) k in
      ∀ to v, (to, v) ∈ transfers → to ∈ B.participants w ∧ v = B.amount w
  end.
Proof.
  intros H. destruct c as [ps a cond ce cp ca | k | k win evd | k].
  - by apply call_create in H as (_ & _ & _ & _ & _ & _ & -> & _).
  - apply call_accept in H. simpl in H. by destruct H as (_ & _ & _ & _ & _ & -> & _).
  - apply call_resolve in H. simpl in H.
    destruct H as (_ & _ & Hp & _ & _ & _ & _ & _ & _ & _ & -> & _).
    apply isParticipant_elem in Hp. unfold B.getWager. cbv zeta.
    intros to v. unfold payout. destruct (charityDue _) eqn:Hd.
    + apply charityDue_spec in Hd as (? & _ & ?).
      intros [[= -> ->] | [[= -> ->] | []%elem_of_nil]%elem_of_cons]%elem_of_cons.
      * by right.
      * by left.
    + intros [[= -> ->] | []%elem_of_nil]%elem_of_cons. by left.
  - apply call_cancel in H. simpl in H.
    destruct H as (_ & _ & _ & _ & _ & _ & _ & -> & _).
    unfold B.getWager, refunds. cbv zeta. intros to v.
    intros (p & [= -> ->] & Hp)%list_elem_of_fmap. done.
Qed.

Lemma transfers_go_to_participants_or_charity_witness :
  (carol = alice ∧ alice ∈ B.participants (B.getWager (store active_state) 1)) ∨
  (carol = B.charityAddress (B.getWager (store active_state) 1) ∧
   B.charityEnabled (B.getWager (store active_state) 1) = true ∧ carol ≠ 0).
Proof.
  assert (B.call (tx alice 0 7) (ResolveWager 1 alice "forecast") active_state
          = ((B.call (tx alice 0 7) (ResolveWager 1 alice "forecast")
                active_state).1,
             Success None [(carol, 20); (alice, 180)] [WagerResolved 1 alice]))
    as Hcall.
  { vm_compute. reflexivity. }
  apply (transfers_go_to_participants_or_charity _ _ _ _ _ _ _ Hcall carol 20).
  apply list_elem_of_here.
Defined.

(** ** What a resolution records *)

(** X8. On a reachable state the winner, the resolution time and the
    donation of a wager are zero until it is Resolved, and the donation
    recorded for a Resolved wager is the charity's share of its pool:
    [floor(amount * participants.length * percentage / 100)] when charity
    is enabled with a positive percentage and an address, 0 otherwise. *)
Theorem resolution_record s k :
  B.reachable s →
  let w := B.getWager (store s) k in
  (B.status w ≠ Resolved →
   B.winner w = 0 ∧ B.resolvedAt w = 0 ∧ B.charityDonated w = 0) ∧
  (B.status w = Resolved → B.charityDonated w = charityAmount w).
Proof.
  unfold B.getWager. cbv zeta. intros Hreach. revert k.
  induction Hreach as [deployer funds | ctx c s Hreach IH]; intros k.
  - by split.
  - pose proof (reachable_invariant _ Hreach) as Hinv.
    destruct (call_cases ctx c s) as [(e & H)|(s' & ret & tr & ev & H)];
      rewrite H; [apply IH|]. simpl.
    destruct c as [ps a cond ce cp ca | j | j win evd | j].
    + apply call_create in H as (_ & _ & _ & _ & -> & _). simpl.
      destruct (decide (k = B.nextWagerId (store s))) as [->|Hne].
      * rewrite wager_at_add_eq. by split.
      * rewrite wager_at_add_ne by done. apply IH.
    + apply call_accept in H. simpl in H. destruct H as (Hs & _ & _ & -> & _).
      simpl. destruct (decide (j = k)) as [->|Hne].
      * rewrite wager_at_set_eq. simpl. split; [|done]. intros _.
        apply IH. by rewrite Hs.
      * rewrite wager_at_set_ne by done. apply IH.
    + apply call_resolve in H. simpl in H.
      destruct H as (_ & Hs & _ & _ & _ & _ & _ & _ & -> & _).
      simpl. destruct (decide (j = k)) as [->|Hne].
      * rewrite wager_at_set_eq.
        destruct (IH k) as [IH1 _]. destruct IH1 as (_ & _ & Hd).
        { by rewrite Hs. }
        unfold resolved_wager.
        destruct (charityDue (B.wager_at (store s) k)) eqn:Hdue;
          (split; [done|]); intros _;
          unfold charityAmount, charityDue, totalPool, resolved_by,
            B.with_charityDonated, B.with_resolvedAt, B.with_winner,
            B.with_status in *;
          cbn; rewrite Hdue; [done|].
        by rewrite Hd.
      * rewrite wager_at_set_ne by done. apply IH.
    + apply call_cancel in H. simpl in H.
      destruct H as (_ & Hs & _ & _ & _ & -> & _).
      simpl. destruct (decide (j = k)) as [->|Hne].
      * rewrite wager_at_set_eq. simpl. split; [|done]. intros _.
        apply IH. unfold Resolved. lia.
      * rewrite wager_at_set_ne by done. apply IH.
Qed.

Lemma resolution_record_witness :
  B.status (B.getWager (store resolved_state) 1) = Resolved ∧
  B.charityDonated (B.getWager (store resolved_state) 1)
  = charityAmount (B.getWager (store resolved_state) 1).
Proof.
  assert (B.reachable resolved_state) as Hr.
  { apply reachable_run, B.reach_deploy. }
  assert (B.status (B.getWager (store resolved_state) 1) = Resolved) as Hs.
  { vm_compute. reflexivity. }
  destruct (resolution_record resolved_state 1 Hr) as (_ & Hd).
  split; [exact Hs | exact (Hd Hs)].
Defined.

(** ** Stakes are not tracked *)

Lemma sent_payout w winner :
  charityAmount w ≤ totalPool w → sent (payout w winner) = totalPool w.
Proof.
  intros Hle. unfold sent, payout, winnerAmount, total.
  destruct (charityDue w) eqn:E; simpl; [lia|].
  unfold charityAmount. rewrite E. lia.
Qed.

(** X10. [createWager] followed by [cancelWager]: a wager with [n]
    participants, created with a payment of [amount] by any account at
    all, is cancelled by [participants[0]] exactly when the contract holds
    [n * amount] and every participant can receive; the cancellation pays
    [amount] to each of the [n] entries, so the contract ends
    [(n - 1) * amount] below its balance before the creation. *)
Theorem create_then_cancel ctx1 ctx2 ps a cond ce cp ca s :
  let k := B.nextWagerId (store s) in
  let n := N.of_nat (length ps) in
  let made := B.call ctx1 (CreateWager ps a cond ce cp ca) s in
  let cancelled := B.call ctx2 (CancelWager k) made.1 in
  succeeded made.2 = true → msg_value ctx1 = a →
  ps !! 0%nat = Some (msg_sender ctx2) →
  (succeeded cancelled.2 = true ↔
   msg_value ctx2 = 0 ∧ n * a ≤ balance s + a ∧
   Forall (λ p, can_receive ctx2 p = true) ps) ∧
  (succeeded cancelled.2 = true →
   cancelled.2 = Success None (refunds ps a) [] ∧
   balance cancelled.1 + (n - 1) * a = balance s ∧
   B.status (B.getWager (store cancelled.1) k) = Cancelled).
Proof.
  cbv zeta. intros Hok Hv Hfirst.
  apply succeeded_call in Hok as (s1 & ret & tr & ev & H1). rewrite H1. simpl.
  apply call_create in H1 as (_ & Hlen & _ & _ & -> & _).
  set (w := new_wager ctx1 _ ps a cond ce cp ca).
  assert (∀ s' r t e,
            B.call ctx2 (CancelWager (B.nextWagerId (store s)))
              {| store := add_wager (store s) w;
                 balance := balance s + msg_value ctx1 |}
            = (s', Success r t e) ↔
            msg_value ctx2 = 0 ∧ N.of_nat (length ps) * a ≤ balance s + a ∧
            Forall (λ p, can_receive ctx2 p = true) ps ∧
            s' = {| store := B.set_wager (add_wager (store s) w)
                               (B.nextWagerId (store s)) (B.with_status 3 w);
                    balance := balance s + a - a * N.of_nat (length ps) |} ∧
            r = None ∧ t = refunds ps a ∧ e = []) as Hcancel.
  { intros s' r t e. rewrite call_cancel. cbv zeta. simpl.
    rewrite wager_at_add_eq. subst w. simpl. rewrite Hv.
    split.
    - intros (? & _ & _ & ? & ? & ? & ? & ? & ?). split_and!; try done. lia.
    - intros (? & ? & ? & ? & ? & ? & ?).
      split_and!; try done; [by left | by right | lia]. }
  split.
  - rewrite succeeded_call. split.
    + intros (s' & r & t & e & H).
      apply Hcancel in H as (? & ? & ? & _). by split_and!.
    + intros (? & ? & ?). eexists _, _, _, _. apply Hcancel. by split_and!.
  - intros (s' & r & t & e & H)%succeeded_call. rewrite H. simpl.
    apply Hcancel in H as (_ & Hbal & _ & -> & -> & -> & ->).
    split_and!; [done | simpl; nia |].
    unfold B.getWager. simpl. by rewrite wager_at_set_eq.
Qed.

Lemma create_then_cancel_witness :
  let c := CreateWager [alice; bob] 50 "rain" false 0 0 in
  let made := B.call (tx alice 50 7) c three_way_state in
  let cancelled := B.call (tx alice 0 8) (CancelWager 3) made.1 in
  succeeded made.2 = true ∧
  cancelled.2 = Success None [(alice, 50); (bob, 50)] [] ∧
  balance cancelled.1 + (2 - 1) * 50 = balance three_way_state.
Proof.
  cbv zeta.
  assert (succeeded
            (B.call (tx alice 50 7) (CreateWager [alice; bob] 50 "rain" false 0 0)
               three_way_state).2 = true) as Hok.
  { vm_compute. reflexivity. }
  destruct (create_then_cancel (tx alice 50 7) (tx alice 0 8) [alice; bob] 50
              "rain" false 0 0 three_way_state Hok eq_refl eq_refl)
    as (_ & Hdone).
  destruct Hdone as (Hr & Hb & _).
  { vm_compute. reflexivity. }
  split; [exact Hok|]. split; [exact Hr | exact Hb].
Defined.

(** X11. [createWager], one [acceptWager], [resolveWager]: when the two
    payments are exactly [amount], the resolution pays out
    [n * amount] for the [n] listed participants although [2 * amount] came
    in. It succeeds exactly when the contract can cover the difference (and
    the call carries no value, the winner is listed, nothing overflows and
    the receivers accept); with two participants the balance returns to
    where it was. *)
Theorem create_accept_resolve ctx1 ctx2 ctx3 ps a cond ce cp ca winner evidence s :
  let k := B.nextWagerId (store s) in
  let n := N.of_nat (length ps) in
  let w := new_wager ctx1 k ps a cond ce cp ca in
  let s1 := (B.call ctx1 (CreateWager ps a cond ce cp ca) s).1 in
  let s2 := (B.call ctx2 (AcceptWager k) s1).1 in
  let resolved := B.call ctx3 (ResolveWager k winner evidence) s2 in
  succeeded (B.call ctx1 (CreateWager ps a cond ce cp ca) s).2 = true →
  succeeded (B.call ctx2 (AcceptWager k) s1).2 = true →
  msg_value ctx1 = a → msg_value ctx2 = a →
  (succeeded resolved.2 = true ↔
   msg_value ctx3 = 0 ∧ winner ∈ ps ∧ a * n ≤ MAX_UINT256 ∧
   (charityDue w = true →
      a * n * cp ≤ MAX_UINT256 ∧ can_receive ctx3 ca = true) ∧
   a * n ≤ balance s + 2 * a ∧ can_receive ctx3 winner = true) ∧
  (succeeded resolved.2 = true →
   sent (match resolved.2 with Success _ t _ => t | Reverted _ => [] end)
   = a * n ∧
   balance resolved.1 + a * n = balance s + 2 * a ∧
   (n = 2 → balance resolved.1 = balance s)).
Proof.
  cbv zeta. intros Hok1 Hok2 Hv1 Hv2.
  apply succeeded_call in Hok1 as (s1 & r1 & t1 & e1 & H1).
  rewrite H1 in *. simpl in *.
  apply call_create in H1 as (_ & Hlen & Hcp & _ & -> & _).
  apply succeeded_call in Hok2 as (s2 & r2 & t2 & e2 & H2).
  rewrite H2. simpl.
  apply call_accept in H2. simpl in H2. rewrite wager_at_add_eq in H2.
  destruct H2 as (_ & _ & _ & -> & _).
  set (w := new_wager ctx1 _ ps a cond ce cp ca).
  assert (charityDue (B.with_status 1 w) = charityDue w) as Hdue by done.
  assert (totalPool (B.with_status 1 w) = a * N.of_nat (length ps)) as Hpool by done.
  assert (charityAmount (B.with_status 1 w) ≤ a * N.of_nat (length ps)) as Hle.
  { rewrite <- Hpool. by apply charityAmount_le. }
  assert (∀ s' r t e,
            B.call ctx3 (ResolveWager (B.nextWagerId (store s)) winner evidence)
              {| store := B.set_wager (add_wager (store s) w)
                            (B.nextWagerId (store s)) (B.with_status 1 w);
                 balance := balance s + msg_value ctx1 + msg_value ctx2 |}
            = (s', Success r t e) ↔
            msg_value ctx3 = 0 ∧ winner ∈ ps ∧
            a * N.of_nat (length ps) ≤ MAX_UINT256 ∧
            (charityDue w = true →
               a * N.of_nat (length ps) * cp ≤ MAX_UINT256 ∧
               can_receive ctx3 ca = true) ∧
            a * N.of_nat (length ps) ≤ balance s + 2 * a ∧
            can_receive ctx3 winner = true ∧
            s' = {| store :=
                      B.set_wager
                        (B.set_wager (add_wager (store s) w)
                           (B.nextWagerId (store s)) (B.with_status 1 w))
                        (B.nextWagerId (store s))
                        (resolved_wager ctx3 winner (B.with_status 1 w));
                    balance := balance s + 2 * a - a * N.of_nat (length ps) |} ∧
            r = None ∧ t = payout (B.with_status 1 w) winner ∧
            e = [WagerResolved (B.nextWagerId (store s)) winner]) as Hres.
  { intros s' r t e. rewrite call_resolve. cbv zeta. simpl.
    rewrite wager_at_set_eq, Hdue, Hpool, Hv1, Hv2.
    rewrite isParticipant_elem.
    replace (balance s + a + a) with (balance s + 2 * a) by lia.
    split.
    - intros (? & _ & ? & ? & ? & _ & ? & ? & ? & ? & ? & ?). by split_and!.
    - intros (? & ? & ? & ? & ? & ? & ? & ? & ? & ?). by split_and!. }
  split.
  - rewrite succeeded_call. split.
    + intros (s' & r & t & e & H).
      apply Hres in H as (? & ? & ? & ? & ? & ? & _). by split_and!.
    + intros (? & ? & ? & ? & ? & ?). eexists _, _, _, _. apply Hres.
      by split_and!.
  - intros (s' & r & t & e & H)%succeeded_call. rewrite H. simpl.
    apply Hres in H as (_ & _ & _ & _ & Hbal & _ & -> & _ & -> & _).
    rewrite sent_payout by (by rewrite Hpool).
    rewrite Hpool. simpl. split_and!; [done | lia | lia].
Qed.

Lemma create_accept_resolve_witness :
  let c := CreateWager [alice; bob] 100 "rain" true 10 carol in
  let s1 := (B.call (tx alice 100 5) c (B.deploy admin 0)).1 in
  let s2 := (B.call (tx bob 100 6) (AcceptWager 1) s1).1 in
  let resolved := B.call (tx alice 0 7) (ResolveWager 1 alice "forecast") s2 in
  succeeded resolved.2 = true ∧ balance resolved.1 = balance (B.deploy admin 0).
Proof.
  cbv zeta.
  destruct (create_accept_resolve (tx alice 100 5) (tx bob 100 6) (tx alice 0 7)
              [alice; bob] 100 "rain" true 10 carol alice "forecast"
              (B.deploy admin 0)) as (_ & Hdone).
  - vm_compute. reflexivity.
  - vm_compute. reflexivity.
  - reflexivity.
  - reflexivity.
  - assert (succeeded
              (B.call (tx alice 0 7) (ResolveWager 1 alice "forecast")
                 (B.call (tx bob 100 6) (AcceptWager 1)
                    (B.call (tx alice 100 5)
                       (CreateWager [alice; bob] 100 "rain" true 10 carol)
                       (B.deploy admin 0)).1).1).2 = true) as Hok.
    { vm_compute. reflexivity. }
    destruct (Hdone Hok) as (_ & _ & Hback).
    split; [exact Hok | exact (Hback eq_refl)].
Defined.

(** ** Why a resolution fails *)

(** X12. The rejections of [resolveWager], in the order the code tests
    them: a call that carries value is refused before the body runs, then
    "Wager not active", then "Winner must be a participant". On a reachable
    state the guard "Invalid wager" never fires: an Active wager has
    participants. *)
Theorem resolveWager_rejections ctx k winner evidence s :
  B.reachable s →
  let w := B.getWager (store s) k in
  let r := (B.call ctx (ResolveWager k winner evidence) s).2 in
  (msg_value ctx ≠ 0 → r = Reverted NonPayable) ∧
  (msg_value ctx = 0 → B.status w ≠ Active → r = Reverted WagerNotActive) ∧
  (msg_value ctx = 0 → B.status w = Active → winner ∉ B.participants w →
   r = Reverted WinnerMustBeParticipant) ∧
  r ≠ Reverted InvalidWager.
Proof.
  intros Hreach. pose proof (reachable_invariant _ Hreach) as Hinv.
  unfold B.getWager. cbv zeta.
  assert (B.status (B.wager_at (store s) k) = 1 →
          (0 <? N.of_nat (length (B.participants (B.wager_at (store s) k)))) = true)
    as Hlen.
  { intros Hs. destruct (decide (created (store s) k)) as [Hk|Hn].
    - destruct (inv_created _ Hinv k Hk) as [[Hl _ _ _ _] _].
      apply N.ltb_lt. lia.
    - apply (inv_blank _ Hinv), blank_status in Hn. lia. }
  split_and!.
  - intros Hv. run_call. by destruct (N.eqb_spec (msg_value ctx) 0).
  - intros Hv Hs. run_call. rewrite Hv. change (0 =? 0) with true.
    cbn [st bal out evs]. by destruct (N.eqb_spec (B.status (B.wager_at (store s) k)) 1).
  - intros Hv Hs Hw. run_call. rewrite Hv. change (0 =? 0) with true.
    cbn [st bal out evs]. rewrite Hs. change (1 =? 1) with true.
    cbn [st bal out evs]. rewrite (Hlen Hs). cbn [st bal out evs].
    destruct (isParticipant winner _) eqn:Hp; [|done].
    by apply isParticipant_elem in Hp.
  - run_call. destruct (msg_value ctx =? 0); [|done]. cbn [st bal out evs].
    destruct (B.status (B.wager_at (store s) k) =? 1) eqn:Hs; [|done].
    apply N.eqb_eq in Hs. cbn [st bal out evs]. rewrite (Hlen Hs).
    cbn [st bal out evs].
    destruct (isParticipant winner _); [|done]. cbn [st bal out evs].
    unfold transfer.
    repeat (match goal with
            | |- context [if ?c then _ else _] => destruct c
            end; cbn [st bal out evs]); done.
Qed.

Lemma resolveWager_rejections_witness :
  (B.call (tx alice 0 7) (ResolveWager 1 dave "forecast") active_state).2
  = Reverted WinnerMustBeParticipant ∧
  (B.call (tx alice 0 7) (ResolveWager 1 alice "forecast") pending_state).2
  = Reverted WagerNotActive.
Proof.
  assert (B.reachable active_state) as Hra.
  { apply reachable_run, B.reach_deploy. }
  assert (B.reachable pending_state) as Hrp.
  { apply reachable_run, B.reach_deploy. }
  split.
  - destruct (resolveWager_rejections (tx alice 0 7) 1 dave "forecast"
                active_state Hra) as (_ & _ & Hw & _).
    apply Hw; [reflexivity | vm_compute; reflexivity |].
    intros Hin. vm_compute in Hin.
    apply elem_of_cons in Hin as [Hin | Hin]; [discriminate Hin|].
    apply elem_of_cons in Hin as [Hin | Hin]; [discriminate Hin|].
    by apply elem_of_nil in Hin.
  - destruct (resolveWager_rejections (tx alice 0 7) 1 alice "forecast"
                pending_state Hrp) as (_ & Hs & _).
    apply Hs; [reflexivity|]. vm_compute. discriminate.
Defined.

(** ** Creation in the optimized variant *)

Lemma O_call_receipt ctx c s :
  (O.call ctx c s).2
  = match O.dispatch ctx c {| st := store s; bal := balance s + msg_value ctx;
                              out := []; evs := [] |} with
    | Ok (r, t) => Success r (out t) (evs t)
    | Revert e => Reverted e
    end.
Proof.
  unfold O.call, transact. by destruct (O.dispatch _ _ _) as [[r t]|e].
Qed.


(** ** The contract service *)


(** X14. The id the service reads off the receipt of a successful
    [createWager] is the id the contract assigned and returned: the first
    [WagerCreated] log carries it, and since ids start at 1 the fallback to
    [getTotalWagers] (which answers 0) is never taken. *)
Theorem wagerId_from_receipt ctx ps a cond ce cp ca s s' ret transfers events :
  B.reachable s →
  B.call ctx (CreateWager ps a cond ce cp ca) s
  = (s', Success ret transfers events) →
  ret = Some (CS.wagerIdFromLogs events) ∧
  CS.wagerIdFromLogs events = B.nextWagerId (store s) ∧
  CS.wagerIdFromLogs events ≠ CS.getTotalWagers ∧
  created (store s') (CS.wagerIdFromLogs events) ∧
  B.participants (B.getWager (store s') (CS.wagerIdFromLogs events)) = ps.
Proof.
  intros Hreach H.
  pose proof (inv_counter _ (reachable_invariant _ Hreach)) as Hc.
  apply call_create in H as (_ & _ & _ & _ & -> & -> & _ & ->).
  unfold CS.wagerIdFromLogs, CS.getTotalWagers. simpl.
  destruct (N.eqb_spec (B.nextWagerId (store s)) 0) as [E|_]; [lia|].
  split_and!; try done.
  - lia.
  - split; simpl; lia.
  - unfold B.getWager. by rewrite wager_at_add_eq.
Qed.

Lemma wagerId_from_receipt_witness :
  CS.wagerIdFromLogs [WagerCreated 1 alice 100] = 1 ∧
  created (store pending_state) 1.
Proof.
  destruct (wagerId_from_receipt (tx alice 100 5) [alice; bob] 100 "rain" true
              10 carol (B.deploy admin 0) pending_state (Some 1) []
              [WagerCreated 1 alice 100]) as (_ & Hid & _ & Hk & _).
  - apply B.reach_deploy.
  - vm_compute. reflexivity.
  - split; [exact Hid | exact Hk].
Defined.

(** X15. The checks the service makes before sending are the guards of the
    contract: the call it builds, sent with the amount as value, is
    accepted exactly when the service's validation passes (and the id
    counter has not run out); left-out charity fields reach the contract as
    disabled, 0 and the zero address, and a percentage of up to 100 passes
    both although the verification accepts at most 50. *)
Theorem service_validation_matches_guards params ctx s :
  msg_value ctx = CS.createWager_value params →
  (succeeded (B.call ctx (CS.createWager_call params) s).2 = true ↔
   CS.validate params = None ∧ B.nextWagerId (store s) < MAX_UINT256) ∧
  (CS.validate params = None ↔
   (2 ≤ length (CS.participants params))%nat ∧
   default 0 (CS.charityPercentage params) ≤ 100) ∧
  (succeeded (B.call ctx (CS.createWager_call params) s).2 = true →
   let w := B.getWager (store (B.call ctx (CS.createWager_call params) s).1)
              (B.nextWagerId (store s)) in
   B.amount w = CS.amount params ∧
   B.charityEnabled w = default false (CS.charityEnabled params) ∧
   B.charityPercentage w = default 0 (CS.charityPercentage params) ∧
   B.charityAddress w = default 0 (CS.charityAddress params)).
Proof.
  intros Hv.
  assert (CS.validate params = None ↔
          (2 ≤ length (CS.participants params))%nat ∧
          default 0 (CS.charityPercentage params) ≤ 100) as Hval.
  { unfold CS.validate.
    destruct (N.ltb_spec (N.of_nat (length (CS.participants params))) 2).
    - split; [done | lia].
    - destruct (CS.charityPercentage params) as [p|]; simpl.
      + destruct (N.eqb_spec p 0) as [->|Hp]; simpl; [split; [lia | done]|].
        destruct (N.ltb_spec 100 p); split; try done; lia.
      + split; [lia | done]. }
  split_and!; [|done|].
  - rewrite Hval, succeeded_call. unfold CS.createWager_call. split.
    + intros (s' & ret & tr & ev & H).
      apply call_create in H as (_ & ? & ? & ? & _).
      split_and!; try done. unfold MAX_UINT256 in *. lia.
    + intros ([? ?] & ?). eexists _, _, _, _. apply call_create.
      split_and!; try done.
      * rewrite Hv. unfold CS.createWager_value. lia.
      * unfold MAX_UINT256 in *. lia.
  - intros (s' & ret & tr & ev & H)%succeeded_call. rewrite H. cbv zeta.
    simpl. unfold CS.createWager_call in H.
    apply call_create in H as (_ & _ & _ & _ & -> & _). simpl.
    unfold B.getWager. by rewrite wager_at_add_eq.
Qed.

Lemma service_validation_matches_guards_witness :
  CS.validate plain_params = None ∧
  succeeded
    (B.call (tx alice 100 5) (CS.createWager_call plain_params)
       (B.deploy admin 0)).2 = true.
Proof.
  destruct (service_validation_matches_guards plain_params (tx alice 100 5)
              (B.deploy admin 0) eq_refl) as (Hiff & _ & _).
  assert (CS.validate plain_params = None) as Hv by reflexivity.
  split; [exact Hv|]. apply Hiff. split; [exact Hv|]. vm_compute. reflexivity.
Defined.

(** X16. [acceptWager] of the service attaches the amount that [getWager]
    reports, so the contract never answers "Insufficient payment" and the
    call pays exactly the stake: it succeeds exactly when the wager is
    Pending and the sender is a listed participant, and fails with "Wager
    not pending" or "Not a participant" otherwise. For an id that was
    never created the service attaches nothing and the contract refuses. *)
Theorem service_accept_pays_the_stake ctx k s :
  B.reachable s →
  let w := B.getWager (store s) k in
  let ctx' := CS.acceptWager_ctx s k ctx in
  let r := B.call ctx' (AcceptWager k) s in
  (succeeded r.2 = true ↔
   B.status w = Pending ∧ msg_sender ctx ∈ B.participants w) ∧
  (succeeded r.2 = true →
   balance r.1 = balance s + B.amount w ∧
   B.status (B.getWager (store r.1) k) = Active) ∧
  (B.status w ≠ Pending → r.2 = Reverted WagerNotPending) ∧
  (B.status w = Pending → msg_sender ctx ∉ B.participants w →
   r.2 = Reverted NotAParticipant) ∧
  (¬ created (store s) k → msg_value ctx' = 0 ∧ succeeded r.2 = false).
Proof.
  intros Hreach. pose proof (reachable_invariant _ Hreach) as Hinv.
  unfold B.getWager. cbv zeta. split_and!.
  - rewrite succeeded_call. split.
    + intros (s' & ret & tr & ev & H). apply call_accept in H. simpl in H.
      destruct H as (? & _ & ?%isParticipant_elem & _). done.
    + intros (? & ?). eexists _, _, _, _. apply call_accept. simpl.
      split_and!; try done. by apply isParticipant_elem.
  - intros (s' & ret & tr & ev & H)%succeeded_call. rewrite H. simpl.
    apply call_accept in H. simpl in H. destruct H as (_ & _ & _ & -> & _).
    simpl. unfold B.getWager. by rewrite wager_at_set_eq.
  - intros Hs. run_call.
    by destruct (N.eqb_spec (B.status (B.wager_at (store s) k)) 0).
  - intros Hs Hp. run_call. rewrite Hs. change (0 =? 0) with true.
    cbn [st bal out evs CS.acceptWager_ctx msg_value msg_sender].
    unfold B.getWager. rewrite N.leb_refl. cbn [st bal out evs].
    destruct (isParticipant _ _) eqn:E; [|done].
    by apply isParticipant_elem in E.
  - intros Hn. pose proof (inv_blank _ Hinv k Hn) as Hb. split.
    + simpl. unfold B.getWager. by destruct Hb as [-> | ->].
    + destruct (succeeded _) eqn:E; [|done].
      apply succeeded_call in E as (s' & ret & tr & ev & H).
      apply call_accept in H. simpl in H. destruct H as (_ & _ & Hp & _).
      apply blank_participants in Hb. by rewrite Hb in Hp.
Qed.

Lemma service_accept_pays_the_stake_witness :
  let r := B.call (CS.acceptWager_ctx pending_state 1 (tx bob 0 6))
             (AcceptWager 1) pending_state in
  succeeded r.2 = true ∧
  balance r.1 = balance pending_state
                + B.amount (B.getWager (store pending_state) 1).
Proof.
  cbv zeta.
  assert (B.reachable pending_state) as Hr.
  { apply reachable_run, B.reach_deploy. }
  destruct (service_accept_pays_the_stake (tx bob 0 6) 1 pending_state Hr)
    as (Hiff & Hpay & _).
  assert (succeeded
            (B.call (CS.acceptWager_ctx pending_state 1 (tx bob 0 6))
               (AcceptWager 1) pending_state).2 = true) as Hok.
  { apply Hiff. split; [vm_compute; reflexivity|].
    apply isParticipant_elem. vm_compute. reflexivity. }
  split; [exact Hok | exact (proj1 (Hpay Hok))].
Defined.

(** ** The charity verification *)

Lemma quot_of_N (x : N) : (Z.of_N x `quot` 100)%Z = Z.of_N (x `div` 100).
Proof. by rewrite N2Z.inj_quot. Qed.

(** X17. What [verifyFromContract] says of a Resolved wager: the total it
    computes is the pool the contract paid out; for a wager with charity
    enabled the donation it reads is the charity's share and the winner
    amount it reports is what the winner was sent; and it is valid exactly
    when charity is disabled, or the percentage is at most 50 and the
    address is set. A wager that the contract accepted and resolved with a
    percentage between 51 and 100 is reported invalid, for its percentage
    alone. *)
Theorem verification_of_a_resolved_wager s k :
  B.reachable s →
  let w := B.getWager (store s) k in
  let v := CV.verifyFromContract (store s) k in
  B.status w = Resolved →
  CV.totalWinnings v = Z.of_N (totalPool w) ∧
  (CV.isValid v = true ↔
   B.charityEnabled w = false ∨
   (B.charityPercentage w ≤ 50 ∧ B.charityAddress w ≠ 0)) ∧
  (B.charityEnabled w = true →
   CV.actualDonationWei v = Z.of_N (charityAmount w) ∧
   CV.winnerAmountWei v = Z.of_N (winnerAmount w)) ∧
  (B.charityEnabled w = true → 50 < B.charityPercentage w →
   B.charityAddress w ≠ 0 →
   CV.errors v = [CV.InvalidPercentage (B.charityPercentage w)]).
Proof.
  intros Hreach. cbv zeta. intros Hs.
  pose proof (reachable_invariant _ Hreach) as Hinv.
  destruct (resolution_record s k Hreach) as [_ Hd]. specialize (Hd Hs).
  unfold B.getWager in *.
  set (w := B.wager_at (store s) k) in *.
  assert (Z.of_N (B.amount w) * Z.of_nat (length (B.participants w))
          = Z.of_N (totalPool w))%Z as Hpool.
  { unfold totalPool. lia. }
  assert (charityAmount w ≤ totalPool w) as Hle.
  { apply charityAmount_le.
    destruct (decide (created (store s) k)) as [Hk|Hn].
    - by destruct (inv_created _ Hinv k Hk) as [[] _].
    - apply (inv_blank _ Hinv) in Hn. fold w in Hn. by destruct Hn as [-> | ->]. }
  unfold CV.verifyFromContract, CV.verifyCharityDonation, B.getWager.
  fold w. cbv zeta. rewrite Hpool, Hd.
  assert ((B.charityPercentage w <? 0) = false) as -> by (apply N.ltb_ge; lia).
  rewrite orb_false_l.
  destruct (B.charityEnabled w) eqn:Hen; simpl.
  2:{ split_and!; try done. split; [by left | done]. }
  set (E := (Z.of_N (totalPool w) * Z.of_N (B.charityPercentage w) ÷ 100)%Z).
  assert (B.charityAddress w ≠ 0 → E = Z.of_N (charityAmount w)) as HE.
  { intros Ha. subst E. rewrite <- N2Z.inj_mul, quot_of_N. f_equal.
    unfold charityAmount, charityDue. rewrite Hen. simpl.
    destruct (N.eqb_spec (B.charityAddress w) 0); [done|].
    destruct (N.ltb_spec 0 (B.charityPercentage w)) as [|H0]; [done|]. simpl.
    assert (B.charityPercentage w = 0) as -> by lia.
    by rewrite N.mul_0_r. }
  assert (Z.of_N (totalPool w) - Z.of_N (charityAmount w)
          = Z.of_N (winnerAmount w))%Z as Hwin.
  { unfold winnerAmount. lia. }
  split; [done|].
  destruct (N.eqb_spec (B.charityAddress w) 0) as [Ha|Ha].
  - split_and!; [|done|done].
    destruct (50 <? B.charityPercentage w); simpl;
      (split; [done | intros [|[? ?]]; done]).
  - rewrite (HE Ha).
    assert ((Z.of_N (charityAmount w) >? Z.of_N (charityAmount w))%Z = false)
      as -> by (rewrite Z.gtb_ltb; apply Z.ltb_irrefl).
    rewrite Z.sub_diag.
    change (0 >? CV.tolerance)%Z with false.
    destruct (N.ltb_spec 50 (B.charityPercentage w)) as [Hp|Hp]; simpl.
    + split_and!; try done. split; [done | intros [|[? ?]]; [done | lia]].
    + split_and!; try done; [|lia]. split; [by right | done].
Qed.

Lemma verification_of_a_resolved_wager_witness :
  CV.isValid (CV.verifyFromContract (store resolved_state) 1) = true ∧
  CV.winnerAmountWei (CV.verifyFromContract (store resolved_state) 1)
  = Z.of_N (winnerAmount (B.getWager (store resolved_state) 1)).
Proof.
  assert (B.reachable resolved_state) as Hr.
  { apply reachable_run, B.reach_deploy. }
  destruct (verification_of_a_resolved_wager resolved_state 1 Hr)
    as (_ & Hiff & Hamt & _).
  - vm_compute. reflexivity.
  - split.
    + apply Hiff. right. split; vm_compute; congruence.
    + apply Hamt. vm_compute. reflexivity.
Defined.

(** ** The status the routes store *)

Lemma status_at_most_3 s k :
  B.reachable s → B.status (B.wager_at (store s) k) ≤ 3.
Proof.
  intros Hinv%reachable_invariant.
  destruct (decide (created (store s) k)) as [Hk|Hn].
  - by destruct (inv_created _ Hinv k Hk) as [[] _].
  - apply (inv_blank _ Hinv), blank_status in Hn. lia.
Qed.

(** X18. The sync route names every status the contract can hold, so its
    default is never used and different statuses get different names. The
    accept route stores 'active' right after a successful [acceptWager],
    and agrees with the sync route exactly on Pending and Active wagers: a
    Resolved or Cancelled wager it stores as 'pending'. *)
Theorem route_status_names s k :
  B.reachable s →
  let w := B.getWager (store s) k in
  Routes.statusMap (B.status w) = Some (Routes.sync_status w) ∧
  (∀ s' k', B.reachable s' →
     Routes.sync_status (B.getWager (store s') k') = Routes.sync_status w →
     B.status (B.getWager (store s') k') = B.status w) ∧
  (Routes.accept_status w = Routes.sync_status w ↔
   B.status w = Pending ∨ B.status w = Active) ∧
  (∀ ctx, succeeded (B.call ctx (AcceptWager k) s).2 = true →
     Routes.accept_status
       (B.getWager (store (B.call ctx (AcceptWager k) s).1) k) = "active").
Proof.
  intros Hreach. unfold B.getWager. cbv zeta.
  pose proof (status_at_most_3 s k Hreach) as H3.
  assert (∀ x, x ≤ 3 → x = 0 ∨ x = 1 ∨ x = 2 ∨ x = 3) as Hcases by lia.
  unfold Routes.sync_status, Routes.accept_status. split_and!.
  - by destruct (Hcases _ H3) as [-> | [-> | [-> | ->]]].
  - intros s' k' Hreach'.
    pose proof (status_at_most_3 s' k' Hreach') as H3'.
    destruct (Hcases _ H3) as [-> | [-> | [-> | ->]]];
      destruct (Hcases _ H3') as [-> | [-> | [-> | ->]]]; done.
  - unfold Pending, Active.
    destruct (Hcases _ H3) as [-> | [-> | [-> | ->]]]; simpl;
      (split; [try done; by auto | intros [|]; done]).
  - intros ctx (s' & ret & tr & ev & H)%succeeded_call. rewrite H. simpl.
    apply call_accept in H. simpl in H. destruct H as (_ & _ & _ & -> & _).
    simpl. by rewrite wager_at_set_eq.
Qed.

Lemma route_status_names_witness :
  Routes.statusMap (B.status (B.getWager (store resolved_state) 1))
  = Some (Routes.sync_status (B.getWager (store resolved_state) 1)) ∧
  Routes.accept_status
    (B.getWager
       (store (B.call (tx bob 100 6) (AcceptWager 1) pending_state).1) 1)
  = "active".
Proof.
  assert (B.reachable resolved_state) as Hr.
  { apply reachable_run, B.reach_deploy. }
  assert (B.reachable pending_state) as Hrp.
  { apply reachable_run, B.reach_deploy. }
  split.
  - exact (proj1 (route_status_names resolved_state 1 Hr)).
  - destruct (route_status_names pending_state 1 Hrp) as (_ & _ & _ & Hacc).
    apply Hacc. vm_compute. reflexivity.
Defined.

(** ** The error reports *)


Lemma prefix_app (r post : string) : String.prefix r (r +:+ post) = true.
Proof.
  induction r as [|c r IH]; simpl; [by destruct post|].
  destruct (Ascii.ascii_dec c c); [done | congruence].
Qed.

Lemma includes_prefix (s sub : string) :
  String.prefix sub s = true → EH.includes s sub = true.
Proof. intros H. destruct s; cbn [EH.includes]; by rewrite H. Qed.

Lemma includes_app (pre r post : string) :
  EH.includes (pre +:+ r +:+ post) r = true.
Proof.
  induction pre as [|c pre IH].
  - apply includes_prefix. exact (prefix_app r post).
  - change (String c pre +:+ r +:+ post) with (String c (pre +:+ r +:+ post)).
    cbn [EH.includes]. rewrite IH. by destruct (String.prefix _ _).
Qed.

(** X19. How [parseContractError] reads the contract's rejections. A
    message that contains "Insufficient payment" anywhere is reported as
    INSUFFICIENT_FUNDS, with the advice to add BNB. Of the ten reason
    strings of the contract, taken as the message, four are recognised:
    "Insufficient payment", "Not a participant", "Wager not pending" and
    "Wager not active"; the other six fall through to the code of the
    error object and the generic text. The message is always passed on
    unchanged. *)
Theorem contract_errors_as_reported e r errorCode :
  reason e = Some r →
  (∀ pre post,
     e = InsufficientPayment →
     EH.code (EH.parseContractError (pre +:+ r +:+ post) errorCode)
     = "INSUFFICIENT_FUNDS") ∧
  EH.code (EH.parseContractError r errorCode)
  = match e with
    | InsufficientPayment => "INSUFFICIENT_FUNDS"
    | NotAParticipant => "NOT_PARTICIPANT"
    | WagerNotPending | WagerNotActive => "INVALID_STATUS"
    | _ => errorCode
    end ∧
  EH.message (EH.parseContractError r errorCode) = r.
Proof.
  intros Hr. split_and!.
  - intros pre post ->. injection Hr as <-.
    unfold EH.parseContractError.
    rewrite (includes_app pre "Insufficient payment" post).
    by rewrite orb_true_r.
  - destruct e; simplify_eq/=; reflexivity.
  - destruct e; simplify_eq/=; reflexivity.
Qed.

Lemma contract_errors_as_reported_witness :
  EH.code (EH.parseContractError "Not a participant" "CALL_EXCEPTION")
  = "NOT_PARTICIPANT" ∧
  EH.code (EH.parseContractError "Cannot cancel" "CALL_EXCEPTION")
  = "CALL_EXCEPTION".
Proof.
  split.
  - exact (proj1 (proj2 (contract_errors_as_reported NotAParticipant
                           "Not a participant" "CALL_EXCEPTION" eq_refl))).
  - exact (proj1 (proj2 (contract_errors_as_reported CannotCancel
                           "Cannot cancel" "CALL_EXCEPTION" eq_refl))).
Defined.

(** ** The owner *)

Lemma owner_call ctx c s : B.owner (store (B.call ctx c s).1) = B.owner (store s).
Proof.
  destruct (call_cases ctx c s) as [(e & H)|(s' & ret & tr & ev & H)];
    rewrite H; [done|]. simpl.
  destruct c as [ps a cond ce cp ca | k | k win evd | k].
  - by apply call_create in H as (_ & _ & _ & _ & -> & _).
  - apply call_accept in H. simpl in H. by destruct H as (_ & _ & _ & -> & _).
  - apply call_resolve in H. simpl in H.
    by destruct H as (_ & _ & _ & _ & _ & _ & _ & _ & -> & _).
  - apply call_cancel in H. simpl in H.
    by destruct H as (_ & _ & _ & _ & _ & -> & _).
Qed.

Lemma O_owner_call ctx c s : O.owner (store (O.call ctx c s).1) = O.owner (store s).
Proof.
  destruct (O_call_cases ctx c s) as [(e & H)|(s' & ret & tr & ev & H)];
    rewrite H; [done|]. simpl.
  destruct c as [ps a cond ce cp ca | k | k win evd | k].
  - by apply O_call_create in H.
  - apply O_call_accept in H. simpl in H. by destruct H as (_ & _ & _ & -> & _).
  - apply O_call_resolve in H. simpl in H.
    destruct H as (_ & _ & _ & _ & _ & _ & _ & _ & -> & _).
    simpl. unfold O_resolved. by destruct (_ && _).
  - apply O_call_cancel in H. simpl in H.
    by destruct H as (_ & _ & _ & _ & _ & -> & _).
Qed.

Lemma owner_run s calls : B.owner (store (B.run s calls).1) = B.owner (store s).
Proof.
  revert s. induction calls as [|[ctx c] calls IH]; intros s; [done|].
  rewrite run_cons, IH. apply owner_call.
Qed.

Lemma O_owner_run s calls : O.owner (store (O.run s calls).1) = O.owner (store s).
Proof.
  revert s. induction calls as [|[ctx c] calls IH]; intros s; [done|].
  rewrite O_run_cons, IH. apply O_owner_call.
Qed.

(** X20. The owner is the account that deployed the contract, for good: no
    function of either variant writes [owner]. So, whatever calls came
    before, a [cancelWager] that succeeds was sent by the deployer or by
    the first listed participant of the wager. *)
Theorem owner_is_the_deployer deployer funds calls :
  let b := (B.run (B.deploy deployer funds) calls).1 in
  let o := (O.run (O.deploy deployer funds) calls).1 in
  B.owner (store b) = deployer ∧ O.owner (store o) = deployer ∧
  (∀ ctx k, succeeded (B.call ctx (CancelWager k) b).2 = true →
     msg_sender ctx = deployer ∨
     head (B.participants (B.getWager (store b) k)) = Some (msg_sender ctx)) ∧
  (∀ ctx k, succeeded (O.call ctx (CancelWager k) o).2 = true →
     msg_sender ctx = deployer ∨
     head (O.getWager (store o) k).1.2 = Some (msg_sender ctx)).
Proof.
  cbv zeta.
  pose proof (λ s, owner_run s calls) as HB.
  pose proof (λ s, O_owner_run s calls) as HO.
  split_and!.
  - by rewrite HB.
  - by rewrite HO.
  - intros ctx k (s' & ret & tr & ev & H)%succeeded_call.
    apply call_cancel in H. simpl in H. destruct H as (_ & _ & Hauth & _).
    rewrite HB in Hauth. unfold B.getWager.
    destruct Hauth as [|Hp]; [by left | right].
    by rewrite head_lookup.
  - intros ctx k (s' & ret & tr & ev & H)%O_succeeded_call.
    apply O_call_cancel in H. simpl in H. destruct H as (_ & _ & Hauth & _).
    rewrite HO in Hauth. unfold O.getWager. simpl.
    destruct Hauth as [|Hp]; [by left | right].
    by rewrite head_lookup.
Qed.

(** ** The record of the resolve route *)

Lemma existsb_elem who ps : existsb (λ addr, addr =? who) ps = true ↔ who ∈ ps.
Proof.
  induction ps as [|p ps IH]; simpl.
  - split; [done | by intros ?%elem_of_nil].
  - rewrite elem_of_cons, orb_true_iff, IH, N.eqb_eq.
    split; (intros [->|?]; [by left | by right]).
Qed.

(** X21. The resolve route stores a record exactly when the request names
    a winner and a transaction hash and the winner is a participant of the
    wager on the chain; a request that leaves one of the two out is refused
    before the contract is read. Called after a successful [resolveWager]
    with the winner of that call, what it stores is what the chain holds:
    the status name of the sync route and the winner field. It does not
    look at the status, so for a wager that is not Resolved and a listed
    participant it stores 'resolved' where the sync route stores another
    name, whatever the transaction hash. *)
Theorem resolve_route_record s k :
  B.reachable s →
  let w := B.getWager (store s) k in
  (∀ winnerAddress txHash status winner,
     Routes.resolve_record (store s) k winnerAddress txHash = Routes.Stored status winner ↔
     winnerAddress = Some winner ∧ Routes.falsy_string txHash = false ∧
     winner ∈ B.participants w ∧ status = "resolved") ∧
  (∀ winnerAddress txHash,
     winnerAddress = None ∨ Routes.falsy_string txHash = true →
     Routes.resolve_record (store s) k winnerAddress txHash = Routes.FieldsRequired) ∧
  (∀ ctx winner evidence txHash,
     succeeded (B.call ctx (ResolveWager k winner evidence) s).2 = true →
     Routes.falsy_string txHash = false →
     let s' := store (B.call ctx (ResolveWager k winner evidence) s).1 in
     Routes.resolve_record s' k (Some winner) txHash
     = Routes.Stored (Routes.sync_status (B.getWager s' k))
         (B.winner (B.getWager s' k))) ∧
  (∀ a txHash, a ∈ B.participants w → B.status w ≠ Resolved →
     Routes.falsy_string txHash = false →
     ∃ name, Routes.resolve_record (store s) k (Some a) txHash = Routes.Stored name a ∧
             name ≠ Routes.sync_status w).
Proof.
  intros Hreach. unfold B.getWager. cbv zeta. unfold Routes.resolve_record.
  split_and!.
  - intros [a|] txHash status winner; [|by split; [|intros (? & _)]].
    destruct (Routes.falsy_string txHash); [by split; [|intros (_ & ? & _)]|].
    unfold B.getWager. destruct (existsb _ _) eqn:E.
    + apply existsb_elem in E. split.
      * by intros [= <- <-].
      * by intros ([= ->] & _ & _ & ->).
    + split; [done|]. intros ([= ->] & _ & Ha%existsb_elem & _). congruence.
  - intros [a|] txHash [Hw | Ht]; try done. by rewrite Ht.
  - intros ctx winner evidence txHash (s' & ret & tr & ev & H)%succeeded_call Ht.
    rewrite H. simpl. rewrite Ht. apply call_resolve in H. simpl in H.
    destruct H as (_ & _ & Hp%isParticipant_elem & _ & _ & _ & _ & _ & -> & _).
    simpl. unfold B.getWager. rewrite wager_at_set_eq.
    assert (B.participants (resolved_wager ctx winner (B.wager_at (store s) k))
            = B.participants (B.wager_at (store s) k) ∧
            B.status (resolved_wager ctx winner (B.wager_at (store s) k)) = 2 ∧
            B.winner (resolved_wager ctx winner (B.wager_at (store s) k)) = winner)
      as (-> & Hs & ->).
    { unfold resolved_wager. by destruct (charityDue _). }
    apply existsb_elem in Hp. rewrite Hp.
    unfold Routes.sync_status. by rewrite Hs.
  - intros a txHash Ha Hs Ht. rewrite Ht. unfold B.getWager.
    apply existsb_elem in Ha. rewrite Ha.
    eexists. split; [done|].
    pose proof (status_at_most_3 s k Hreach) as H3.
    unfold Routes.sync_status, Resolved in *.
    assert (∀ x, x ≤ 3 → x = 0 ∨ x = 1 ∨ x = 2 ∨ x = 3) as Hcases by lia.
    destruct (Hcases _ H3) as [E | [E | [E | E]]]; rewrite E; done.
Qed.

Lemma resolve_route_record_witness :
  Routes.resolve_record
    (store (B.call (tx alice 0 7) (ResolveWager 1 alice "forecast") active_state).1)
    1 (Some alice) (Some "0xabc")
  = Routes.Stored "resolved" alice ∧
  Routes.resolve_record (store pending_state) 1 (Some bob) None
  = Routes.FieldsRequired.
Proof.
  assert (B.reachable active_state) as Hra.
  { apply reachable_run, B.reach_deploy. }
  assert (B.reachable pending_state) as Hrp.
  { apply reachable_run, B.reach_deploy. }
  split.
  - destruct (resolve_route_record active_state 1 Hra) as (_ & _ & Hres & _).
    assert (succeeded
              (B.call (tx alice 0 7) (ResolveWager 1 alice "forecast")
                 active_state).2 = true) as Hok.
    { vm_compute. reflexivity. }
    exact (Hres (tx alice 0 7) alice "forecast" (Some "0xabc") Hok eq_refl).
  - destruct (resolve_route_record pending_state 1 Hrp) as (_ & Hreq & _).
    apply Hreq. by right.
Defined.
